(** * Regex crossword on a hexagonal board: hexgrid.py, nfsm.py, regexcrossword.py

    A shallow embedding of the three Python modules and the properties
    their specification states about them.  Python objects that are mutated
    through several references (the cells of the grid, the letter sets of
    a chain) live in explicit stores and are named by their address, which
    plays the part of Python's [id()]. *)

From Stdlib Require Import ZArith Ascii String.
From stdpp Require Import gmap strings list fin_maps.

Set Default Proof Using "Type".
Local Open Scope nat_scope.

(** ** Exceptions *)

(** The exceptions the modelled code can raise. *)
Inductive exn := ValueError | IndexError | TypeError | RecursionError.

(** What a call does: it returns, raises, or never comes back. *)
Inductive result (A : Type) : Type :=
| Ok (a : A)
| Raise (e : exn)
| Diverge.
Arguments Ok {A} a.
Arguments Raise {A} e.
Arguments Diverge {A}.

Definition rbind {A B} (m : result A) (f : A → result B) : result B :=
  match m with Ok a => f a | Raise e => Raise e | Diverge => Diverge end.

Definition is_ok {A} (r : result A) : bool :=
  match r with Ok _ => true | _ => false end.

Definition from_option {A} (e : exn) (o : option A) : result A :=
  match o with Some a => Ok a | None => Raise e end.

Notation "'try' x ← m ; k" := (rbind m (λ x, k))
  (at level 10, x pattern, m at level 100, k at level 200,
   format "'[v' 'try'  x  ←  m ; '/' k ']'") : stdpp_scope.

Fixpoint rmapM {A B} (f : A → result B) (l : list A) : result (list B) :=
  match l with
  | [] => Ok []
  | x :: l' => try y ← f x; try ys ← rmapM f l'; Ok (y :: ys)
  end.

(** Python's [l[:-1]]. *)
Definition but_last {A} (l : list A) : list A := take (length l - 1) l.

(** Python's [zip(l[:-1], l[1:])]: the adjacent pairs of [l]. *)
Definition adjacent {A} (l : list A) : list (A * A) := zip (but_last l) (tail l).

(** ** hexgrid.py *)

Module HexGrid.

(** A cell object: its value and six links, each [None] or the address of
    a neighbour. *)
Record Cell (V : Type) := mkCell {
  value : V;
  left : option nat;
  ul : option nat;
  ur : option nat;
  right : option nat;
  lr : option nat;
  ll : option nat;
}.
Arguments mkCell {V}.
Arguments value {V}.
Arguments left {V}.
Arguments ul {V}.
Arguments ur {V}.
Arguments right {V}.
Arguments lr {V}.
Arguments ll {V}.

Section Grid.
(** [defaultvaluegenerator] is a callable with a state of its own
    ([list], or [lambda: set(...)], return a fresh object at each call). *)
Context {G V : Type} (defaultvaluegenerator : G → V * G).

(** The grid object together with the store of its cells; the address of
    a cell is its index in [cells]. *)
Record t := mk {
  sidelen : nat;
  gen_state : G;
  cells : list (Cell V);
  leftedges : list nat;
  uredges : list nat;
  lredges : list nat;
}.

Definition with_cells (g : t) (cs : list (Cell V)) : t :=
  mk (sidelen g) (gen_state g) cs (leftedges g) (uredges g) (lredges g).

Definition set_left (c : nat) (v : nat) (g : t) : t :=
  with_cells g (alter (λ x, mkCell (value x) (Some v) (ul x) (ur x) (right x) (lr x) (ll x)) c (cells g)).
Definition set_ul (c : nat) (v : nat) (g : t) : t :=
  with_cells g (alter (λ x, mkCell (value x) (left x) (Some v) (ur x) (right x) (lr x) (ll x)) c (cells g)).
Definition set_ur (c : nat) (v : nat) (g : t) : t :=
  with_cells g (alter (λ x, mkCell (value x) (left x) (ul x) (Some v) (right x) (lr x) (ll x)) c (cells g)).
Definition set_right (c : nat) (v : nat) (g : t) : t :=
  with_cells g (alter (λ x, mkCell (value x) (left x) (ul x) (ur x) (Some v) (lr x) (ll x)) c (cells g)).
Definition set_lr (c : nat) (v : nat) (g : t) : t :=
  with_cells g (alter (λ x, mkCell (value x) (left x) (ul x) (ur x) (right x) (Some v) (ll x)) c (cells g)).
Definition set_ll (c : nat) (v : nat) (g : t) : t :=
  with_cells g (alter (λ x, mkCell (value x) (left x) (ul x) (ur x) (right x) (lr x) (Some v)) c (cells g)).

(** [Cell(self.defaultvaluegenerator())] *)
Definition new_cell (g : t) : nat * t :=
  let r := defaultvaluegenerator (gen_state g) in
  (length (cells g),
   mk (sidelen g) r.2 (cells g ++ [mkCell r.1 None None None None None None])
      (leftedges g) (uredges g) (lredges g)).

(** The loop that creates the top row. *)
Fixpoint top_row (n : nat) (row : list nat) (lastcell : option nat) (g : t)
  : list nat * t :=
  match n with
  | 0 => (row, g)
  | S n' =>
      let '(newcell, g) := new_cell g in
      let row := row ++ [newcell] in
      let g := match lastcell with
               | Some l => set_left newcell l (set_right l newcell g)
               | None => g
               end in
      top_row n' row (Some newcell) g
  end.

(** The loop over [zip(lastrow[:-1], lastrow[1:])] of both row builders. *)
Fixpoint inner_nodes (ps : list (nat * nat)) (newrow : list nat) (g : t)
  : list nat * t :=
  match ps with
  | [] => (newrow, g)
  | (ulneighbor, urneighbor) :: ps' =>
      let '(newcell, g) := new_cell g in
      let g := set_ul newcell ulneighbor g in
      let g := set_lr ulneighbor newcell g in
      let g := set_ur newcell urneighbor g in
      let g := set_ll urneighbor newcell g in
      inner_nodes ps' (newrow ++ [newcell]) g
  end.

(** The loop over [zip(newrow[:-1], newrow[1:])] that links a row. *)
Definition link_row (newrow : list nat) (g : t) : t :=
  foldl (λ g '(l, r), set_left r l (set_right l r g)) g (adjacent newrow).

Definition _newrow_expand (lastrow : list nat) (g : t) : result (list nat * t) :=
  let '(first, g) := new_cell g in
  let newrow := [first] in
  try lastrow0 ← from_option IndexError (head lastrow);
  let g := set_ll lastrow0 first g in
  let g := set_ur first lastrow0 g in
  let '(newrow, g) := inner_nodes (adjacent lastrow) newrow g in
  let '(final, g) := new_cell g in
  let newrow := newrow ++ [final] in
  try lastrow1 ← from_option IndexError (last lastrow);
  let g := set_lr lastrow1 final g in
  let g := set_ul final lastrow1 g in
  let g := link_row newrow g in
  Ok (newrow,
      mk (sidelen g) (gen_state g) (cells g)
         (leftedges g ++ [first]) (uredges g ++ [final]) (lredges g)).

Definition _newrow_contract (lastrow : list nat) (g : t) : result (list nat * t) :=
  let '(newrow, g) := inner_nodes (adjacent lastrow) [] g in
  let g := link_row newrow g in
  try newrow0 ← from_option IndexError (head newrow);
  try newrow1 ← from_option IndexError (last newrow);
  Ok (newrow,
      mk (sidelen g) (gen_state g) (cells g)
         (leftedges g ++ [newrow0]) (uredges g) (lredges g ++ [newrow1])).

(** [for _ in range(n): row = f(row)] *)
Fixpoint repeat_rows (f : list nat → t → result (list nat * t)) (n : nat)
    (row : list nat) (g : t) : result (list nat * t) :=
  match n with
  | 0 => Ok (row, g)
  | S n' => try (row, g) ← f row g; repeat_rows f n' row g
  end.

(** [HexGrid.__init__] *)
Definition init (sidelen : nat) (s : G) : result t :=
  let g := mk sidelen s [] [] [] [] in
  let '(row, g) := top_row sidelen [] None g in
  let g := mk sidelen (gen_state g) (cells g) (leftedges g) (uredges g ++ row) (lredges g) in
  try row0 ← from_option IndexError (head row);
  let g := mk sidelen (gen_state g) (cells g) (leftedges g ++ [row0]) (uredges g) (lredges g) in
  try (row, g) ← repeat_rows _newrow_expand (sidelen - 1) row g;
  try row1 ← from_option IndexError (last row);
  let g := mk sidelen (gen_state g) (cells g) (leftedges g) (uredges g) (lredges g ++ [row1]) in
  try (row, g) ← repeat_rows _newrow_contract (sidelen - 1) row g;
  let g := mk sidelen (gen_state g) (cells g) (leftedges g) (uredges g)
              (lredges g ++ reverse (but_last row)) in
  Ok (mk sidelen (gen_state g) (cells g) (reverse (leftedges g)) (uredges g) (lredges g)).

(** [while cell is not None: yield cell; cell = cell.<link>].  The loop
    is run for at most [fuel] cells; a walk that is still going then has
    come back to a cell it has left, and in Python never ends. *)
Fixpoint walk (link : Cell V → option nat) (cs : list (Cell V))
    (fuel : nat) (cell : option nat) : option (list nat) :=
  match cell with
  | None => Some []
  | Some c =>
      match fuel with
      | 0 => None
      | S fuel' =>
          match cs !! c with
          | None => None
          | Some x => cons c <$> walk link cs fuel' (link x)
          end
      end
  end.

(** The cells a traversal visits, by address.  A walk longer than the
    number of cells does not end. *)
Definition line (edges : t → list nat) (link : Cell V → option nat)
    (g : t) (index : nat) : result (list nat) :=
  try start ← from_option IndexError (edges g !! index);
  match walk link (cells g) (S (length (cells g))) (Some start) with
  | Some l => Ok l
  | None => Diverge
  end.

Definition cells_l2r := line leftedges right.
Definition cells_ur2ll := line uredges ll.
Definition cells_lr2ul := line lredges ul.

(** The cell of the top left corner has no neighbour to its left or
    above it; the row below the row that starts at [c] starts at the
    lower left neighbour of [c], or else at its lower right one. *)
Definition corner (x : Cell V) : bool :=
  match left x, ul x, ur x with
  | None, None, None => true
  | _, _, _ => false
  end.

Definition top_left (g : t) : option nat :=
  fst <$> list_find (λ x, corner x = true) (cells g).

Definition below_left (g : t) (c : nat) : option nat :=
  x ← cells g !! c;
  match ll x with Some d => Some d | None => lr x end.

Fixpoint descend (g : t) (k : nat) (c : nat) : option nat :=
  match k with
  | 0 => Some c
  | S k' => d ← below_left g c; descend g k' d
  end.

(** Row [i] of the hexagon, counted from the top, left to right. *)
Definition row_from_top (g : t) (i : nat) : option (list nat) :=
  c ← top_left g;
  d ← descend g i c;
  walk right (cells g) (S (length (cells g))) (Some d).

Definition values (g : t) (l : list nat) : list V :=
  omap (λ c, value <$> cells g !! c) l.

(** The three generators, as the list of the values they yield. *)
Definition traverse_l2r (g : t) (index : nat) : result (list V) :=
  try l ← cells_l2r g index; Ok (values g l).
Definition traverse_ur2ll (g : t) (index : nat) : result (list V) :=
  try l ← cells_ur2ll g index; Ok (values g l).
Definition traverse_lr2ul (g : t) (index : nat) : result (list V) :=
  try l ← cells_lr2ul g index; Ok (values g l).

End Grid.

End HexGrid.


(** ** nfsm.py *)

Module NFSM.

(** *** The store of set objects *)

(** Every Python [set] the module creates is an object of the store; its
    address is what [id()] returns.  [next] is the first free address. *)
Record heap := mkHeap {
  next : N;
  objs : gmap N (gset ascii);
}.

Definition empty_heap : heap := mkHeap 0 ∅.

(** The letters a set object holds. *)
Definition get (h : heap) (a : N) : gset ascii := default ∅ (objs h !! a).

(** A new set object. *)
Definition alloc (s : gset ascii) (h : heap) : N * heap :=
  (next h, mkHeap (N.succ (next h)) (<[next h := s]> (objs h))).

(** In-place update of a set object ([&=]). *)
Definition put (a : N) (s : gset ascii) (h : heap) : heap :=
  mkHeap (next h) (<[a := s]> (objs h)).

(** *** Chains *)

(** An item of a chain as [_parse_regex_part] yields it: a set, an integer
    that refers to a group, or a list, the definition of a group. *)
#[warnings="-register-all"]
Inductive item :=
| ISet (a : N)
| IInt (k : Z)
| IList (l : list item).

Abbreviation chain := (list item).

(** The addresses of the set objects an item holds. *)
Fixpoint item_addrs (x : item) : list N :=
  match x with
  | ISet a => [a]
  | IInt _ => []
  | IList l => (fix go (l : list item) : list N :=
                  match l with [] => [] | y :: l' => item_addrs y ++ go l' end) l
  end.

Definition chain_addrs (c : chain) : list N := c ≫= item_addrs.

(** [copy.deepcopy(x)] with its memo: a set met twice in one call is
    copied once. *)
Fixpoint deepcopy_memo (x : item) (memo : gmap N N) (h : heap)
  : item * gmap N N * heap :=
  match x with
  | ISet a =>
      match memo !! a with
      | Some b => (ISet b, memo, h)
      | None => let '(b, h) := alloc (get h a) h in (ISet b, <[a := b]> memo, h)
      end
  | IInt k => (IInt k, memo, h)
  | IList l =>
      let '(l', memo, h) :=
        (fix go (l : list item) (memo : gmap N N) (h : heap)
           : list item * gmap N N * heap :=
           match l with
           | [] => ([], memo, h)
           | y :: l' =>
               let '(y', memo, h) := deepcopy_memo y memo h in
               let '(l'', memo, h) := go l' memo h in
               (y' :: l'', memo, h)
           end) l memo h in
      (IList l', memo, h)
  end.

Definition deepcopy (x : item) (h : heap) : item * heap :=
  let '(y, _, h) := deepcopy_memo x ∅ h in (y, h).

(** One round of [for item in chain: chaincopy.append(deepcopy(item))]. *)
Fixpoint copy_items (c : chain) (h : heap) : chain * heap :=
  match c with
  | [] => ([], h)
  | x :: c' =>
      let '(y, h) := deepcopy x h in
      let '(ys, h) := copy_items c' h in
      (y :: ys, h)
  end.

(** [NFSM._copy_chain(chain, repeat)] *)
Fixpoint _copy_chain (c : chain) (repeat : nat) (h : heap) : chain * heap :=
  match repeat with
  | 0 => ([], h)
  | S r =>
      let '(c1, h) := copy_items c h in
      let '(c2, h) := _copy_chain c r h in
      (c1 ++ c2, h)
  end.

(** *** Python strings *)

(** [s[lo:hi]] for arbitrary integers [lo], [hi]. *)
Definition py_slice {A} (s : list A) (lo hi : Z) : list A :=
  let n := Z.of_nat (length s) in
  let norm (i : Z) := if (i <? 0)%Z then Z.max 0 (i + n) else Z.min i n in
  let lo := norm lo in
  let hi := norm hi in
  take (Z.to_nat (hi - lo)) (drop (Z.to_nat lo) s).

(** [s[lo:]] *)
Definition py_from {A} (s : list A) (lo : Z) : list A :=
  py_slice s lo (Z.of_nat (length s)).

(** [s.find(c)] for a one-character [c]: the first index, or -1. *)
Fixpoint find_from (c : ascii) (s : list ascii) (i : Z) : Z :=
  match s with
  | [] => (-1)%Z
  | x :: s' => if decide (x = c) then i else find_from c s' (i + 1)%Z
  end.
Definition find (c : ascii) (s : list ascii) : Z := find_from c s 0.

(** [l[i]] for an integer [i], negative ones counting from the end. *)
Definition py_index {A} (l : list A) (i : Z) : result A :=
  let n := Z.of_nat (length l) in
  if (i <? 0)%Z
  then (if (i + n <? 0)%Z then Raise IndexError
        else from_option IndexError (l !! Z.to_nat (i + n)))
  else from_option IndexError (l !! Z.to_nat i).

(** [int(c)] of a one-character string. *)
Definition int_of_char (c : ascii) : result Z :=
  let n := nat_of_ascii c in
  if decide (48 ≤ n ∧ n ≤ 57) then Ok (Z.of_nat (n - 48)) else Raise ValueError.

(** [set(s)], the characters of a string. *)
Definition chars (s : list ascii) : gset ascii := list_to_set s.


(** *** The parser *)

Abbreviation len := Datatypes.length (only parsing).

Inductive scan_result :=
| Split (index : nat)
| NoSplit (paren_level : Z).

(** The [while index < len(regex)] loop that looks for a [|] outside
    parentheses. *)
Fixpoint scan (regex : list ascii) (index : nat) (paren_level : Z) : scan_result :=
  match regex with
  | [] => NoSplit paren_level
  | c :: rest =>
      let paren_level :=
        if decide (c = "("%char) then (paren_level + 1)%Z
        else if decide (c = ")"%char) then (paren_level - 1)%Z
        else paren_level in
      if decide (c = "|"%char ∧ paren_level = 0%Z) then Split index
      else scan rest (S index) paren_level
  end.

(** A [for x in l:] loop whose body yields chains. *)
Fixpoint for_each {A} (l : list A) (body : A → heap → list chain * heap)
    (h : heap) : list chain * heap :=
  match l with
  | [] => ([], h)
  | x :: l' =>
      let '(ys, h) := body x h in
      let '(zs, h) := for_each l' body h in
      (ys ++ zs, h)
  end.

(** [self._copy_chain(chain1, repeat=k) + self._copy_chain(chain2)] *)
Definition copy_concat (chain1 : chain) (k : nat) (chain2 : chain) (h : heap)
  : chain * heap :=
  let '(a, h) := _copy_chain chain1 k h in
  let '(b, h) := _copy_chain chain2 1 h in
  (a ++ b, h).

(** [[self._copy_chain(chain1)] + self._copy_chain(chain2)] *)
Definition copy_group (chain1 chain2 : chain) (h : heap) : chain * heap :=
  let '(a, h) := _copy_chain chain1 1 h in
  let '(b, h) := _copy_chain chain2 1 h in
  (IList a :: b, h).

Section Parser.
(** [self.length] and [self.alphabet] *)
Variables (length : nat) (alphabet : gset ascii).

(** The three quantifier loops and the loop of an unquantified item, over
    the chains [rest] of the remainder of the regex. *)
Definition star (chains rest : list chain) : heap → list chain * heap :=
  for_each rest (λ chain2,
    for_each (seq 0 (length + 1)) (λ repeatnum,
      for_each chains (λ chain1 h,
        let '(c, h) := copy_concat chain1 repeatnum chain2 h in ([c], h)))).

Definition plus (chains rest : list chain) : heap → list chain * heap :=
  for_each rest (λ chain2,
    for_each (seq 1 length) (λ repeatnum,
      for_each chains (λ chain1 h,
        let '(c, h) := copy_concat chain1 repeatnum chain2 h in ([c], h)))).

Definition question (chains rest : list chain) : heap → list chain * heap :=
  for_each rest (λ chain2,
    for_each chains (λ chain1 h,
      let '(c0, h) := _copy_chain chain2 1 h in
      let '(c1, h) := copy_concat chain1 1 chain2 h in
      ([c0; c1], h))).

Definition unquantified (group : bool) (chains rest : list chain)
  : heap → list chain * heap :=
  for_each rest (λ chain2,
    for_each chains (λ chain1 h,
      let '(c, h) := (if group then copy_group chain1 chain2 h
                      else copy_concat chain1 1 chain2 h) in
      ([c], h))).

(** [NFSM._parse_regex_part]: the chains the generator yields, in order.
    [fuel] bounds the depth of the recursion; the calls of a regex [r] nest
    at most [len r + 1] deep unless a call recurses on its own argument, as
    Python does without end (until [RecursionError]) on a [[] with no []]. *)
Fixpoint _parse_regex_part (fuel : nat) (regex : list ascii) (h : heap)
  : result (list chain * heap) :=
  match fuel with
  | 0 => Raise RecursionError
  | S fuel =>
    match regex with
    | [] => Ok ([[]], h)
    | c :: _ =>
      match scan regex 0 0 with
      | Split index =>
          try (l, h) ← _parse_regex_part fuel (take index regex) h;
          try (r, h) ← _parse_regex_part fuel (drop (S index) regex) h;
          Ok (l ++ r, h)
      | NoSplit paren_level =>
          if decide (paren_level ≠ 0%Z) then Raise ValueError else
          try (chains, end_index, group, h) ←
            (if decide (c ∈ alphabet) then
               let '(a, h) := alloc {[c]} h in
               Ok ([[ISet a]], 0%Z, false, h)
             else if decide (c = "."%char) then
               let '(a, h) := alloc alphabet h in
               Ok ([[ISet a]], 0%Z, false, h)
             else if decide (c = "["%char) then
               let end_index := find "]" regex in
               try c1 ← from_option IndexError (regex !! 1);
               let '(a, h) :=
                 (if decide (c1 = "^"%char)
                  then alloc (alphabet ∖ chars (py_slice regex 2 end_index)) h
                  else alloc (chars (py_slice regex 1 end_index)) h) in
               Ok ([[ISet a]], end_index, false, h)
             else if decide (c = "("%char) then
               let end_index := find ")" regex in
               try (chains, h) ← _parse_regex_part fuel (py_slice regex 1 end_index) h;
               Ok (chains, end_index, true, h)
             else if decide (c = "\"%char) then
               try c1 ← from_option IndexError (regex !! 1);
               try d ← int_of_char c1;
               Ok ([[IInt (d - 1)]], 1%Z, false, h)
             else Raise ValueError);
          let quantifier :=
            if (end_index + 1 <? Z.of_nat (len regex))%Z
            then regex !! Z.to_nat (end_index + 1) else None in
          if decide (quantifier = Some "*"%char) then
            try (rest, h) ← _parse_regex_part fuel (py_from regex (end_index + 2)) h;
            Ok (star chains rest h)
          else if decide (quantifier = Some "+"%char) then
            try (rest, h) ← _parse_regex_part fuel (py_from regex (end_index + 2)) h;
            Ok (plus chains rest h)
          else if decide (quantifier = Some "?"%char) then
            try (rest, h) ← _parse_regex_part fuel (py_from regex (end_index + 2)) h;
            Ok (question chains rest h)
          else
            try (rest, h) ← _parse_regex_part fuel (py_from regex (end_index + 1)) h;
            Ok (unquantified group chains rest h)
      end
    end
  end.
End Parser.

(** *** The NFSM object *)

Record t := mk {
  chains : list chain;
  length : nat;
  alphabet : gset ascii;
}.

(** The first loop of [__init__] over a chain: [flattened] and [groups]. *)
Fixpoint flatten (c : chain) : chain * list chain :=
  match c with
  | [] => ([], [])
  | IList l :: c' => let '(flattened, groups) := flatten c' in (l ++ flattened, l :: groups)
  | x :: c' => let '(flattened, groups) := flatten c' in (x :: flattened, groups)
  end.

(** The second loop: [dereferenced]. *)
Fixpoint dereference (groups : list chain) (flattened : chain) : result chain :=
  match flattened with
  | [] => Ok []
  | IInt k :: r =>
      try g ← py_index groups k;
      try d ← dereference groups r;
      Ok (g ++ d)
  | x :: r => try d ← dereference groups r; Ok (x :: d)
  end.

Definition flatten_dereference (c : chain) : result chain :=
  let '(flattened, groups) := flatten c in dereference groups flattened.

(** [NFSM.__init__] *)
Definition init (regex : string) (length : nat) (alphabet : gset ascii) (h : heap)
  : result (t * heap) :=
  let r := list_ascii_of_string regex in
  try (unflattened_chains, h) ← _parse_regex_part length alphabet (S (len r)) r h;
  try chains ← rmapM flatten_dereference unflattened_chains;
  Ok (mk (filter (λ c, len c = length) chains) length alphabet, h).

(** The loop of [constrain_slot]: the new list of chains. *)
Fixpoint constrain_chains (cs : list chain) (index : nat) (charset : gset ascii)
    (h : heap) : result (list chain * heap) :=
  match cs with
  | [] => Ok ([], h)
  | c :: cs' =>
      try x ← from_option IndexError (c !! index);
      match x with
      | ISet a =>
          let h := put a (get h a ∩ charset) h in
          let keep := bool_decide (get h a ≠ ∅) in
          try (newchains, h) ← constrain_chains cs' index charset h;
          Ok (if keep then c :: newchains else newchains, h)
      | _ => Raise TypeError
      end
  end.

(** [NFSM.constrain_slot] *)
Definition constrain_slot (index : nat) (charset : gset ascii) (n : t) (h : heap)
  : result (t * heap) :=
  try (newchains, h) ← constrain_chains (chains n) index charset h;
  Ok (mk newchains (length n) (alphabet n), h).

(** [NFSM.peek_slot] *)
Fixpoint peek_chains (cs : list chain) (index : nat) (h : heap)
    (candidates : gset ascii) : result (gset ascii) :=
  match cs with
  | [] => Ok candidates
  | c :: cs' =>
      try x ← from_option IndexError (c !! index);
      match x with
      | ISet a => peek_chains cs' index h (candidates ∪ get h a)
      | _ => Raise TypeError
      end
  end.

Definition peek_slot (index : nat) (n : t) (h : heap) : result (gset ascii) :=
  peek_chains (chains n) index h ∅.

(** The inner loop of [copy]: [ids] maps the [id()] of an old set to its
    copy.  Only a set can be copied by [set(oldset)]: an integer is not
    iterable, and a list (which reaches a chain only from a group inside a
    group, which the parser rejects) holds unhashable sets. *)
Fixpoint copy_chain (c : chain) (ids : gmap N N) (h : heap) : result (chain * heap) :=
  match c with
  | [] => Ok ([], h)
  | ISet a :: c' =>
      match ids !! a with
      | Some b =>
          try (newchain, h) ← copy_chain c' ids h;
          Ok (ISet b :: newchain, h)
      | None =>
          let '(b, h) := alloc (get h a) h in
          try (newchain, h) ← copy_chain c' (<[a := b]> ids) h;
          Ok (ISet b :: newchain, h)
      end
  | _ :: _ => Raise TypeError
  end.

Fixpoint copy_chains (cs : list chain) (h : heap) : result (list chain * heap) :=
  match cs with
  | [] => Ok ([], h)
  | c :: cs' =>
      try (newchain, h) ← copy_chain c ∅ h;
      try (newchains, h) ← copy_chains cs' h;
      Ok (newchain :: newchains, h)
  end.

(** [NFSM.copy] *)
Definition copy (n : t) (h : heap) : result (t * heap) :=
  try (newobj, h) ← init ".*" (length n) (alphabet n) h;
  try (newchains, h) ← copy_chains (chains n) h;
  Ok (mk newchains (length newobj) (alphabet newobj), h).

(** The loop of [match] over [enumerate(matchstr)]. *)
Fixpoint constrain_all (i : nat) (matchstr : list ascii) (n : t) (h : heap)
  : result (t * heap) :=
  match matchstr with
  | [] => Ok (n, h)
  | c :: s' =>
      try (n, h) ← constrain_slot i {[c]} n h;
      constrain_all (S i) s' n h
  end.

(** [NFSM.match] *)
Definition match_ (matchstr : string) (n : t) (h : heap) : result (bool * heap) :=
  let s := list_ascii_of_string matchstr in
  if decide (len s ≠ length n) then Ok (false, h) else
  try (newregex, h) ← copy n h;
  try (newregex, h) ← constrain_all 0 s newregex h;
  Ok (bool_decide (chains newregex ≠ []), h).

End NFSM.


(** ** regexcrossword.py *)

Module Regexcrossword.


(** [string.ascii_uppercase] *)
Definition ascii_uppercase : string := "ABCDEFGHIJKLMNOPQRSTUVWXYZ".

Definition uppercase : gset ascii := NFSM.chars (list_ascii_of_string ascii_uppercase).

(** The grid of [main]: the value of a cell is a set object of the store. *)
Abbreviation grid := (@HexGrid.t NFSM.heap N).


(** An entry of [regexes]: the regex, its NFSM and the cells of its line. *)
Definition binding : Type := string * NFSM.t * list N.



(** Step 1 for one regex: [for i, cell in enumerate(cells): r.constrain_slot(i, cell)]. *)
Fixpoint constrain_cells (i : nat) (cells : list N) (r : NFSM.t) (h : NFSM.heap)
  : result (NFSM.t * NFSM.heap) :=
  match cells with
  | [] => Ok (r, h)
  | cell :: cells' =>
      try (r, h) ← NFSM.constrain_slot i (NFSM.get h cell) r h;
      constrain_cells (S i) cells' r h
  end.

Fixpoint step1 (regexes : list binding) (h : NFSM.heap)
  : result (list binding * NFSM.heap) :=
  match regexes with
  | [] => Ok ([], h)
  | (regexstr, r, cells) :: regexes' =>
      try (r, h) ← constrain_cells 0 cells r h;
      try (regexes', h) ← step1 regexes' h;
      Ok ((regexstr, r, cells) :: regexes', h)
  end.

(** Step 2 for one regex; [finished] is the flag of the loop. *)
Fixpoint narrow_cells (i : nat) (cells : list N) (r : NFSM.t) (finished : bool)
    (h : NFSM.heap) : result (bool * NFSM.heap) :=
  match cells with
  | [] => Ok (finished, h)
  | cell :: cells' =>
      let '(oldcell, h) := NFSM.alloc (NFSM.get h cell) h in
      try candidates ← NFSM.peek_slot i r h;
      let h := NFSM.put cell (NFSM.get h cell ∩ candidates) h in
      let finished :=
        if decide (NFSM.get h oldcell ≠ NFSM.get h cell) then false else finished in
      narrow_cells (S i) cells' r finished h
  end.

Fixpoint step2 (regexes : list binding) (finished : bool) (h : NFSM.heap)
  : result (bool * NFSM.heap) :=
  match regexes with
  | [] => Ok (finished, h)
  | (regexstr, r, cells) :: regexes' =>
      try (finished, h) ← narrow_cells 0 cells r finished h;
      step2 regexes' finished h
  end.

(** One pass of the body of [while not finished]. *)
Definition round (regexes : list binding) (h : NFSM.heap)
  : result (bool * list binding * NFSM.heap) :=
  try (regexes, h) ← step1 regexes h;
  try (finished, h) ← step2 regexes true h;
  Ok (finished, regexes, h).




End Regexcrossword.


(** * Properties *)

(** [f <$> r] on results. *)
Global Instance result_fmap : FMap result := λ A B f r,
  match r with Ok a => Ok (f a) | Raise e => Raise e | Diverge => Diverge end.


(** ** The hexagonal grid *)

Lemma rmapM_lookup {A B} (f : A → result B) (l : list A) (ys : list B) i x :
  rmapM f l = Ok ys → l !! i = Some x → ∃ y, ys !! i = Some y ∧ f x = Ok y.
Proof.
  revert ys i. induction l as [|a l IH]; intros ys i Hm Hi; [done|].
  simpl in Hm. destruct (f a) as [y| |] eqn:Hy; try done. simpl in Hm.
  destruct (rmapM f l) as [ys'| |] eqn:Hys; try done. simpl in Hm.
  injection Hm as <-. destruct i as [|i]; simpl in *.
  - injection Hi as <-. eauto.
  - eauto.
Qed.

Lemma rmapM_ext_ok {A B C} (f : A → result B) (f' : A → result C) (k : B → C)
    (l : list A) (ys : list B) :
  (∀ x y, f x = Ok y → f' x = Ok (k y)) →
  rmapM f l = Ok ys → rmapM f' l = Ok (k <$> ys).
Proof.
  intros Hf. revert ys. induction l as [|a l IH]; intros ys Hm; simpl in *.
  - by injection Hm as <-.
  - destruct (f a) as [y| |] eqn:Hy; try done. simpl in Hm.
    destruct (rmapM f l) as [ys'| |] eqn:Hys; try done. simpl in Hm.
    injection Hm as <-. rewrite (Hf _ _ Hy). simpl. by rewrite (IH _ eq_refl).
Qed.

Module HexGridFacts.
Import HexGrid.

(** The lengths of the lines of a grid of side 7. *)
Definition hex_lengths : list nat := [7; 8; 9; 10; 11; 12; 13; 12; 11; 10; 9; 8; 7].

(** [list] as the value generator of the tests: each call returns a new
    object, here named by the number of the call. *)
Definition fresh_list (n : nat) : nat * nat := (n, S n).

(** The lines of the three families and the rows from the top, by cell. *)
Record survey_of := Survey {
  s_rows : result (list (list nat));
  s_diags : result (list (list nat));
  s_antidiags : result (list (list nat));
  s_top : list (option (list nat));
  s_cells : nat;
}.

Definition survey {G V} (g : @t G V) : survey_of :=
  Survey (rmapM (cells_l2r g) (seq 0 13)) (rmapM (cells_ur2ll g) (seq 0 13))
         (rmapM (cells_lr2ul g) (seq 0 13)) (row_from_top g <$> seq 0 13)
         (length (cells g)).

Definition survey7 :=
  Eval vm_compute in
    match init fresh_list 7 0 with
    | Ok g => survey g
    | _ => Survey (Ok []) (Ok []) (Ok []) [] 0
    end.

Definition rows7 : list (list nat) :=
  Eval vm_compute in match s_rows survey7 with Ok l => l | _ => [] end.
Definition diags7 : list (list nat) :=
  Eval vm_compute in match s_diags survey7 with Ok l => l | _ => [] end.
Definition antidiags7 : list (list nat) :=
  Eval vm_compute in match s_antidiags survey7 with Ok l => l | _ => [] end.

(** The cells of the lines do not depend on the values of the cells. *)
Lemma survey_side7 {G V} (gen : G → V * G) (s : G) :
  ∃ g, init gen 7 s = Ok g ∧
       survey g = Survey (Ok rows7) (Ok diags7) (Ok antidiags7) (Some <$> reverse rows7) 127.
Proof. eexists. split; vm_compute; reflexivity. Qed.

Lemma traverse_values {G V} (g : @t G V) edges link i l :
  line edges link g i = Ok l →
  (try l ← line edges link g i; Ok (values g l)) = Ok (values g l).
Proof. by intros ->. Qed.

Lemma values_length {G V} (g : @t G V) l :
  Forall (λ c, c < length (cells g)) l → length (values g l) = length l.
Proof.
  induction 1 as [|c l Hc _ IH]; [done|].
  unfold values in *. simpl.
  destruct (lookup_lt_is_Some_2 _ _ Hc) as [x ->]. simpl. by f_equal.
Qed.

Lemma values_lengths {G V} (g : @t G V) (ls : list (list nat)) :
  Forall (Forall (λ c, c < length (cells g))) ls →
  length <$> (values g <$> ls) = length <$> ls.
Proof.
  induction 1 as [|l ls Hl _ IH]; [done|].
  simpl. rewrite values_length by done. by f_equal.
Qed.

(** What the claim on the three families asks of one family: thirteen lines
    [ls] (by cell) that the generator yields the values of, of the lengths
    of the pattern, over 127 distinct cells in all. *)
Definition family {G V} (g : @t G V) (cells_of : @t G V → nat → result (list nat))
    (traverse : @t G V → nat → result (list V)) (ls : list (list nat)) : Prop :=
  rmapM (cells_of g) (seq 0 13) = Ok ls ∧
  rmapM (traverse g) (seq 0 13) = Ok (values g <$> ls) ∧
  length <$> (values g <$> ls) = hex_lengths ∧
  NoDup (concat ls) ∧
  length (concat ls) = 127.

Lemma family_by_compute {G V} (g : @t G V) edges link (ls : list (list nat)) :
  length (cells g) = 127 →
  rmapM (line edges link g) (seq 0 13) = Ok ls →
  bool_decide (Forall (Forall (λ c, c < 127)) ls) = true →
  length <$> ls = hex_lengths →
  bool_decide (NoDup (concat ls)) = true →
  length (concat ls) = 127 →
  family g (line edges link) (λ g i, try l ← line edges link g i; Ok (values g l)) ls.
Proof.
  intros Hn Hls Hlt%bool_decide_eq_true_1 Hlen Hnd%bool_decide_eq_true_1 Hc.
  split; [done|]. split; [|split; [|done]].
  - eapply rmapM_ext_ok; [|done]. intros i l Hl. by rewrite Hl.
  - rewrite values_lengths; [done|]. by rewrite Hn.
Qed.

(** C9. In a grid of side 7 each of the three families of traversals has
    lines of lengths 7, 8, ..., 13, ..., 8, 7, visits 127 distinct cells,
    and the three families visit the same set of cells. *)
Theorem traversal_families_side7 {G V} (gen : G → V * G) (s : G) :
  ∃ g rows diags antidiags,
    init gen 7 s = Ok g ∧
    family g cells_l2r traverse_l2r rows ∧
    family g cells_ur2ll traverse_ur2ll diags ∧
    family g cells_lr2ul traverse_lr2ul antidiags ∧
    list_to_set (C:=gset nat) (concat rows) = list_to_set (concat diags) ∧
    list_to_set (C:=gset nat) (concat rows) = list_to_set (concat antidiags).
Proof.
  destruct (survey_side7 gen s) as (g & Hg & Hs).
  exists g, rows7, diags7, antidiags7.
  pose proof (f_equal s_rows Hs) as H1. pose proof (f_equal s_diags Hs) as H2.
  pose proof (f_equal s_antidiags Hs) as H3. pose proof (f_equal s_cells Hs) as Hn.
  clear Hs. cbn [survey s_rows s_diags s_antidiags s_cells] in *.
  split; [done|].
  split; [|split; [|split; [|split]]].
  - apply family_by_compute; [exact Hn|exact H1|vm_compute; reflexivity..].
  - apply family_by_compute; [exact Hn|exact H2|vm_compute; reflexivity..].
  - apply family_by_compute; [exact Hn|exact H3|vm_compute; reflexivity..].
  - vm_compute; reflexivity.
  - vm_compute; reflexivity.
Qed.

(** The claim on the order of [leftedges] fails: on the grid of the tests
    the traversal of index 0 yields the cells 120..126, which were created
    last and form the bottom row, while the top row holds the cells 0..6. *)
Lemma leftedges_0_is_not_the_top_row :
  ∃ g, init fresh_list 7 0 = Ok g ∧
       traverse_l2r g 0 = Ok [120; 121; 122; 123; 124; 125; 126] ∧
       values g <$> row_from_top g 0 = Some [0; 1; 2; 3; 4; 5; 6] ∧
       Some <$> cells_l2r g 0 ≠ Ok (row_from_top g 0).
Proof.
  eexists. split; [vm_compute; reflexivity|].
  split; [vm_compute; reflexivity|].
  split; [vm_compute; reflexivity|].
  vm_compute. discriminate.
Qed.

(** C10, amended.  [traverse_l2r(i)] walks row [12 - i] counted from the
    top: [leftedges] is reversed at the end of [__init__], so that its
    index 0 is the bottom row and its index 12 the top row. *)
Theorem traverse_l2r_counts_rows_from_the_bottom {G V} (gen : G → V * G) (s : G) :
  ∃ g, init gen 7 s = Ok g ∧
       Forall (λ i, Some <$> cells_l2r g i = Ok (row_from_top g (12 - i)) ∧
                    Some <$> traverse_l2r g i = Ok (values g <$> row_from_top g (12 - i)))
              (seq 0 13).
Proof.
  destruct (survey_side7 gen s) as (g & Hg & Hs).
  exists g. split; [done|].
  pose proof (f_equal s_rows Hs) as H1. pose proof (f_equal s_top Hs) as H4.
  clear Hs. cbn [survey s_rows s_top] in *.
  apply Forall_forall. intros i Hi.
  assert (seq 0 13 !! i = Some i) as Hii.
  { apply elem_of_seq in Hi. apply lookup_seq. lia. }
  destruct (rmapM_lookup _ _ _ _ _ H1 Hii) as (l & Hl & Hc).
  assert (row_from_top g (12 - i) = Some l) as Hr.
  { assert ((row_from_top g <$> seq 0 13) !! (12 - i) = Some (row_from_top g (12 - i))) as Hx.
    { rewrite list_lookup_fmap, lookup_seq_lt; [done|]. apply elem_of_seq in Hi. lia. }
    rewrite H4 in Hx. rewrite list_lookup_fmap, reverse_lookup in Hx.
    2:{ apply elem_of_seq in Hi. vm_compute length. lia. }
    replace (length rows7 - S (12 - i)) with i in Hx.
    2:{ apply elem_of_seq in Hi. vm_compute length. lia. }
    rewrite Hl in Hx. simpl in Hx. congruence. }
  unfold traverse_l2r. rewrite Hc, Hr. clear. split; reflexivity.
Qed.

End HexGridFacts.

(** ** The NFSM *)

Module NFSMFacts.
Import NFSM.

(** *** The store *)

Lemma get_put_eq a s h : get (put a s h) a = s.
Proof. unfold get, put. simpl. by rewrite lookup_insert_eq. Qed.

Lemma get_put_ne a b s h : a ≠ b → get (put a s h) b = get h b.
Proof. intros. unfold get, put. simpl. by rewrite lookup_insert_ne. Qed.

Lemma get_put a b s h : get (put a s h) b = if decide (a = b) then s else get h b.
Proof. case_decide; subst; [apply get_put_eq|by apply get_put_ne]. Qed.

Lemma get_alloc_old s h b : b ≠ next h → get (alloc s h).2 b = get h b.
Proof. intros. unfold get, alloc. simpl. by rewrite lookup_insert_ne. Qed.

Lemma get_alloc_new s h : get (alloc s h).2 (alloc s h).1 = s.
Proof. unfold get, alloc. simpl. by rewrite lookup_insert_eq. Qed.

(** *** Slots *)

(** The set object at position [i] of a chain. *)
Definition slot (c : chain) (i : nat) : option N :=
  match c !! i with Some (ISet a) => Some a | _ => None end.

(** The letters of slot [i] of a chain. *)
Definition slot_value (h : heap) (c : chain) (i : nat) : gset ascii :=
  match slot c i with Some a => get h a | None => ∅ end.

(** The set objects that are slot [i] of some chain of a list. *)
Definition slots_at (cs : list chain) (i : nat) : list N := omap (λ c, slot c i) cs.

(** What the loop of [constrain_slot] does to chains that all have a set at
    position [index]: it keeps, in order, the chains whose slot met
    [charset], and has intersected with [charset] every set object that
    is the slot of a chain, kept or not. *)
Lemma constrain_chains_spec cs index charset h :
  (∀ c, c ∈ cs → is_Some (slot c index)) →
  ∃ h', constrain_chains cs index charset h
        = Ok (filter (λ c, slot_value h c index ∩ charset ≠ ∅) cs, h') ∧
        next h' = next h ∧
        ∀ a, get h' a = if decide (a ∈ slots_at cs index)
                        then get h a ∩ charset else get h a.
Proof.
  revert h. induction cs as [|c cs IH]; intros h Hs.
  { exists h. split; [done|]. split; [done|]. intros a.
    case_decide as Ha; [|done]. by apply elem_of_nil in Ha. }
  destruct (Hs c) as [a0 Ha0]; [by left|].
  destruct (IH (put a0 (get h a0 ∩ charset) h)) as (h' & Hc & Hn & Hg).
  { intros d Hd. apply Hs. by right. }
  exists h'. split; [|split; [done|]].
  - unfold slot in Ha0.
    destruct (c !! index) as [[a| |]|] eqn:Hi; simplify_eq.
    cbn [constrain_chains]. rewrite Hi. cbn [from_option rbind].
    rewrite Hc. cbn [rbind]. rewrite get_put_eq. f_equal. f_equal.
    assert (slot_value h c index = get h a0) as Hv.
    { unfold slot_value, slot. by rewrite Hi. }
    rewrite filter_cons, Hv.
    assert (filter (λ c0, slot_value (put a0 (get h a0 ∩ charset) h) c0 index ∩ charset ≠ ∅) cs
            = filter (λ c0, slot_value h c0 index ∩ charset ≠ ∅) cs) as ->.
    { apply list_filter_iff. intros d. unfold slot_value.
      destruct (slot d index) as [b|]; [|done]. rewrite get_put.
      case_decide; subst; set_solver. }
    case_bool_decide as H1; case_decide as H2; try done; exfalso; tauto.
  - intros a. rewrite Hg. unfold slots_at. simpl. rewrite Ha0.
    rewrite get_put. fold (slots_at cs index).
    destruct (decide (a0 = a)) as [->|Hne].
    + rewrite (decide_True (P:=a ∈ a :: _)) by left.
      case_decide; set_solver.
    + case_decide as H1; case_decide as H2; try done.
      * exfalso. apply H2. by right.
      * exfalso. apply elem_of_cons in H2 as [->|]; done.
Qed.


(** The loop returns only if every chain has a set at position [index]. *)
Lemma constrain_chains_ok cs index charset h r :
  constrain_chains cs index charset h = Ok r →
  ∀ c, c ∈ cs → is_Some (slot c index).
Proof.
  revert h r. induction cs as [|c cs IH]; intros h r Hr d Hd.
  { by apply elem_of_nil in Hd. }
  cbn [constrain_chains] in Hr. unfold slot.
  destruct (c !! index) as [[a| |]|] eqn:Hi; try done.
  cbn [from_option rbind] in Hr.
  destruct (constrain_chains cs index charset _) as [r'| |] eqn:Hc; try done.
  apply elem_of_cons in Hd as [->|Hd].
  - rewrite Hi. eauto.
  - by eapply IH.
Qed.

(** *** Well-formed NFSMs *)

Definition is_set (x : item) : Prop := ∃ a, x = ISet a.

(** The chains of the data model: lists of sets of the length of the NFSM. *)
Definition wf (n : t) : Prop :=
  ∀ c, c ∈ chains n → len c = length n ∧ Forall is_set c.

Lemma wf_slot n c i : wf n → c ∈ chains n → i < length n → is_Some (slot c i).
Proof.
  intros Hwf Hc Hi. destruct (Hwf c Hc) as [Hl Hs].
  destruct (lookup_lt_is_Some_2 c i) as [x Hx]; [lia|].
  unfold slot. rewrite Hx.
  rewrite Forall_forall in Hs. destruct (Hs x) as [a ->]; [|eauto].
  by eapply list_elem_of_lookup_2.
Qed.

(** The chains [constrain_slot] keeps. *)
Definition survivors (h : heap) (index : nat) (charset : gset ascii) (cs : list chain)
  : list chain :=
  filter (λ c, slot_value h c index ∩ charset ≠ ∅) cs.

Lemma constrain_slot_effect index charset n h :
  wf n → index < length n →
  ∃ h', constrain_slot index charset n h
        = Ok (mk (survivors h index charset (chains n)) (length n) (alphabet n), h') ∧
        next h' = next h ∧
        ∀ a, get h' a = if decide (a ∈ slots_at (chains n) index)
                        then get h a ∩ charset else get h a.
Proof.
  intros Hwf Hi.
  destruct (constrain_chains_spec (chains n) index charset h) as (h' & Hc & Hn & Hg).
  { intros c Hc. by eapply wf_slot. }
  exists h'. split; [|done]. unfold constrain_slot. by rewrite Hc.
Qed.

Lemma elem_of_slots_at cs i a : a ∈ slots_at cs i ↔ ∃ c, c ∈ cs ∧ slot c i = Some a.
Proof. unfold slots_at. rewrite list_elem_of_omap. naive_solver. Qed.

(** C2. [constrain_slot(i, S)] on an NFSM with [i < n.length]: the new
    chain list is made of the prior chains whose slot [i] meets [S], in
    their order; the set object at slot [i] of every chain now holds its
    intersection with [S], every other set object is as before; hence a
    position of a kept chain that holds the same object as its slot [i]
    reads the intersection too, and no kept chain has an empty slot [i]. *)
Theorem constrain_slot_spec index charset n h :
  wf n → index < length n →
  ∃ n' h',
    constrain_slot index charset n h = Ok (n', h') ∧
    chains n' = filter (λ c, slot_value h c index ∩ charset ≠ ∅) (chains n) ∧
    length n' = length n ∧ alphabet n' = alphabet n ∧
    (∀ a, get h' a = if decide (a ∈ slots_at (chains n) index)
                     then get h a ∩ charset else get h a) ∧
    (∀ c j, c ∈ chains n' → slot c j = slot c index →
            slot_value h' c j = slot_value h c index ∩ charset) ∧
    (∀ c, c ∈ chains n' → slot_value h' c index ≠ ∅).
Proof.
  intros Hwf Hi.
  destruct (constrain_slot_effect index charset n h Hwf Hi) as (h' & Hc & Hn & Hg).
  eexists _, h'. split; [exact Hc|]. cbn [chains length alphabet].
  split; [done|]. split; [done|]. split; [done|]. split; [exact Hg|].
  assert (∀ c j, c ∈ survivors h index charset (chains n) → slot c j = slot c index →
                 slot_value h' c j = slot_value h c index ∩ charset) as Hal.
  { intros c j [Hne Hc']%list_elem_of_filter Hj.
    destruct (wf_slot n c index Hwf Hc' Hi) as [a Ha].
    unfold slot_value. rewrite Hj, Ha, Hg.
    rewrite decide_True; [done|]. apply elem_of_slots_at. eauto. }
  split; [exact Hal|].
  intros c Hc'. rewrite (Hal c index Hc' eq_refl).
  by apply list_elem_of_filter in Hc' as [? _].
Qed.

End NFSMFacts.

(** ** Allocation: what the parser and the copies leave in the store *)

Module Alloc.
Import NFSM NFSMFacts.
Local Open Scope N_scope.

(** [h'] is [h] after some allocations: the objects of [h] are as they were. *)
Definition extends (h h' : heap) : Prop :=
  next h ≤ next h' ∧ ∀ a, a < next h → get h' a = get h a.

Lemma extends_refl h : extends h h.
Proof. split; [lia|done]. Qed.

Lemma extends_trans h1 h2 h3 : extends h1 h2 → extends h2 h3 → extends h1 h3.
Proof.
  intros [H1 G1] [H2 G2]. split; [lia|].
  intros a Ha. rewrite G2 by lia. by apply G1.
Qed.

Lemma extends_alloc s h : extends h (alloc s h).2.
Proof.
  split; [simpl; lia|]. intros a Ha. apply get_alloc_old. lia.
Qed.

(** The addresses of [l] were allocated between [h] and [h']. *)
Definition fresh (h h' : heap) (l : list N) : Prop :=
  Forall (λ a, next h ≤ a < next h') l.

Lemma fresh_mono h0 h h' h1 l :
  next h0 ≤ next h → next h' ≤ next h1 → fresh h h' l → fresh h0 h1 l.
Proof.
  intros H1 H2 H. eapply Forall_impl; [exact H|]. intros a. simpl. lia.
Qed.

Lemma fresh_app h h' l1 l2 : fresh h h' l1 → fresh h h' l2 → fresh h h' (l1 ++ l2).
Proof. apply Forall_app_2. Qed.

(** Induction on items, through the lists they nest. *)
Lemma item_ind' (P : item → Prop) :
  (∀ a, P (ISet a)) → (∀ k, P (IInt k)) → (∀ l, Forall P l → P (IList l)) →
  ∀ x, P x.
Proof.
  intros Hs Hi Hl. fix IH 1. intros [a|k|l]; [apply Hs|apply Hi|].
  apply Hl. induction l as [|y l IHl]; constructor; [apply IH|apply IHl].
Qed.

Lemma item_addrs_list l : item_addrs (IList l) = l ≫= item_addrs.
Proof. induction l as [|y l IH]; [done|]. simpl in *. by rewrite IH. Qed.

Lemma chain_addrs_cons x c : chain_addrs (x :: c) = item_addrs x ++ chain_addrs c.
Proof. done. Qed.

Lemma chain_addrs_app c d : chain_addrs (c ++ d) = chain_addrs c ++ chain_addrs d.
Proof. unfold chain_addrs. by rewrite bind_app. Qed.

(** The list part of [deepcopy_memo]. *)
Fixpoint deepcopy_list (l : list item) (memo : gmap N N) (h : heap)
  : list item * gmap N N * heap :=
  match l with
  | [] => ([], memo, h)
  | y :: l' =>
      let '(y', memo, h) := deepcopy_memo y memo h in
      let '(l'', memo, h) := deepcopy_list l' memo h in
      (y' :: l'', memo, h)
  end.

Lemma deepcopy_go l : ∀ memo h,
  (fix go (l : list item) (memo : gmap N N) (h : heap)
     : list item * gmap N N * heap :=
     match l with
     | [] => ([], memo, h)
     | y :: l' =>
         let '(y', memo, h) := deepcopy_memo y memo h in
         let '(l'', memo, h) := go l' memo h in
         (y' :: l'', memo, h)
     end) l memo h = deepcopy_list l memo h.
Proof.
  induction l as [|y l IH]; intros memo h; [done|].
  cbn [deepcopy_list]. destruct (deepcopy_memo y memo h) as [[y' memo1] h1].
  by rewrite IH.
Qed.

Lemma deepcopy_memo_list l memo h :
  deepcopy_memo (IList l) memo h =
  let '(l', memo, h) := deepcopy_list l memo h in (IList l', memo, h).
Proof. cbn [deepcopy_memo]. by rewrite deepcopy_go. Qed.

(** The copies of the memo lie in [[lo, next h)]. *)
Definition memo_in (lo : N) (memo : gmap N N) (h : heap) : Prop :=
  ∀ a b, memo !! a = Some b → lo ≤ b < next h.

Lemma deepcopy_memo_spec x : ∀ lo memo h y memo' h',
  deepcopy_memo x memo h = (y, memo', h') →
  lo ≤ next h → memo_in lo memo h →
  extends h h' ∧ memo_in lo memo' h' ∧ Forall (λ b, lo ≤ b < next h') (item_addrs y).
Proof.
  induction x as [a|k|l IH] using item_ind'; intros lo memo h y memo' h' Hd Hlo Hm.
  - cbn [deepcopy_memo] in Hd. destruct (memo !! a) as [b|] eqn:Ha.
    + simplify_eq. split; [apply extends_refl|]. split; [done|].
      repeat constructor; by eapply Hm.
    + simpl in Hd. simplify_eq. split; [apply (extends_alloc _ h)|].
      split.
      * intros a' b' Hab. simpl. destruct (decide (a = a')) as [->|Hne].
        -- rewrite lookup_insert_eq in Hab. simplify_eq. lia.
        -- rewrite lookup_insert_ne in Hab by done. apply Hm in Hab. lia.
      * repeat constructor; simpl; lia.
  - cbn [deepcopy_memo] in Hd. simplify_eq.
    split; [apply extends_refl|]. split; [done|]. constructor.
  - rewrite deepcopy_memo_list in Hd.
    destruct (deepcopy_list l memo h) as [[l' memo1] h1] eqn:Hl. simplify_eq.
    rewrite item_addrs_list.
    revert lo memo h l' memo' h' Hl Hlo Hm.
    induction IH as [|x l Hx _ IHl]; intros lo memo h l' memo' h' Hl Hlo Hm.
    + cbn in Hl. simplify_eq. split; [apply extends_refl|]. split; [done|]. constructor.
    + cbn [deepcopy_list] in Hl.
      destruct (deepcopy_memo x memo h) as [[y1 memo1] h1] eqn:H1.
      destruct (deepcopy_list l memo1 h1) as [[l1 memo2] h2] eqn:H2. simplify_eq.
      destruct (Hx _ _ _ _ _ _ H1 Hlo Hm) as (E1 & M1 & F1).
      destruct (IHl lo _ _ _ _ _ H2) as (E2 & M2 & F2); [destruct E1; lia|done|].
      split; [by eapply extends_trans|]. split; [done|].
      cbn. apply Forall_app_2; [|done].
      eapply Forall_impl; [exact F1|]. intros b. simpl. destruct E2. lia.
Qed.

Lemma deepcopy_spec x h y h' :
  deepcopy x h = (y, h') → extends h h' ∧ fresh h h' (item_addrs y).
Proof.
  unfold deepcopy. intros Hd.
  destruct (deepcopy_memo x ∅ h) as [[y1 memo1] h1] eqn:H1. simplify_eq.
  destruct (deepcopy_memo_spec x (next h) _ _ _ _ _ H1) as (E & _ & F); [lia|done|].
  done.
Qed.

Lemma copy_items_spec c : ∀ h c' h',
  copy_items c h = (c', h') → extends h h' ∧ fresh h h' (chain_addrs c').
Proof.
  induction c as [|x c IH]; intros h c' h' Hc; cbn [copy_items] in Hc.
  { simplify_eq. split; [apply extends_refl|constructor]. }
  destruct (deepcopy x h) as [y h1] eqn:H1.
  destruct (copy_items c h1) as [ys h2] eqn:H2. simplify_eq.
  destruct (deepcopy_spec _ _ _ _ H1) as [E1 F1].
  destruct (IH _ _ _ H2) as [E2 F2].
  split; [by eapply extends_trans|]. rewrite chain_addrs_cons.
  apply fresh_app.
  - eapply fresh_mono; [| |exact F1]; [lia|apply E2].
  - eapply fresh_mono; [| |exact F2]; [apply E1|lia].
Qed.

Lemma _copy_chain_spec c repeat : ∀ h c' h',
  _copy_chain c repeat h = (c', h') → extends h h' ∧ fresh h h' (chain_addrs c').
Proof.
  induction repeat as [|r IH]; intros h c' h' Hc; cbn [_copy_chain] in Hc.
  { simplify_eq. split; [apply extends_refl|constructor]. }
  destruct (copy_items c h) as [c1 h1] eqn:H1.
  destruct (_copy_chain c r h1) as [c2 h2] eqn:H2. simplify_eq.
  destruct (copy_items_spec _ _ _ _ H1) as [E1 F1].
  destruct (IH _ _ _ H2) as [E2 F2].
  split; [by eapply extends_trans|]. rewrite chain_addrs_app.
  apply fresh_app.
  - eapply fresh_mono; [| |exact F1]; [lia|apply E2].
  - eapply fresh_mono; [| |exact F2]; [apply E1|lia].
Qed.


Lemma copy_concat_spec chain1 k chain2 h c h' :
  copy_concat chain1 k chain2 h = (c, h') → extends h h' ∧ fresh h h' (chain_addrs c).
Proof.
  unfold copy_concat. intros Hc.
  destruct (_copy_chain chain1 k h) as [a h1] eqn:H1.
  destruct (_copy_chain chain2 1 h1) as [b h2] eqn:H2. simplify_eq.
  destruct (_copy_chain_spec _ _ _ _ _ H1) as [E1 F1].
  destruct (_copy_chain_spec _ _ _ _ _ H2) as [E2 F2].
  split; [by eapply extends_trans|]. rewrite chain_addrs_app.
  apply fresh_app.
  - eapply fresh_mono; [| |exact F1]; [lia|apply E2].
  - eapply fresh_mono; [| |exact F2]; [apply E1|lia].
Qed.

Lemma copy_group_spec chain1 chain2 h c h' :
  copy_group chain1 chain2 h = (c, h') → extends h h' ∧ fresh h h' (chain_addrs c).
Proof.
  unfold copy_group. intros Hc.
  destruct (_copy_chain chain1 1 h) as [a h1] eqn:H1.
  destruct (_copy_chain chain2 1 h1) as [b h2] eqn:H2. simplify_eq.
  destruct (_copy_chain_spec _ _ _ _ _ H1) as [E1 F1].
  destruct (_copy_chain_spec _ _ _ _ _ H2) as [E2 F2].
  split; [by eapply extends_trans|].
  rewrite chain_addrs_cons, item_addrs_list. fold (chain_addrs a).
  apply fresh_app.
  - eapply fresh_mono; [| |exact F1]; [lia|apply E2].
  - eapply fresh_mono; [| |exact F2]; [apply E1|lia].
Qed.

(** The chains of a list lie in consecutive intervals of addresses between
    [lo] and [hi], in the order of the list. *)
Inductive layered : N → N → list chain → Prop :=
| layered_nil lo hi : lo ≤ hi → layered lo hi []
| layered_cons lo mid hi c cs :
    lo ≤ mid → Forall (λ a, lo ≤ a < mid) (chain_addrs c) →
    layered mid hi cs → layered lo hi (c :: cs).

Lemma layered_le lo hi cs : layered lo hi cs → lo ≤ hi.
Proof. induction 1; lia. Qed.

Lemma layered_app lo mid hi l r :
  layered lo mid l → layered mid hi r → layered lo hi (l ++ r).
Proof.
  induction 1 as [lo mid Hle|lo m mid c cs Hle Hc Hcs IH]; intros Hr.
  - simpl. destruct Hr as [l0 h0 ?|l0 m h0 c cs ? Hc Hcs].
    + constructor. lia.
    + econstructor; [|eapply Forall_impl; [exact Hc|]|exact Hcs].
      * lia.
      * intros a. simpl. lia.
  - simpl. econstructor; [exact Hle|exact Hc|]. by apply IH.
Qed.

Lemma layered_weaken lo hi lo' hi' cs :
  lo' ≤ lo → hi ≤ hi' → layered lo hi cs → layered lo' hi' cs.
Proof.
  intros H1 H2 Hl.
  replace cs with (([] ++ cs) ++ []) by (by rewrite app_nil_r).
  eapply layered_app; [eapply layered_app; [|exact Hl]|]; by constructor.
Qed.

Lemma layered_singleton h h' c :
  extends h h' → fresh h h' (chain_addrs c) → layered (next h) (next h') [c].
Proof.
  intros [E _] F. econstructor; [exact E|exact F|]. constructor. lia.
Qed.

(** The same for a computation that may raise. *)
Definition yields_ok (f : heap → result (list chain * heap)) : Prop :=
  ∀ h out h', f h = Ok (out, h') → extends h h' ∧ layered (next h) (next h') out.

(** What a body, or a loop, that yields chains does. *)
Definition yields (f : heap → list chain * heap) : Prop :=
  ∀ h out h', f h = (out, h') → extends h h' ∧ layered (next h) (next h') out.

Lemma for_each_yields {A} (l : list A) body :
  (∀ x, yields (body x)) → yields (for_each l body).
Proof.
  intros Hb. induction l as [|x l IH]; intros h out h' Hf; cbn [for_each] in Hf.
  { simplify_eq. split; [apply extends_refl|]. constructor. lia. }
  destruct (body x h) as [ys h1] eqn:H1.
  destruct (for_each l body h1) as [zs h2] eqn:H2. simplify_eq.
  destruct (Hb _ _ _ _ H1) as [E1 L1]. destruct (IH _ _ _ H2) as [E2 L2].
  split; [by eapply extends_trans|]. by eapply layered_app.
Qed.

Lemma star_yields length chains rest : yields (star length chains rest).
Proof.
  unfold star. repeat (apply for_each_yields; intros ?).
  intros h out h' Hf. destruct (copy_concat _ _ _ h) as [c h1] eqn:H1. simplify_eq.
  destruct (copy_concat_spec _ _ _ _ _ _ H1). split; [done|]. by apply layered_singleton.
Qed.

Lemma plus_yields length chains rest : yields (plus length chains rest).
Proof.
  unfold plus. repeat (apply for_each_yields; intros ?).
  intros h out h' Hf. destruct (copy_concat _ _ _ h) as [c h1] eqn:H1. simplify_eq.
  destruct (copy_concat_spec _ _ _ _ _ _ H1). split; [done|]. by apply layered_singleton.
Qed.

Lemma question_yields chains rest : yields (question chains rest).
Proof.
  unfold question. repeat (apply for_each_yields; intros ?).
  intros h out h' Hf.
  destruct (_copy_chain _ 1 h) as [c0 h1] eqn:H1.
  destruct (copy_concat _ _ _ h1) as [c1 h2] eqn:H2. simplify_eq.
  destruct (_copy_chain_spec _ _ _ _ _ H1) as [E1 F1].
  destruct (copy_concat_spec _ _ _ _ _ _ H2) as [E2 F2].
  split; [by eapply extends_trans|].
  eapply (layered_app _ _ _ [c0] [c1]); by apply layered_singleton.
Qed.

Lemma unquantified_yields group chains rest : yields (unquantified group chains rest).
Proof.
  unfold unquantified. repeat (apply for_each_yields; intros ?).
  intros h out h' Hf. destruct group.
  - destruct (copy_group _ _ h) as [c h1] eqn:H1. simplify_eq.
    destruct (copy_group_spec _ _ _ _ _ H1). split; [done|]. by apply layered_singleton.
  - destruct (copy_concat _ _ _ h) as [c h1] eqn:H1. simplify_eq.
    destruct (copy_concat_spec _ _ _ _ _ _ H1). split; [done|]. by apply layered_singleton.
Qed.


Lemma rbind_ok {A B} (m : result A) (f : A → result B) r :
  rbind m f = Ok r → ∃ a, m = Ok a ∧ f a = Ok r.
Proof. destruct m as [a| |]; simpl; [eauto|done..]. Qed.

Lemma from_option_ok {A} e (o : option A) a : from_option e o = Ok a → o = Some a.
Proof. destruct o; simpl; congruence. Qed.

(** The parser only allocates, and the chains it yields lie in consecutive
    intervals of what it has allocated. *)
Lemma parse_yields length alphabet fuel : ∀ regex,
  yields_ok (_parse_regex_part length alphabet fuel regex).
Proof.
  induction fuel as [|fuel IH]; intros regex h out h' Hp; [done|].
  cbn [_parse_regex_part] in Hp.
  destruct regex as [|c regex'].
  { simplify_eq. split; [apply extends_refl|].
    econstructor; [reflexivity|constructor|constructor; lia]. }
  set (regex := c :: regex') in *.
  destruct (scan regex 0 0) as [index|paren_level].
  { apply rbind_ok in Hp as ([l h1] & H1 & Hp).
    apply rbind_ok in Hp as ([r h2] & H2 & Hp). simplify_eq.
    destruct (IH _ _ _ _ H1) as [E1 L1]. destruct (IH _ _ _ _ H2) as [E2 L2].
    split; [by eapply extends_trans|]. by eapply layered_app. }
  case_decide; [done|].
  apply rbind_ok in Hp as ([[[chains end_index] group] h1] & Ha & Hp).
  assert (extends h h1) as E1.
  { clear Hp. unfold alloc in Ha. repeat case_decide.
    - simplify_eq. exact (extends_alloc _ h).
    - simplify_eq. exact (extends_alloc _ h).
    - apply rbind_ok in Ha as (c1 & _ & Ha). case_decide; simplify_eq.
      + exact (extends_alloc _ h).
      + exact (extends_alloc _ h).
    - apply rbind_ok in Ha as ([chains' hg] & Hg & Ha). simplify_eq.
      by destruct (IH _ _ _ _ Hg).
    - apply rbind_ok in Ha as (c1 & _ & Ha).
      apply rbind_ok in Ha as (d & _ & Ha). simplify_eq. apply extends_refl.
    - done. }
  clear Ha. cbv zeta in Hp.
  repeat case_decide;
    apply rbind_ok in Hp as ([rest hr] & Hr & Hp); simplify_eq;
    destruct (IH _ _ _ _ Hr) as [E2 L2].
  - destruct (star_yields _ _ _ _ _ _ Hp) as [E3 L3].
    split; [eauto using extends_trans|].
    eapply layered_weaken; [| |exact L3]; [destruct E1, E2; lia|lia].
  - destruct (plus_yields _ _ _ _ _ _ Hp) as [E3 L3].
    split; [eauto using extends_trans|].
    eapply layered_weaken; [| |exact L3]; [destruct E1, E2; lia|lia].
  - destruct (question_yields _ _ _ _ _ Hp) as [E3 L3].
    split; [eauto using extends_trans|].
    eapply layered_weaken; [| |exact L3]; [destruct E1, E2; lia|lia].
  - destruct (unquantified_yields _ _ _ _ _ _ Hp) as [E3 L3].
    split; [eauto using extends_trans|].
    eapply layered_weaken; [| |exact L3]; [destruct E1, E2; lia|lia].
Qed.

End Alloc.

(** ** Construction *)

Module Construction.
Import NFSM NFSMFacts Alloc.
Local Open Scope N_scope.

Lemma rmapM_Forall2 {A B} (f : A → result B) l ys :
  rmapM f l = Ok ys → Forall2 (λ x y, f x = Ok y) l ys.
Proof.
  revert ys. induction l as [|x l IH]; intros ys Hm; cbn [rmapM] in Hm.
  { simplify_eq. constructor. }
  apply rbind_ok in Hm as (y & Hy & Hm).
  apply rbind_ok in Hm as (ys' & Hys & Hm). simplify_eq.
  constructor; [done|]. by apply IH.
Qed.

Lemma py_index_elem_of {A} (l : list A) k x : py_index l k = Ok x → x ∈ l.
Proof.
  unfold py_index. intros H. repeat case_match; try done;
    apply from_option_ok in H; by eapply list_elem_of_lookup_2.
Qed.

Lemma flatten_addrs c flattened groups a :
  flatten c = (flattened, groups) →
  (a ∈ chain_addrs flattened → a ∈ chain_addrs c) ∧
  (∀ g, g ∈ groups → a ∈ chain_addrs g → a ∈ chain_addrs c).
Proof.
  revert flattened groups. induction c as [|x c IH]; intros flattened groups Hf.
  { cbn in Hf. simplify_eq. split; [done|]. intros g Hg. by apply elem_of_nil in Hg. }
  cbn [flatten] in Hf. destruct (flatten c) as [f' g'] eqn:Hc.
  destruct (IH _ _ eq_refl) as [IH1 IH2].
  rewrite chain_addrs_cons.
  destruct x as [b|k|l]; simplify_eq.
  - rewrite chain_addrs_cons. split.
    + rewrite !elem_of_app. naive_solver.
    + intros g Hg Ha. apply elem_of_app. right. by eapply IH2.
  - rewrite chain_addrs_cons. split.
    + rewrite !elem_of_app. naive_solver.
    + intros g Hg Ha. apply elem_of_app. right. by eapply IH2.
  - rewrite chain_addrs_app, item_addrs_list. fold (chain_addrs l). split.
    + rewrite !elem_of_app. naive_solver.
    + intros g Hg Ha. apply elem_of_app. apply elem_of_cons in Hg as [->|Hg].
      * by left.
      * right. by eapply IH2.
Qed.

Lemma dereference_addrs groups flattened d a :
  dereference groups flattened = Ok d → a ∈ chain_addrs d →
  a ∈ chain_addrs flattened ∨ ∃ g, g ∈ groups ∧ a ∈ chain_addrs g.
Proof.
  revert d. induction flattened as [|x f IH]; intros d Hd Ha.
  { cbn in Hd. simplify_eq. by apply elem_of_nil in Ha. }
  rewrite chain_addrs_cons.
  destruct x as [b|k|l]; cbn [dereference] in Hd.
  - apply rbind_ok in Hd as (d' & Hd' & Hd). simplify_eq.
    rewrite chain_addrs_cons in Ha. rewrite elem_of_app in *.
    destruct Ha as [Ha|Ha]; [by left; left|]. destruct (IH _ Hd' Ha); eauto.
  - apply rbind_ok in Hd as (g & Hg & Hd).
    apply rbind_ok in Hd as (d' & Hd' & Hd). simplify_eq.
    rewrite chain_addrs_app in Ha. rewrite elem_of_app in *.
    destruct Ha as [Ha|Ha].
    + right. exists g. split; [|done]. by eapply py_index_elem_of.
    + destruct (IH _ Hd' Ha); eauto.
  - apply rbind_ok in Hd as (d' & Hd' & Hd). simplify_eq.
    rewrite chain_addrs_cons in Ha. rewrite elem_of_app in *.
    destruct Ha as [Ha|Ha]; [by left; left|]. destruct (IH _ Hd' Ha); eauto.
Qed.

Lemma flatten_dereference_addrs c d a :
  flatten_dereference c = Ok d → a ∈ chain_addrs d → a ∈ chain_addrs c.
Proof.
  unfold flatten_dereference. destruct (flatten c) as [f g] eqn:Hf. intros Hd Ha.
  destruct (flatten_addrs c f g a Hf) as [H1 H2].
  destruct (dereference_addrs _ _ _ _ Hd Ha) as [?|(g' & ? & ?)]; eauto.
Qed.

Lemma layered_subset lo hi cs ds :
  layered lo hi cs →
  Forall2 (λ c d, ∀ a, a ∈ chain_addrs d → a ∈ chain_addrs c) cs ds →
  layered lo hi ds.
Proof.
  intros Hl. revert ds. induction Hl as [|lo mid hi c cs Hle Hc Hcs IH]; intros ds Hf.
  - inversion Hf; subst. by constructor.
  - inversion Hf as [|? d ? ds' Hd Hds]; subst.
    econstructor; [exact Hle| |by apply IH].
    rewrite Forall_forall in *. intros a Ha. apply Hc, Hd, Ha.
Qed.

Lemma layered_filter lo hi cs (P : chain → Prop) `{∀ c, Decision (P c)} :
  layered lo hi cs → layered lo hi (filter P cs).
Proof.
  induction 1 as [|lo mid hi c cs Hle Hc Hcs IH]; [by constructor|].
  rewrite filter_cons. case_decide.
  - econstructor; [exact Hle|exact Hc|exact IH].
  - eapply layered_weaken; [exact Hle| |exact IH]. lia.
Qed.

(** Chains that have a set object in common are the same chain. *)
Definition separate (cs : list chain) : Prop :=
  ∀ c d a, c ∈ cs → d ∈ cs → a ∈ chain_addrs c → a ∈ chain_addrs d → c = d.

Lemma layered_bounds lo hi cs c a :
  layered lo hi cs → c ∈ cs → a ∈ chain_addrs c → lo ≤ a < hi.
Proof.
  induction 1 as [|lo mid hi c' cs Hle Hc Hcs IH]; intros Hin Ha.
  { by apply elem_of_nil in Hin. }
  pose proof (layered_le _ _ _ Hcs).
  apply elem_of_cons in Hin as [->|Hin].
  - rewrite Forall_forall in Hc. apply Hc in Ha. lia.
  - specialize (IH Hin Ha). lia.
Qed.

Lemma layered_separate lo hi cs : layered lo hi cs → separate cs.
Proof.
  induction 1 as [|lo mid hi c' cs Hle Hc Hcs IH]; intros c d a Hc1 Hd1 Ha Hb.
  { by apply elem_of_nil in Hc1. }
  rewrite Forall_forall in Hc.
  apply elem_of_cons in Hc1 as [->|Hc1]; apply elem_of_cons in Hd1 as [->|Hd1].
  - done.
  - apply Hc in Ha. pose proof (layered_bounds _ _ _ _ _ Hcs Hd1 Hb). lia.
  - apply Hc in Hb. pose proof (layered_bounds _ _ _ _ _ Hcs Hc1 Ha). lia.
  - by eapply IH.
Qed.

Lemma separate_subseteq cs ds : ds ⊆ cs → separate cs → separate ds.
Proof. intros Hs Hsep c d a Hc Hd. apply Hsep; by apply Hs. Qed.

(** What [__init__] builds: chains of the given length, in consecutive
    intervals of objects allocated by the call, which leaves the older
    objects as they were. *)
Lemma init_spec regex length alphabet h n h' :
  init regex length alphabet h = Ok (n, h') →
  NFSM.length n = length ∧ NFSM.alphabet n = alphabet ∧
  (∀ c, c ∈ chains n → len c = length) ∧
  extends h h' ∧ layered (next h) (next h') (chains n).
Proof.
  unfold init. intros Hi.
  apply rbind_ok in Hi as ([pcs h1] & Hp & Hi).
  apply rbind_ok in Hi as (cs & Hm & Hi). simplify_eq. cbn [chains NFSM.length NFSM.alphabet].
  destruct (parse_yields _ _ _ _ _ _ _ Hp) as [E L].
  split; [done|]. split; [done|]. split; [|split; [done|]].
  - intros c Hc. by apply list_elem_of_filter in Hc as [? _].
  - apply layered_filter. eapply layered_subset; [exact L|].
    eapply Forall2_impl; [by apply rmapM_Forall2|].
    intros c d Hd a Ha. simpl in Hd. exact (flatten_dereference_addrs c d a Hd Ha).
Qed.

End Construction.

(** ** Copies *)

Module Copies.
Import NFSM NFSMFacts Alloc Construction.
Local Open Scope N_scope.

(** *** Chains of sets stay chains of sets *)

Lemma deepcopy_set a h : deepcopy (ISet a) h = (ISet (next h), (alloc (get h a) h).2).
Proof. unfold deepcopy. cbn. by rewrite lookup_empty. Qed.

Lemma copy_items_sets c : ∀ h, Forall is_set c → Forall is_set (copy_items c h).1.
Proof.
  induction c as [|x c IH]; intros h Hc; [constructor|].
  inversion Hc as [|? ? [a ->] Hc']; subst. cbn [copy_items].
  rewrite deepcopy_set. cbn [alloc snd].
  specialize (IH (mkHeap (N.succ (next h)) (<[next h:=get h a]> (objs h))) Hc').
  destruct (copy_items c _) as [ys h']. constructor; [by eexists|done].
Qed.

Lemma _copy_chain_sets c repeat : ∀ h, Forall is_set c → Forall is_set (_copy_chain c repeat h).1.
Proof.
  induction repeat as [|r IH]; intros h Hc; [constructor|].
  cbn [_copy_chain]. pose proof (copy_items_sets c h Hc) as H1.
  destruct (copy_items c h) as [c1 h1]. specialize (IH h1 Hc).
  destruct (_copy_chain c r h1) as [c2 h2]. by apply Forall_app.
Qed.

Lemma copy_concat_sets chain1 k chain2 h :
  Forall is_set chain1 → Forall is_set chain2 →
  Forall is_set (copy_concat chain1 k chain2 h).1.
Proof.
  intros H1 H2. unfold copy_concat.
  pose proof (_copy_chain_sets chain1 k h H1) as Ha.
  destruct (_copy_chain chain1 k h) as [a h1].
  pose proof (_copy_chain_sets chain2 1 h1 H2) as Hb.
  destruct (_copy_chain chain2 1 h1) as [b h2]. by apply Forall_app.
Qed.

Lemma for_each_Forall {A} (P : chain → Prop) (l : list A) body :
  (∀ x h, x ∈ l → Forall P (body x h).1) → ∀ h, Forall P (for_each l body h).1.
Proof.
  induction l as [|x l IH]; intros Hb h; [constructor|].
  cbn [for_each]. pose proof (Hb x h ltac:(left)) as H1.
  destruct (body x h) as [ys h1].
  specialize (IH ltac:(intros; apply Hb; by right) h1).
  destruct (for_each l body h1) as [zs h2]. by apply Forall_app.
Qed.

Lemma star_sets length chains rest h :
  Forall (Forall is_set) chains → Forall (Forall is_set) rest →
  Forall (Forall is_set) (star length chains rest h).1.
Proof.
  intros Hc Hr. rewrite Forall_forall in Hc, Hr. unfold star.
  apply for_each_Forall. intros chain2 h2 H2.
  apply for_each_Forall. intros k hk _.
  apply for_each_Forall. intros chain1 h1 H1.
  pose proof (copy_concat_sets chain1 k chain2 h1 (Hc _ H1) (Hr _ H2)) as Hs.
  destruct (copy_concat chain1 k chain2 h1) as [c h']. by constructor.
Qed.

(** A chain of sets has nothing to flatten or to dereference. *)
Lemma flatten_sets c : Forall is_set c → flatten c = (c, []).
Proof.
  induction 1 as [|x c [a ->] Hc IH]; [done|]. cbn [flatten]. by rewrite IH.
Qed.

Lemma dereference_sets groups c : Forall is_set c → dereference groups c = Ok c.
Proof.
  induction 1 as [|x c [a ->] Hc IH]; [done|]. cbn [dereference]. by rewrite IH.
Qed.

Lemma flatten_dereference_sets c : Forall is_set c → flatten_dereference c = Ok c.
Proof.
  intros Hc. unfold flatten_dereference. rewrite flatten_sets by done.
  by apply dereference_sets.
Qed.

Lemma rmapM_id {A} (f : A → result A) l : Forall (λ x, f x = Ok x) l → rmapM f l = Ok l.
Proof. induction 1 as [|x l Hx Hl IH]; [done|]. cbn [rmapM]. by rewrite Hx, IH. Qed.

(** The chains [_parse_regex_part] yields for [".*"]. *)
Lemma parse_dot_star length alphabet fuel h :
  ∃ s, _parse_regex_part length alphabet (S (S fuel)) ["."; "*"]%char h
       = Ok (star length [[ISet (next h)]] [[]] (alloc s h).2).
Proof.
  remember (S fuel) as f eqn:Hf. cbn [_parse_regex_part].
  assert (scan ["."; "*"]%char 0 0 = NoSplit 0) as -> by (vm_compute; reflexivity).
  case_decide; [done|].
  assert (py_from ["."; "*"]%char (0 + 2) = []) as Hrest by done.
  assert ((if (0 + 1 <? Z.of_nat (Datatypes.length ["."; "*"]%char))%Z
           then ["."; "*"]%char !! Z.to_nat (0 + 1) else None) = Some "*"%char) as Hq by done.
  destruct (decide ("."%char ∈ alphabet)).
  - exists {["."%char]}. unfold alloc at 1. cbn [rbind].
    rewrite Hq, Hrest. rewrite decide_True by done. subst f. done.
  - exists alphabet. rewrite decide_True by done. unfold alloc at 1. cbn [rbind].
    rewrite Hq, Hrest. rewrite decide_True by done. subst f. done.
Qed.

(** [NFSM(".*", length, alphabet)], the first statement of [copy], returns
    whatever the length and the alphabet. *)
Lemma init_dot_star length alphabet h :
  ∃ n h', init ".*" length alphabet h = Ok (n, h').
Proof.
  unfold init.
  change (list_ascii_of_string ".*") with ["."; "*"]%char.
  change (S (Datatypes.length ["."; "*"]%char)) with 3%nat.
  destruct (parse_dot_star length alphabet 1 h) as [s ->].
  pose proof (star_sets length [[ISet (next h)]] [[]] (alloc s h).2) as Hs.
  destruct (star _ _ _ _) as [pcs h1]. cbn [rbind].
  rewrite rmapM_id; [cbn [rbind]; eauto|].
  eapply Forall_impl; [apply Hs|].
  - repeat constructor. by eexists.
  - repeat constructor.
  - intros c Hc. by apply flatten_dereference_sets.
Qed.

(** *** Slots and addresses *)

Lemma slot_Some c i a : slot c i = Some a ↔ c !! i = Some (ISet a).
Proof.
  unfold slot. destruct (c !! i) as [[b| |]|]; split; intros; by simplify_eq.
Qed.

Lemma slot_None c i : Forall is_set c → slot c i = None ↔ (len c ≤ i)%nat.
Proof.
  intros Hc. rewrite <- lookup_ge_None. unfold slot.
  destruct (c !! i) as [x|] eqn:Hi; [|done].
  rewrite Forall_forall in Hc. destruct (Hc x) as [a ->]; [|done].
  by eapply list_elem_of_lookup_2.
Qed.

Lemma slot_addr c i a : slot c i = Some a → a ∈ chain_addrs c.
Proof.
  rewrite slot_Some. intros Hi. unfold chain_addrs. apply list_elem_of_bind.
  exists (ISet a). split; [by left|]. by eapply list_elem_of_lookup_2.
Qed.

Lemma addr_slot c a : Forall is_set c → a ∈ chain_addrs c → ∃ i, slot c i = Some a.
Proof.
  intros Hc. unfold chain_addrs. rewrite list_elem_of_bind. intros (x & Ha & Hx).
  rewrite Forall_forall in Hc. destruct (Hc x Hx) as [b ->].
  apply list_elem_of_singleton in Ha as ->.
  apply list_elem_of_lookup_1 in Hx as [i Hi]. exists i. by apply slot_Some.
Qed.

(** *** Copying a chain *)

(** The sets of the chains of [n] are objects of the store. *)
Definition valid (h : heap) (n : t) : Prop :=
  ∀ c, c ∈ chains n → Forall (λ a, a < next h) (chain_addrs c).

(** The dictionary [ids] in the course of the copy of a chain of the store
    [h0]: it sends old sets to new ones, allocated from [lo] on, that hold
    the same letters, and never two old sets to the same new one. *)
Definition ids_ok (h0 : heap) (lo : N) (ids : gmap N N) (h : heap) : Prop :=
  (∀ a b, ids !! a = Some b → lo ≤ b < next h ∧ get h b = get h0 a) ∧
  (∀ a a' b, ids !! a = Some b → ids !! a' = Some b → a = a').

Definition renamed (ids : gmap N N) (c c' : chain) : Prop :=
  Forall2 (λ x y, ∃ a b, x = ISet a ∧ y = ISet b ∧ ids !! a = Some b) c c'.

Lemma renamed_weaken ids ids' c c' : ids ⊆ ids' → renamed ids c c' → renamed ids' c c'.
Proof.
  intros Hs Hr. eapply Forall2_impl; [exact Hr|].
  intros x y (a & b & -> & -> & Hab). exists a, b. eauto using lookup_weaken.
Qed.

Lemma copy_chain_spec h0 lo c : ∀ ids h,
  Forall is_set c → Forall (λ a, a < next h0) (chain_addrs c) →
  extends h0 h → lo ≤ next h → ids_ok h0 lo ids h →
  ∃ c' h' ids', copy_chain c ids h = Ok (c', h') ∧ extends h h' ∧ ids ⊆ ids' ∧
    ids_ok h0 lo ids' h' ∧ renamed ids' c c'.
Proof.
  induction c as [|x c IH]; intros ids h Hs Hv E0 Hlo Hok.
  { exists [], h, ids. split; [done|]. split; [apply extends_refl|].
    split; [done|]. split; [done|]. constructor. }
  inversion Hs as [|? ? [a ->] Hs']; subst.
  rewrite chain_addrs_cons in Hv. apply Forall_app in Hv as [Ha Hv].
  apply Forall_inv in Ha. cbn [copy_chain].
  destruct (ids !! a) as [b|] eqn:Hb.
  - destruct (IH ids h Hs' Hv E0 Hlo Hok) as (c' & h' & ids' & Hc & E & Hsub & Hok' & Hr).
    exists (ISet b :: c'), h', ids'. rewrite Hc. cbn [rbind].
    split; [done|]. split; [done|]. split; [done|]. split; [done|].
    constructor; [|done]. exists a, b. eauto using lookup_weaken.
  - cbn [alloc]. set (h1 := mkHeap _ _).
    assert (extends h h1) as E1 by exact (extends_alloc (get h a) h).
    destruct (IH (<[a := next h]> ids) h1 Hs' Hv) as (c' & h' & ids' & Hc & E & Hsub & Hok' & Hr).
    { by eapply extends_trans. }
    { destruct E1. lia. }
    { destruct Hok as [Hrange Hinj]. split.
      - intros a1 b1. rewrite lookup_insert_Some. intros [[<- <-]|[Hne Hab]].
        + split; [cbn; lia|]. transitivity (get h a).
          * unfold h1, get. cbn. by rewrite lookup_insert_eq.
          * destruct E0 as [_ E0]. by apply E0.
        + destruct (Hrange _ _ Hab) as [Hr1 Hg]. split; [cbn; lia|].
          rewrite <- Hg. apply E1. lia.
      - intros a1 a2 b1. rewrite !lookup_insert_Some.
        intros [[<- <-]|[Hne1 Hab1]] [[<- Hb2]|[Hne2 Hab2]]; try done.
        + destruct (Hrange _ _ Hab2). lia.
        + destruct (Hrange _ _ Hab1). lia.
        + by eapply Hinj. }
    exists (ISet (next h) :: c'), h', ids'. fold h1. rewrite Hc. cbn [rbind].
    split; [done|]. split; [by eapply extends_trans|].
    assert (ids ⊆ <[a:=next h]> ids) by by apply insert_subseteq.
    split; [by etrans|]. split; [done|].
    constructor; [|done]. exists a, (next h). split; [done|]. split; [done|].
    eapply lookup_weaken; [|exact Hsub]. by rewrite lookup_insert_eq.
Qed.

(** A chain and its copy: the copy is a chain of sets of the same length,
    a slot of the copy holds the letters of the slot of the original, and
    two slots of the copy are one object exactly when those of the original
    are. *)
Definition copy_rel (h h' : heap) (c c' : chain) : Prop :=
  Forall is_set c' ∧ len c' = len c ∧
  (∀ i a, slot c i = Some a → ∃ b, slot c' i = Some b ∧ get h' b = get h a) ∧
  (∀ i j, slot c i = slot c j ↔ slot c' i = slot c' j).

Lemma renamed_addrs ids c c' b :
  renamed ids c c' → b ∈ chain_addrs c' → ∃ a, ids !! a = Some b.
Proof.
  induction 1 as [|x y c c' (a & b' & -> & -> & Hab) Hr IH]; intros Hb.
  { by apply elem_of_nil in Hb. }
  rewrite chain_addrs_cons in Hb. apply elem_of_app in Hb as [Hb|Hb]; [|by apply IH].
  apply list_elem_of_singleton in Hb as ->. eauto.
Qed.

Lemma renamed_copy_rel h0 lo ids h' c c' :
  Forall is_set c → ids_ok h0 lo ids h' → renamed ids c c' → copy_rel h0 h' c c'.
Proof.
  intros Hs [Hrange Hinj] Hr.
  assert (Forall is_set c') as Hs'.
  { clear -Hr. induction Hr as [|x y c c' (a & b & -> & -> & _) Hr IH]; constructor; [by eexists|done]. }
  assert (len c' = len c) as Hlen by (symmetry; by eapply Forall2_length).
  assert (∀ i a, slot c i = Some a → ∃ b, slot c' i = Some b ∧ ids !! a = Some b) as H1.
  { intros i a Hi%slot_Some.
    destruct (Forall2_lookup_l _ _ _ _ _ Hr Hi) as (y & Hy & a' & b & Ha & -> & Hab).
    simplify_eq. exists b. split; [by apply slot_Some|done]. }
  assert (∀ i b, slot c' i = Some b → ∃ a, slot c i = Some a ∧ ids !! a = Some b) as H2.
  { intros i b Hi%slot_Some.
    destruct (Forall2_lookup_r _ _ _ _ _ Hr Hi) as (x & Hx & a & b' & -> & Hb & Hab).
    simplify_eq. exists a. split; [by apply slot_Some|done]. }
  split; [done|]. split; [done|]. split.
  - intros i a Hi. destruct (H1 _ _ Hi) as (b & Hb & Hab). exists b. split; [done|].
    by destruct (Hrange _ _ Hab).
  - intros i j. split; intros Hij.
    + destruct (slot c i) as [a|] eqn:Hi.
      * symmetry in Hij. destruct (H1 _ _ Hi) as (b & -> & Hab).
        destruct (H1 _ _ Hij) as (b' & -> & Hab'). congruence.
      * symmetry in Hij. apply slot_None in Hi, Hij; [|done..].
        transitivity (@None N); [|symmetry]; apply slot_None; (done || lia).
    + destruct (slot c' i) as [b|] eqn:Hi.
      * symmetry in Hij. destruct (H2 _ _ Hi) as (a & -> & Hab).
        destruct (H2 _ _ Hij) as (a' & -> & Hab'). f_equal. by eapply Hinj.
      * symmetry in Hij. apply slot_None in Hi, Hij; [|done..].
        transitivity (@None N); [|symmetry]; apply slot_None; (done || lia).
Qed.

Lemma copy_rel_extends h0 h1 h2 c c' :
  copy_rel h0 h1 c c' → Forall (λ b, b < next h1) (chain_addrs c') → extends h1 h2 →
  copy_rel h0 h2 c c'.
Proof.
  intros (Hs & Hl & Hv & Ha) Hb [_ E]. split; [done|]. split; [done|]. split; [|done].
  intros i a Hi. destruct (Hv _ _ Hi) as (b & Hb' & Hg). exists b. split; [done|].
  rewrite <- Hg. apply E. rewrite Forall_forall in Hb. by eapply Hb, slot_addr.
Qed.

(** The copy of a chain, from an empty dictionary. *)
Lemma copy_chain_top h0 c h :
  Forall is_set c → Forall (λ a, a < next h0) (chain_addrs c) → extends h0 h →
  ∃ c' h', copy_chain c ∅ h = Ok (c', h') ∧ extends h h' ∧
    fresh h h' (chain_addrs c') ∧ copy_rel h0 h' c c'.
Proof.
  intros Hs Hv E0.
  destruct (copy_chain_spec h0 (next h) c ∅ h Hs Hv E0) as (c' & h' & ids' & Hc & E & _ & Hok & Hr).
  { lia. }
  { split; intros *; by rewrite lookup_empty. }
  exists c', h'. split; [done|]. split; [done|]. split; [|by eapply renamed_copy_rel].
  apply Forall_forall. intros b Hb.
  destruct (renamed_addrs _ _ _ _ Hr Hb) as [a Hab]. by destruct (proj1 Hok _ _ Hab).
Qed.

Lemma copy_chains_spec h0 cs : ∀ h,
  (∀ c, c ∈ cs → Forall is_set c ∧ Forall (λ a, a < next h0) (chain_addrs c)) →
  extends h0 h →
  ∃ cs' h', copy_chains cs h = Ok (cs', h') ∧ extends h h' ∧
    layered (next h) (next h') cs' ∧ Forall2 (copy_rel h0 h') cs cs'.
Proof.
  induction cs as [|c cs IH]; intros h Hcs E0.
  { exists [], h. split; [done|]. split; [apply extends_refl|].
    split; constructor. lia. }
  destruct (Hcs c) as [Hs Hv]; [by left|].
  destruct (copy_chain_top h0 c h Hs Hv E0) as (c' & h1 & Hc & E1 & F1 & R1).
  destruct (IH h1) as (cs' & h2 & Hcs' & E2 & L2 & R2).
  { intros d Hd. apply Hcs. by right. }
  { by eapply extends_trans. }
  exists (c' :: cs'), h2. cbn [copy_chains]. rewrite Hc. cbn [rbind]. rewrite Hcs'. cbn [rbind].
  split; [done|]. split; [by eapply extends_trans|]. split.
  - econstructor; [apply E1|exact F1|exact L2].
  - constructor; [|done]. eapply copy_rel_extends; [exact R1| |exact E2].
    eapply Forall_impl; [exact F1|]. intros b. simpl. lia.
Qed.

(** What [copy] returns. *)
Lemma copy_effect n h :
  wf n → valid h n →
  ∃ n' h' lo, copy n h = Ok (n', h') ∧
    length n' = length n ∧ alphabet n' = alphabet n ∧
    extends h h' ∧ next h ≤ lo ∧ layered lo (next h') (chains n') ∧
    Forall2 (copy_rel h h') (chains n) (chains n').
Proof.
  intros Hwf Hv. unfold copy.
  destruct (init_dot_star (length n) (alphabet n) h) as (newobj & h1 & Hi).
  rewrite Hi. cbn [rbind].
  destruct (init_spec _ _ _ _ _ _ Hi) as (Hl & Ha & _ & E1 & _).
  destruct (copy_chains_spec h (chains n) h1) as (cs' & h2 & Hc & E2 & L2 & R2).
  { intros c Hc. split; [by apply Hwf|by apply Hv]. }
  { done. }
  rewrite Hc. cbn [rbind]. eexists _, h2, (next h1). split; [done|].
  cbn [chains length alphabet]. split; [done|]. split; [done|].
  split; [by eapply extends_trans|]. split; [apply E1|]. done.
Qed.

End Copies.

(** ** Sequences of constraints *)

Module Sequences.
Import NFSM NFSMFacts Alloc Construction Copies.
Local Open Scope N_scope.

(** What a call of [constrain_slot] that returns has done. *)
Lemma constrain_slot_ok index charset n h n' h' :
  constrain_slot index charset n h = Ok (n', h') →
  chains n' = survivors h index charset (chains n) ∧
  length n' = length n ∧ alphabet n' = alphabet n ∧ next h' = next h ∧
  ∀ a, get h' a = if decide (a ∈ slots_at (chains n) index)
                  then get h a ∩ charset else get h a.
Proof.
  unfold constrain_slot. intros Hc.
  apply rbind_ok in Hc as ([newchains h1] & Hc & Hr). simplify_eq.
  pose proof (constrain_chains_ok _ _ _ _ _ Hc) as Hs.
  destruct (constrain_chains_spec (chains n) index charset h Hs) as (h2 & Hc2 & Hn & Hg).
  rewrite Hc in Hc2. by simplify_eq.
Qed.

(** [n', h'] is what a sequence of calls of [constrain_slot], each of which
    returns, makes of [n, h]. *)
Inductive constrained : t → heap → t → heap → Prop :=
| constrained_refl n h : constrained n h n h
| constrained_step n h index charset n1 h1 n2 h2 :
    constrain_slot index charset n h = Ok (n1, h1) →
    constrained n1 h1 n2 h2 → constrained n h n2 h2.

Lemma elem_of_survivors h index charset cs c :
  c ∈ survivors h index charset cs ↔ slot_value h c index ∩ charset ≠ ∅ ∧ c ∈ cs.
Proof. unfold survivors. by rewrite list_elem_of_filter. Qed.

(** Such a sequence drops chains and letters, and touches no set but those
    of the chains. *)
Lemma constrained_frame n h n' h' :
  constrained n h n' h' →
  (∀ c, c ∈ chains n' → c ∈ chains n) ∧
  length n' = length n ∧ alphabet n' = alphabet n ∧ next h' = next h ∧
  (∀ a, get h' a ⊆ get h a) ∧
  (∀ a, (∀ c, c ∈ chains n → a ∉ chain_addrs c) → get h' a = get h a).
Proof.
  induction 1 as [n h|n h index charset n1 h1 n2 h2 Hc Hs IH].
  { repeat split; done. }
  destruct (constrain_slot_ok _ _ _ _ _ _ Hc) as (Hch & Hl & Ha & Hn & Hg).
  destruct IH as (IHc & IHl & IHa & IHn & IHs & IHf).
  assert (∀ c, c ∈ chains n1 → c ∈ chains n) as Hsub.
  { intros c. rewrite Hch, elem_of_survivors. tauto. }
  split; [auto|]. split; [congruence|]. split; [congruence|]. split; [congruence|]. split.
  - intros a. etrans; [apply IHs|]. rewrite Hg. case_decide; set_solver.
  - intros a Hna. rewrite IHf.
    + rewrite Hg. rewrite decide_False; [done|].
      rewrite elem_of_slots_at. intros (c & Hc1 & Hc2). eapply Hna; [done|].
      by eapply slot_addr.
    + intros c Hc1. apply Hna. auto.
Qed.

Lemma copy_rel_wf n n' h h' :
  length n' = length n → wf n → Forall2 (copy_rel h h') (chains n) (chains n') → wf n'.
Proof.
  intros Hl Hwf Hr c' Hc'. apply list_elem_of_lookup_1 in Hc' as [k Hk].
  destruct (Forall2_lookup_r _ _ _ _ _ Hr Hk) as (c & Hc & Hs & Hlen & _).
  split; [|done]. rewrite Hlen, Hl. eapply Hwf. by eapply list_elem_of_lookup_2.
Qed.

Lemma peek_chains_copy h h' cs cs' i :
  Forall2 (copy_rel h h') cs cs' → (∀ c, c ∈ cs → Forall is_set c) →
  ∀ X, peek_chains cs' i h' X = peek_chains cs i h X.
Proof.
  induction 1 as [|c c' cs cs' (Hs' & Hl & Hv & _) Hr IH]; intros Hs X; [done|].
  cbn [peek_chains].
  destruct (c !! i) as [x|] eqn:Hi.
  - assert (is_set x) as [a ->].
    { specialize (Hs c ltac:(left)). rewrite Forall_forall in Hs. apply Hs.
      by eapply list_elem_of_lookup_2. }
    destruct (Hv i a) as (b & Hb & Hg); [by apply slot_Some|].
    apply slot_Some in Hb. rewrite Hb. cbn [from_option rbind]. rewrite Hg.
    apply IH. intros d Hd. apply Hs. by right.
  - assert (c' !! i = None) as ->; [|done].
    apply lookup_ge_None. apply lookup_ge_None in Hi. lia.
Qed.

(** A copy shares no set with the store it was made in: no sequence of
    constraints on the copy changes a set that existed before the copy. *)
Lemma copy_isolated h n' h' lo n2 h2 :
  extends h h' → next h ≤ lo → layered lo (next h') (chains n') →
  constrained n' h' n2 h2 →
  ∀ a, a < next h → get h2 a = get h a.
Proof.
  intros [_ E] Hlo L Hc a Ha.
  destruct (constrained_frame _ _ _ _ Hc) as (_ & _ & _ & _ & _ & Hf).
  rewrite Hf; [by apply E|].
  intros c Hc1 Ha1. pose proof (layered_bounds _ _ _ _ _ L Hc1 Ha1). lia.
Qed.

(** [peek_slot] reads the sets of the chains only. *)
Lemma peek_chains_frame cs i h h2 :
  (∀ a, a < next h → get h2 a = get h a) →
  (∀ c, c ∈ cs → Forall (λ a, a < next h) (chain_addrs c)) →
  ∀ X, peek_chains cs i h2 X = peek_chains cs i h X.
Proof.
  intros Hg. induction cs as [|c cs IH]; intros Hv X; [done|].
  cbn [peek_chains]. destruct (c !! i) as [[a| |]|] eqn:Hi; try done.
  cbn [from_option rbind]. rewrite Hg.
  - apply IH. intros d Hd. apply Hv. by right.
  - specialize (Hv c ltac:(left)). rewrite Forall_forall in Hv. apply Hv.
    eapply slot_addr. by apply slot_Some.
Qed.

(** C6. [n.copy()] returns an NFSM of the same length; [peek_slot(i)] gives
    on the copy what it gives on [n], for every [i]; the chains of the copy
    are those of [n] in order, each of the same length and with two slots
    the same set object exactly when they are in the original; the copy
    leaves the sets of [n] as they were, and so does any sequence of calls
    of [constrain_slot] on the copy. *)
Theorem copy_spec n h :
  wf n → valid h n →
  ∃ n' h', copy n h = Ok (n', h') ∧
    length n' = length n ∧
    (∀ i, peek_slot i n' h' = peek_slot i n h) ∧
    Forall2 (λ c c', len c' = len c ∧
                     ∀ i j, slot c i = slot c j ↔ slot c' i = slot c' j)
            (chains n) (chains n') ∧
    (∀ a, a < next h → get h' a = get h a) ∧
    (∀ n2 h2, constrained n' h' n2 h2 →
       (∀ a, a < next h → get h2 a = get h a) ∧
       (∀ i, peek_slot i n h2 = peek_slot i n h)).
Proof.
  intros Hwf Hv.
  destruct (copy_effect n h Hwf Hv) as (n' & h' & lo & Hc & Hl & Ha & E & Hlo & L & R).
  exists n', h'. split; [done|]. split; [done|]. split; [|split; [|split]].
  - intros i. unfold peek_slot. eapply peek_chains_copy; [done|].
    intros c Hc1. by apply Hwf.
  - eapply Forall2_impl; [exact R|]. intros c c' (_ & Hlen & _ & Hal). done.
  - apply E.
  - intros n2 h2 Hc2.
    assert (∀ a, a < next h → get h2 a = get h a) as Hg by by eapply copy_isolated.
    split; [done|]. intros i. unfold peek_slot. by apply peek_chains_frame.
Qed.

End Sequences.

(** ** Matching *)

Module Matching.
Import NFSM NFSMFacts Alloc Construction Copies Sequences.

(** A chain accepts a string: every character is a letter of its slot,
    and two positions that hold the same set object carry the same
    character. *)
Definition accepts (h : heap) (c : chain) (s : list ascii) : Prop :=
  (∀ i ch, s !! i = Some ch → ch ∈ slot_value h c i) ∧
  (∀ i j, slot c i = slot c j → s !! i = s !! j).

Lemma addr_take_slot c k a :
  Forall is_set c → a ∈ chain_addrs (take k c) ↔ ∃ j, j < k ∧ slot c j = Some a.
Proof.
  intros Hc. split.
  - intros Ha. apply addr_slot in Ha as [j Hj]; [|by apply Forall_take].
    apply slot_Some in Hj. apply lookup_take_Some in Hj as [Hj Hlt].
    exists j. split; [done|]. by apply slot_Some.
  - intros (j & Hlt & Hj). apply (slot_addr _ j). apply slot_Some.
    apply slot_Some in Hj. by rewrite lookup_take_lt.
Qed.

Lemma meet_singleton (X : gset ascii) y : X ∩ {[y]} ≠ ∅ ↔ y ∈ X.
Proof.
  split; [|set_solver]. intros Hne. apply set_choose_L in Hne as [x Hx]. set_solver.
Qed.

Lemma singleton_meet (x y : ascii) : ({[x]} : gset ascii) ∩ {[y]} ≠ ∅ ↔ x = y.
Proof. rewrite meet_singleton. set_solver. Qed.

Lemma meet_singleton_eq (X : gset ascii) y : X ∩ {[y]} ≠ ∅ → X ∩ {[y]} = {[y]}.
Proof. rewrite meet_singleton. set_solver. Qed.

Section Run.
(** The loop of [match] on the string [s], from the NFSM [n0] in the
    store [h0], whose chains share no set. *)
Variables (s : list ascii) (h0 : heap) (n0 : t).
Hypothesis (Hwf : wf n0) (Hsep : separate (chains n0)) (Hlen : len s = length n0).

(** The first [k] characters are accepted. *)
Definition acc (k : nat) (c : chain) : Prop :=
  (∀ i ch, i < k → s !! i = Some ch → ch ∈ slot_value h0 c i) ∧
  (∀ i j, i < k → j < k → slot c i = slot c j → s !! i = s !! j).

(** The state after [k] turns of the loop. *)
Definition inv (k : nat) (n : t) (h : heap) : Prop :=
  k ≤ len s ∧ length n = length n0 ∧
  (∀ c, c ∈ chains n ↔ c ∈ chains n0 ∧ acc k c) ∧
  (∀ c i ch, c ∈ chains n → i < k → s !! i = Some ch → slot_value h c i = {[ch]}) ∧
  (∀ c a, c ∈ chains n → a ∈ chain_addrs c → (∀ i, i < k → slot c i ≠ Some a) →
          get h a = get h0 a).

Lemma inv_0 : inv 0 n0 h0.
Proof using Hwf Hsep Hlen.
  split; [lia|]. split; [done|]. split; [|split].
  - intros c. split; [|tauto]. intros Hc. split; [done|]. split; intros; lia.
  - intros; lia.
  - done.
Qed.

Lemma inv_step k n h ch :
  inv k n h → s !! k = Some ch →
  ∃ n' h', constrain_slot k {[ch]} n h = Ok (n', h') ∧ inv (S k) n' h'.
Proof using Hwf Hsep Hlen.
  intros (Hk & Hl & Hch & Hval & Hold) Hs.
  assert (k < len s) as Hlt by (by eapply lookup_lt_Some).
  assert (wf n) as Hwfn.
  { intros c Hc. rewrite Hl. apply Hwf. by apply Hch. }
  assert (separate (chains n)) as Hsepn.
  { intros c d a Hc Hd. apply Hsep; by apply Hch. }
  destruct (constrain_slot_effect k {[ch]} n h Hwfn) as (h' & Hc & Hn & Hg); [lia|].
  eexists _, h'. split; [exact Hc|].
  (* what happens to one chain *)
  assert (∀ c, c ∈ chains n →
            ∃ a, slot c k = Some a ∧
                 (slot_value h c k ∩ {[ch]} ≠ ∅ ↔
                  ch ∈ get h0 a ∧ ∀ j, j < k → slot c j = Some a → s !! j = Some ch)) as Hone.
  { intros c Hc1. destruct (wf_slot n c k Hwfn Hc1) as [a Ha]; [lia|].
    exists a. split; [done|]. unfold slot_value at 1. rewrite Ha.
    destruct (Hwfn c Hc1) as [Hlc Hsc].
    destruct (proj1 (Hch c) Hc1) as [_ [Hacc1 Hacc2]].
    destruct (decide (a ∈ chain_addrs (take k c))) as [Hin|Hout].
    - apply addr_take_slot in Hin as (j & Hj & Hja); [|done].
      destruct (lookup_lt_is_Some_2 s j) as [cj Hcj]; [lia|].
      pose proof (Hval c j cj Hc1 Hj Hcj) as Hv. unfold slot_value in Hv.
      rewrite Hja in Hv. rewrite Hv.
      pose proof (Hacc1 j cj Hj Hcj) as Hm. unfold slot_value in Hm. rewrite Hja in Hm.
      split.
      + intros Hne%singleton_meet. subst cj. split; [done|].
        intros j' Hj' Hj'a. rewrite <- Hcj. apply Hacc2; [done..|congruence].
      + intros [_ Hall]. specialize (Hall j Hj Hja). assert (cj = ch) as -> by congruence.
        by apply singleton_meet.
    - rewrite (Hold c a Hc1); [| by eapply slot_addr |].
      + rewrite meet_singleton. split; [intros Hm; split; [done|]|tauto].
        intros j Hj Hja. exfalso. apply Hout. apply addr_take_slot; eauto.
      + intros j Hj Hja. apply Hout. apply addr_take_slot; eauto. }
  unfold inv. cbn [chains length alphabet].
  split; [lia|]. split; [done|]. split; [|split].
  - intros c. rewrite elem_of_survivors. split.
    + intros [Hne Hc1]. destruct (proj1 (Hch c) Hc1) as [Hc0 [Hacc1 Hacc2]].
      split; [done|]. destruct (Hone c Hc1) as (a & Ha & Hiff).
      destruct (proj1 Hiff Hne) as [Hm Hall]. split.
      * intros i ci Hi Hci. destruct (decide (i = k)) as [->|Hik].
        -- simplify_eq. unfold slot_value. by rewrite Ha.
        -- apply Hacc1; [lia|done].
      * intros i j Hi Hj Hij.
        destruct (decide (i = k)) as [->|Hik]; destruct (decide (j = k)) as [->|Hjk].
        -- done.
        -- rewrite Hs. symmetry. apply Hall; [lia|congruence].
        -- rewrite Hs. apply Hall; [lia|congruence].
        -- apply Hacc2; [lia|lia|done].
    + intros [Hc0 [Hacc1 Hacc2]].
      assert (c ∈ chains n) as Hc1.
      { apply Hch. split; [done|]. split.
        - intros i ci Hi. apply Hacc1. lia.
        - intros i j Hi Hj. apply Hacc2; lia. }
      split; [|done]. destruct (Hone c Hc1) as (a & Ha & Hiff). apply Hiff. split.
      * specialize (Hacc1 k ch ltac:(lia) Hs). unfold slot_value in Hacc1.
        by rewrite Ha in Hacc1.
      * intros j Hj Hja. rewrite <- Hs. apply Hacc2; [lia|lia|congruence].
  - intros c i ci [Hne Hc1]%elem_of_survivors Hi Hci.
    destruct (wf_slot n c k Hwfn Hc1) as [a Ha]; [lia|].
    destruct (wf_slot n c i Hwfn Hc1) as [b Hb]; [lia|].
    unfold slot_value in Hne. rewrite Ha in Hne.
    unfold slot_value. rewrite Hb, Hg.
    destruct (decide (i = k)) as [->|Hik].
    + simplify_eq. rewrite decide_True; [by apply meet_singleton_eq|].
      apply elem_of_slots_at. eauto.
    + pose proof (Hval c i ci Hc1 ltac:(lia) Hci) as Hv.
      unfold slot_value in Hv. rewrite Hb in Hv.
      case_decide as Hin; [|done].
      apply elem_of_slots_at in Hin as (d & Hd & Hdk).
      assert (d = c) as ->.
      { eapply Hsepn; [done|done|by eapply slot_addr|by eapply slot_addr]. }
      simplify_eq. rewrite Hv in Hne |- *. apply singleton_meet in Hne as ->.
      clear. set_solver.
  - intros c a [Hne Hc1]%elem_of_survivors Ha Hno.
    rewrite Hg. rewrite decide_False.
    + apply (Hold c a Hc1 Ha). intros i Hi. apply Hno. lia.
    + rewrite elem_of_slots_at. intros (d & Hd & Hdk).
      assert (d = c) as ->.
      { eapply Hsepn; [done|done|by eapply slot_addr|done]. }
      apply (Hno k); [lia|done].
Qed.

Lemma constrain_all_inv rest : ∀ k n h,
  drop k s = rest → inv k n h →
  ∃ n' h', constrain_all k rest n h = Ok (n', h') ∧ inv (len s) n' h' ∧
           constrained n h n' h'.
Proof using Hwf Hsep Hlen.
  induction rest as [|ch rest IH]; intros k n h Hd Hi.
  - exists n, h. split; [done|]. split; [|constructor].
    assert (k = len s) as <-; [|done].
    destruct Hi as [Hk _]. apply (f_equal Datatypes.length) in Hd.
    rewrite length_drop in Hd. simpl in Hd. lia.
  - assert (s !! k = Some ch) as Hk.
    { rewrite <- (Nat.add_0_r k), <- lookup_drop, Hd. done. }
    destruct (inv_step k n h ch Hi Hk) as (n1 & h1 & Hc & Hi1).
    destruct (IH (S k) n1 h1) as (n' & h' & Hr & Hi' & Hcs).
    { rewrite (drop_S _ _ _ Hk) in Hd. by simplify_eq. }
    { done. }
    exists n', h'. cbn [constrain_all]. rewrite Hc. cbn [rbind].
    split; [done|]. split; [done|]. by econstructor.
Qed.
End Run.

(** A chain accepts what its copy accepts. *)
Lemma accepts_copy h h1 c c' s :
  Forall is_set c → len c = len s → copy_rel h h1 c c' →
  accepts h c s ↔ acc s h1 (len s) c'.
Proof.
  intros Hs Hl (Hs' & Hl' & Hv & Hal).
  assert (∀ i, i < len s → slot_value h1 c' i = slot_value h c i) as Hval.
  { intros i Hi. destruct (lookup_lt_is_Some_2 c i) as [x Hx]; [lia|].
    rewrite Forall_forall in Hs. destruct (Hs x) as [a ->]; [by eapply list_elem_of_lookup_2|].
    apply slot_Some in Hx. destruct (Hv _ _ Hx) as (b & Hb & Hg).
    unfold slot_value. by rewrite Hx, Hb. }
  split.
  - intros [A1 A2]. split.
    + intros i ch Hi Hch. rewrite Hval by done. by apply A1.
    + intros i j _ _ Hij. by apply A2, Hal.
  - intros [A1 A2]. split.
    + intros i ch Hch. assert (i < len s) as Hi by (by eapply lookup_lt_Some).
      rewrite <- Hval by done. by apply A1.
    + intros i j Hij.
      destruct (decide (i < len s)) as [Hi|Hi]; destruct (decide (j < len s)) as [Hj|Hj].
      * apply A2; [done..|]. by apply Hal.
      * assert (slot c j = None) as Hn by (apply slot_None; [done|lia]).
        rewrite Hn in Hij. apply slot_None in Hij; [lia|done].
      * assert (slot c i = None) as Hn by (apply slot_None; [done|lia]).
        rewrite Hn in Hij. symmetry in Hij. apply slot_None in Hij; [lia|done].
      * transitivity (@None ascii); [|symmetry]; apply lookup_ge_None; lia.
Qed.

(** C1, as the code has it.  [n.match(s)] returns, leaves the sets of [n]
    as they were, and is true exactly when [s] has the length of [n] and a
    chain of [n] accepts it: each character is a letter of the slot at
    its position and, besides, positions that hold the same set object (a
    group and its back-reference) carry the same character. *)
Theorem match_spec matchstr n h :
  wf n → valid h n →
  ∃ b h', match_ matchstr n h = Ok (b, h') ∧
    (∀ a, (a < next h)%N → get h' a = get h a) ∧
    (b = true ↔
       len (list_ascii_of_string matchstr) = length n ∧
       ∃ c, c ∈ chains n ∧ accepts h c (list_ascii_of_string matchstr)).
Proof.
  intros Hwf Hv. unfold match_. cbv zeta.
  set (s := list_ascii_of_string matchstr). case_decide as Hlen.
  { exists false, h. split; [done|]. split; [done|]. split; [done|]. by intros [? _]. }
  assert (len s = length n) as Hlen' by lia. clear Hlen.
  destruct (copy_effect n h Hwf Hv) as (n' & h1 & lo & Hc & Hl & Ha & E & Hlo & L & R).
  rewrite Hc. cbn [rbind].
  assert (wf n') as Hwf' by (by eapply copy_rel_wf).
  assert (separate (chains n')) as Hsep' by (by eapply layered_separate).
  assert (len s = length n') as Hlen1 by congruence.
  destruct (constrain_all_inv s h1 n' Hwf' Hsep' Hlen1 s 0 n' h1 eq_refl)
    as (n2 & h2 & Hr & Hinv & Hcs).
  { by apply inv_0. }
  rewrite Hr. cbn [rbind]. eexists _, h2. split; [done|]. split.
  { by eapply copy_isolated. }
  destruct Hinv as (_ & _ & Hch & _ & _).
  rewrite bool_decide_eq_true. split.
  - intros Hne. split; [done|]. destruct (chains n2) as [|c2 cs2] eqn:E2; [done|].
    destruct (proj1 (Hch c2)) as [Hc2 Hacc]; [by left|].
    apply list_elem_of_lookup_1 in Hc2 as [k Hk].
    destruct (Forall2_lookup_r _ _ _ _ _ R Hk) as (c & Hck & Hrel).
    assert (c ∈ chains n) as Hcn by (by eapply list_elem_of_lookup_2).
    exists c. split; [done|]. destruct (Hwf c Hcn) as [Hlc Hsc].
    eapply accepts_copy; [done| |exact Hrel|done]. congruence.
  - intros [_ (c & Hcn & Hacc)].
    apply list_elem_of_lookup_1 in Hcn as [k Hk].
    destruct (Forall2_lookup_l _ _ _ _ _ R Hk) as (c' & Hck & Hrel).
    assert (c ∈ chains n) as Hcn by (by eapply list_elem_of_lookup_2).
    destruct (Hwf c Hcn) as [Hlc Hsc].
    assert (c' ∈ chains n2) as Hin.
    { apply Hch. split; [by eapply list_elem_of_lookup_2|].
      eapply accepts_copy; [exact Hsc| |exact Hrel|done]. congruence. }
    intros E2. rewrite E2 in Hin. by apply elem_of_nil in Hin.
Qed.

(** *** The invariants of the chains *)

(** No chain has an empty slot. *)
Definition no_empty_slot (h : heap) (n : t) : Prop :=
  ∀ c i, c ∈ chains n → i < length n → slot_value h c i ≠ ∅.

Lemma constrained_no_empty n h n' h' :
  constrained n h n' h' → separate (chains n) →
  no_empty_slot h n → no_empty_slot h' n'.
Proof.
  induction 1 as [n h|n h index charset n1 h1 n2 h2 Hc Hs IH]; intros Hsep Hne; [done|].
  destruct (constrain_slot_ok _ _ _ _ _ _ Hc) as (Hch & Hl & Ha & Hn & Hg).
  apply IH.
  - intros c d a. rewrite Hch, !elem_of_survivors. intros [_ ?] [_ ?]. by apply Hsep.
  - intros c i. rewrite Hch, elem_of_survivors, Hl. intros [Hsv Hc1] Hi.
    specialize (Hne c i Hc1 Hi). unfold slot_value in *.
    destruct (slot c i) as [b|] eqn:Hb; [|done]. rewrite Hg. case_decide as Hin; [|done].
    apply elem_of_slots_at in Hin as (d & Hd & Hdk).
    assert (d = c) as ->.
    { eapply Hsep; [done|done|by eapply slot_addr|by eapply slot_addr]. }
    by rewrite Hdk in Hsv.
Qed.

(** C3, as the code has it.  After construction and after every sequence
    of calls of [constrain_slot], every chain has length [n.length]; and
    if the constructor has built no chain with an empty slot, no sequence
    of calls of [constrain_slot] leaves one. *)
Theorem chains_invariant regex length alphabet h0 n h n' h' :
  init regex length alphabet h0 = Ok (n, h) → constrained n h n' h' →
  NFSM.length n' = length ∧
  (∀ c, c ∈ chains n' → len c = length) ∧
  (no_empty_slot h n → no_empty_slot h' n').
Proof.
  intros Hi Hc.
  destruct (init_spec _ _ _ _ _ _ Hi) as (Hl & _ & Hlen & _ & L).
  destruct (constrained_frame _ _ _ _ Hc) as (Hsub & Hl' & _).
  split; [congruence|]. split; [auto|].
  apply constrained_no_empty; [done|]. by eapply layered_separate.
Qed.

End Matching.

(** ** Groups and back-references *)

Module Backreferences.
Import NFSM NFSMFacts Alloc Construction Copies Sequences.

(** [set("ABC")], the alphabet of the examples. *)
Definition abc : gset ascii := chars (list_ascii_of_string "ABC").









(** C5.  [NFSM("(.)\1", 2, "ABC")] has one chain, whose two slots are the
    same set object, which holds A, B and C: a [constrain_slot] at either
    slot is seen at the other.  [NFSM("(A)(B)\2\1", 4, "ABC")] has one
    chain [[a; b; b; a]] of two set objects.  But
    [NFSM("(A)(\1)\2", 3, "ABC")], whose second group holds a reference,
    has the chain [[a; a; 0]]: the reference to the second group is
    replaced by the items of the group as the parser left them, the
    integer among them, and [constrain_slot], [peek_slot] and [match]
    raise [TypeError] on it. *)
Theorem reference_splices_the_group_as_parsed :
  (∃ a n h, init "(.)\1" 2 abc empty_heap = Ok (n, h) ∧
            chains n = [[ISet a; ISet a]] ∧ get h a = abc ∧
            (∃ n' h', constrain_slot 0 {["A"%char]} n h = Ok (n', h') ∧
                      chains n' = chains n ∧ get h' a = {["A"%char]} ∧
                      peek_slot 1 n' h' = Ok (get h' a)) ∧
            (∃ n' h', constrain_slot 1 {["B"%char]} n h = Ok (n', h') ∧
                      chains n' = chains n ∧ get h' a = {["B"%char]} ∧
                      peek_slot 0 n' h' = Ok (get h' a))) ∧
  (∃ a b n h, init "(A)(B)\2\1" 4 abc empty_heap = Ok (n, h) ∧
              chains n = [[ISet a; ISet b; ISet b; ISet a]] ∧ a ≠ b ∧
              get h a = {["A"%char]} ∧ get h b = {["B"%char]}) ∧
  (∃ a n h, init "(A)(\1)\2" 3 abc empty_heap = Ok (n, h) ∧
            chains n = [[ISet a; ISet a; IInt 0]] ∧
            constrain_slot 2 abc n h = Raise TypeError ∧
            peek_slot 2 n h = Raise TypeError ∧
            match_ "AAA" n h = Raise TypeError).
Proof.
  split; [|split].
  - eexists _, _, _. split; [vm_compute; reflexivity|]. split; [reflexivity|].
    split; [vm_compute; reflexivity|]. split.
    + eexists _, _. split; [vm_compute; reflexivity|]. split; [reflexivity|].
      split; vm_compute; reflexivity.
    + eexists _, _. split; [vm_compute; reflexivity|]. split; [reflexivity|].
      split; vm_compute; reflexivity.
  - eexists _, _, _, _. split; [vm_compute; reflexivity|]. split; [reflexivity|].
    split; [done|]. split; vm_compute; reflexivity.
  - eexists _, _, _. split; [vm_compute; reflexivity|]. split; [reflexivity|].
    split; [|split]; vm_compute; reflexivity.
Qed.

End Backreferences.

(** ** What the parser accepts *)

Module Parsing.
Import NFSM NFSMFacts Alloc Construction Copies Sequences Backreferences.

(** [r.count(c)] *)
Definition count (c : ascii) (r : list ascii) : nat := len (filter (λ x, x = c) r).

Lemma count_cons c x r :
  count c (x :: r) = (if decide (x = c) then 1 else 0) + count c r.
Proof. unfold count. rewrite filter_cons. by case_decide. Qed.

Lemma count_app c r1 r2 : count c (r1 ++ r2) = count c r1 + count c r2.
Proof. unfold count. by rewrite filter_app, length_app. Qed.

(** The loop that looks for a bar: when it finds none it has counted the
    parentheses; when it stops, it is on a bar. *)
Lemma scan_spec regex : ∀ index pl,
  match scan regex index pl with
  | NoSplit pl' =>
      pl' = (pl + Z.of_nat (count "(" regex) - Z.of_nat (count ")" regex))%Z
  | Split i => ∃ k, i = index + k ∧ regex !! k = Some "|"%char
  end.
Proof.
  induction regex as [|c regex IH]; intros index pl.
  { cbn. unfold count. cbn. lia. }
  cbn [scan]. rewrite !count_cons.
  set (pl' := if decide (c = "("%char) then (pl + 1)%Z
              else if decide (c = ")"%char) then (pl - 1)%Z else pl).
  case_decide as Hb.
  - exists 0. split; [lia|]. destruct Hb as [-> _]. done.
  - specialize (IH (S index) pl'). destruct (scan regex (S index) pl') as [i|p].
    + destruct IH as (k & -> & Hk). exists (S k). split; [lia|done].
    + subst p pl'. repeat case_decide; subst; try done; lia.
Qed.

(** *** The parser raises or returns *)

Lemma rbind_diverge {A B} (m : result A) (f : A → result B) :
  rbind m f = Diverge → m = Diverge ∨ ∃ a, m = Ok a ∧ f a = Diverge.
Proof. destruct m as [a| |]; simpl; [right; by exists a|done|by left]. Qed.

Lemma parse_no_diverge length alphabet fuel : ∀ regex h,
  _parse_regex_part length alphabet fuel regex h ≠ Diverge.
Proof.
  induction fuel as [|fuel IH]; intros regex h Hd; [done|].
  cbn [_parse_regex_part] in Hd. destruct regex as [|c regex']; [done|].
  set (regex := c :: regex') in *.
  destruct (scan regex 0 0) as [index|paren_level].
  { apply rbind_diverge in Hd as [Hd|([l h1] & _ & Hd)]; [by eapply IH|].
    apply rbind_diverge in Hd as [Hd|([r h2] & _ & Hd)]; [by eapply IH|done]. }
  case_decide; [done|].
  apply rbind_diverge in Hd as [Hd|([[[chains end_index] group] h1] & _ & Hd)].
  - unfold alloc in Hd. repeat case_decide; try done.
    + apply rbind_diverge in Hd as [Hd|(c1 & _ & Hd)].
      * by destruct (regex !! 1).
      * by case_decide.
    + apply rbind_diverge in Hd as [Hd|([cs hg] & _ & Hd)]; [by eapply IH|done].
    + apply rbind_diverge in Hd as [Hd|(c1 & _ & Hd)]; [by destruct (regex !! 1)|].
      apply rbind_diverge in Hd as [Hd|(d & _ & Hd)]; [|done].
      unfold int_of_char in Hd. by case_decide.
  - cbv zeta in Hd.
    repeat case_decide;
      (apply rbind_diverge in Hd as [Hd|([rest hr] & _ & Hd)]; [by eapply IH|done]).
Qed.

(** *** Parentheses *)

Lemma parse_unbalanced length alphabet fuel : ∀ regex h,
  count "(" regex ≠ count ")" regex →
  ∃ e, _parse_regex_part length alphabet fuel regex h = Raise e.
Proof.
  induction fuel as [|fuel IH]; intros regex h Hne; [by eexists|].
  cbn [_parse_regex_part]. destruct regex as [|c regex']; [done|].
  set (regex := c :: regex') in *.
  pose proof (scan_spec regex 0 0) as Hs.
  destruct (scan regex 0 0) as [index|paren_level].
  - destruct Hs as (k & -> & Hk). cbn [Nat.add].
    pose proof (take_drop_middle regex k _ Hk) as Hm.
    assert (∀ x, x ≠ "|"%char →
              count x regex = count x (take k regex) + count x (drop (S k) regex)) as Hcount.
    { intros x Hx. rewrite <- Hm at 1. rewrite count_app, count_cons.
      rewrite decide_False by done. done. }
    destruct (decide (count "(" (take k regex) = count ")" (take k regex))) as [Heq|Hl].
    + destruct (_parse_regex_part length alphabet fuel (take k regex) h)
        as [[l h1]|e|] eqn:Hleft.
      * cbn [rbind]. destruct (IH (drop (S k) regex) h1) as [e ->]; [|by eexists].
        rewrite (Hcount "("%char), (Hcount ")"%char) in Hne by done. lia.
      * by eexists.
      * by apply parse_no_diverge in Hleft.
    + destruct (IH (take k regex) h Hl) as [e ->]. by eexists.
  - rewrite decide_True; [by eexists|]. lia.
Qed.

(** *** Items that are one character *)

Lemma py_from_drop {A} (l : list A) (z : Z) :
  (0 ≤ z)%Z → py_from l z = drop (Z.to_nat z) l.
Proof.
  intros Hz. unfold py_from, py_slice. cbv zeta.
  destruct (Z.ltb_spec z 0); [lia|].
  destruct (Z.ltb_spec (Z.of_nat (len l)) 0); [lia|].
  rewrite Z.min_id. destruct (Z.min_spec z (Z.of_nat (len l))) as [[? ->]|[? ->]].
  - apply take_ge. rewrite length_drop. lia.
  - rewrite Nat2Z.id, !drop_ge by lia. by rewrite take_nil.
Qed.

(** A regex with no parenthesis and no bar. *)
Definition flat (r : list ascii) : Prop :=
  Forall (λ c, c ∉ ["("; ")"; "|"]%char) r.

Lemma flat_count r : flat r → count "(" r = 0 ∧ count ")" r = 0.
Proof.
  induction 1 as [|c r Hc Hr [IH1 IH2]]; [done|].
  rewrite !count_cons, IH1, IH2.
  rewrite !decide_False; [done|..]; intros ->; apply Hc; set_solver.
Qed.

Lemma flat_scan r : flat r → scan r 0 0 = NoSplit 0.
Proof.
  intros Hf. pose proof (scan_spec r 0 0) as Hs. destruct (scan r 0 0) as [i|pl].
  - destruct Hs as (k & _ & Hk). apply list_elem_of_lookup_2 in Hk.
    unfold flat in Hf. rewrite Forall_forall in Hf. apply Hf in Hk. exfalso. apply Hk. set_solver.
  - destruct (flat_count r Hf) as [H1 H2]. rewrite H1, H2 in Hs. by subst.
Qed.

(** The call on a regex that starts with a letter of the alphabet or a
    dot, once it has read that item. *)
Lemma parse_item length alphabet fuel c r' h :
  flat (c :: r') → c ∈ alphabet ∨ c = "."%char →
  _parse_regex_part length alphabet (S fuel) (c :: r') h =
  let h1 := (alloc (if decide (c ∈ alphabet) then {[c]} else alphabet) h).2 in
  let chains := [[ISet (next h)]] in
  let after (rest : list ascii) (k : list chain → heap → list chain * heap) :=
    try (rest, h) ← _parse_regex_part length alphabet fuel rest h1; Ok (k rest h) in
  match r' with
  | q :: r'' =>
      if decide (q = "*"%char) then after r'' (star length chains)
      else if decide (q = "+"%char) then after r'' (plus length chains)
      else if decide (q = "?"%char) then after r'' (question chains)
      else after r' (unquantified false chains)
  | [] => after [] (unquantified false chains)
  end.
Proof.
  intros Hf Hc. cbn [_parse_regex_part]. rewrite (flat_scan _ Hf).
  rewrite decide_False by (intros ?; done).
  destruct Hc as [Hc| ->].
  - rewrite !(decide_True (P := c ∈ alphabet)) by done. unfold alloc at 1. cbn [rbind snd].
    destruct r' as [|q r'']; cbv zeta.
    + cbn. rewrite py_from_drop by lia. done.
    + change (if (0 + 1 <? Z.of_nat (len (c :: q :: r'')))%Z
              then (c :: q :: r'') !! Z.to_nat (0 + 1) else None)
        with (if (1 <? Z.of_nat (S (S (len r''))))%Z then Some q else None).
      destruct (Z.ltb_spec 1 (Z.of_nat (S (S (len r''))))); [|lia].
      rewrite !py_from_drop by lia.
      change (drop (Z.to_nat (0 + 2)) (c :: q :: r'')) with r''.
      change (drop (Z.to_nat (0 + 1)) (c :: q :: r'')) with (q :: r'').
      repeat case_decide; simplify_eq; done.
  - destruct (decide ("."%char ∈ alphabet)) as [Hin|Hin].
    + unfold alloc at 1. cbn [rbind snd].
      destruct r' as [|q r'']; cbv zeta.
      * cbn. rewrite py_from_drop by lia. done.
      * change (if (0 + 1 <? Z.of_nat (len ("."%char :: q :: r'')))%Z
                then ("."%char :: q :: r'') !! Z.to_nat (0 + 1) else None)
          with (if (1 <? Z.of_nat (S (S (len r''))))%Z then Some q else None).
        destruct (Z.ltb_spec 1 (Z.of_nat (S (S (len r''))))); [|lia].
        rewrite !py_from_drop by lia.
        change (drop (Z.to_nat (0 + 2)) ("."%char :: q :: r'')) with r''.
        change (drop (Z.to_nat (0 + 1)) ("."%char :: q :: r'')) with (q :: r'').
        repeat case_decide; simplify_eq; done.
    + rewrite decide_True by done. unfold alloc at 1. cbn [rbind snd].
      destruct r' as [|q r'']; cbv zeta.
      * cbn. rewrite py_from_drop by lia. done.
      * change (if (0 + 1 <? Z.of_nat (len ("."%char :: q :: r'')))%Z
                then ("."%char :: q :: r'') !! Z.to_nat (0 + 1) else None)
          with (if (1 <? Z.of_nat (S (S (len r''))))%Z then Some q else None).
        destruct (Z.ltb_spec 1 (Z.of_nat (S (S (len r''))))); [|lia].
        rewrite !py_from_drop by lia.
        change (drop (Z.to_nat (0 + 2)) ("."%char :: q :: r'')) with r''.
        change (drop (Z.to_nat (0 + 1)) ("."%char :: q :: r'')) with (q :: r'').
        repeat case_decide; simplify_eq; done.
Qed.

(** *** Characters the parser does not know *)

(** A regex with no bracket, parenthesis, backslash or bar: the parser
    reads each of its characters as an item or as a quantifier. *)
Definition plain (r : list ascii) : Prop :=
  Forall (λ c, c ∉ ["["; "("; ")"; "\"; "|"]%char) r.

(** A character that is no letter of the alphabet, no dot and no
    quantifier. *)
Definition stray (alphabet : gset ascii) (c : ascii) : Prop :=
  c ∉ alphabet ∧ c ∉ ["."; "*"; "+"; "?"]%char.

Lemma plain_flat r : plain r → flat r.
Proof.
  unfold plain, flat. intros Hp. eapply Forall_impl; [exact Hp|].
  intros c Hc Hin. apply Hc. set_solver.
Qed.

Lemma parse_unknown length alphabet : ∀ fuel regex h,
  len regex < fuel → plain regex → Exists (stray alphabet) regex →
  _parse_regex_part length alphabet fuel regex h = Raise ValueError.
Proof.
  induction fuel as [|fuel IH]; intros regex h Hlen Hp Hu; [lia|].
  destruct regex as [|c r']; [by apply Exists_nil in Hu|].
  pose proof (plain_flat _ Hp) as Hf.
  destruct (decide (c ∈ alphabet ∨ c = "."%char)) as [Hc|Hc].
  - rewrite parse_item by done. cbv zeta.
    assert (Exists (stray alphabet) r') as Hu'.
    { apply Exists_cons in Hu as [[H1 H2]|]; [|done].
      destruct Hc as [?| ->]; [done|]. exfalso. apply H2. set_solver. }
    apply Forall_cons_1 in Hp as [_ Hp'].
    destruct r' as [|q r'']; [by apply Exists_nil in Hu'|].
    cbn in Hlen.
    assert (q ∈ ["*"; "+"; "?"]%char → Exists (stray alphabet) r'' ∧ plain r'') as Hq.
    { intros Hq. apply Forall_cons_1 in Hp' as [_ Hp'']. split; [|done].
      apply Exists_cons in Hu' as [[_ H2]|]; [|done]. exfalso. apply H2. set_solver. }
    generalize ((alloc (if decide (c ∈ alphabet) then {[c]} else alphabet) h).2).
    intros h1. repeat case_decide; subst.
    + destruct Hq as [? ?]; [set_solver|]. rewrite IH; [done|lia|done..].
    + destruct Hq as [? ?]; [set_solver|]. rewrite IH; [done|lia|done..].
    + destruct Hq as [? ?]; [set_solver|]. rewrite IH; [done|lia|done..].
    + rewrite IH; [done|cbn; lia|done..].
  - cbn [_parse_regex_part]. rewrite (flat_scan _ Hf).
    rewrite decide_False by (intros ?; done).
    apply Forall_cons_1 in Hp as [Hpc _].
    rewrite decide_False by tauto. rewrite decide_False by tauto.
    rewrite decide_False by (intros ->; apply Hpc; set_solver).
    rewrite decide_False by (intros ->; apply Hpc; set_solver).
    rewrite decide_False by (intros ->; apply Hpc; set_solver).
    done.
Qed.

(** *** Regexes that are a word *)

Lemma copy_items_length c : ∀ h, len (copy_items c h).1 = len c.
Proof.
  induction c as [|x c IH]; intros h; [done|]. cbn [copy_items].
  destruct (deepcopy x h) as [y h1]. specialize (IH h1).
  destruct (copy_items c h1) as [ys h2]. cbn in *. by rewrite IH.
Qed.

Lemma _copy_chain_length c k : ∀ h, len (_copy_chain c k h).1 = k * len c.
Proof.
  induction k as [|k IH]; intros h; [done|]. cbn [_copy_chain].
  pose proof (copy_items_length c h) as H1.
  destruct (copy_items c h) as [c1 h1]. specialize (IH h1).
  destruct (_copy_chain c k h1) as [c2 h2]. cbn in *. rewrite length_app. lia.
Qed.


(** A regex made of letters of the alphabet that are no operator. *)
Definition literal (alphabet : gset ascii) (r : list ascii) : Prop :=
  Forall (λ c, c ∈ alphabet ∧ c ∉ ["("; ")"; "|"; "*"; "+"; "?"]%char) r.

Lemma literal_flat alphabet r : literal alphabet r → flat r.
Proof.
  unfold literal, flat. intros Hp. eapply Forall_impl; [exact Hp|].
  intros c [_ Hc] Hin. apply Hc. set_solver.
Qed.



(** *** The steps of one call *)

(** The item at the head of [regex], a non-empty regex with no bar to
    split at: its chains, [end_index] and [group]. *)
Definition read_item (length : nat) (alphabet : gset ascii) (fuel : nat)
    (regex : list ascii) (c : ascii) (h : heap)
  : result (list chain * Z * bool * heap) :=
  if decide (c ∈ alphabet) then
    let '(a, h) := alloc {[c]} h in
    Ok ([[ISet a]], 0%Z, false, h)
  else if decide (c = "."%char) then
    let '(a, h) := alloc alphabet h in
    Ok ([[ISet a]], 0%Z, false, h)
  else if decide (c = "["%char) then
    let end_index := find "]" regex in
    try c1 ← from_option IndexError (regex !! 1);
    let '(a, h) :=
      (if decide (c1 = "^"%char)
       then alloc (alphabet ∖ chars (py_slice regex 2 end_index)) h
       else alloc (chars (py_slice regex 1 end_index)) h) in
    Ok ([[ISet a]], end_index, false, h)
  else if decide (c = "("%char) then
    let end_index := find ")" regex in
    try (chains, h) ← _parse_regex_part length alphabet fuel (py_slice regex 1 end_index) h;
    Ok (chains, end_index, true, h)
  else if decide (c = "\"%char) then
    try c1 ← from_option IndexError (regex !! 1);
    try d ← int_of_char c1;
    Ok ([[IInt (d - 1)]], 1%Z, false, h)
  else Raise ValueError.

(** The quantifier behind the item, and the remainder of [regex]. *)
Definition read_rest (length : nat) (alphabet : gset ascii) (fuel : nat)
    (regex : list ascii) (chains : list chain) (end_index : Z) (group : bool)
    (h : heap) : result (list chain * heap) :=
  let quantifier :=
    if (end_index + 1 <? Z.of_nat (len regex))%Z
    then regex !! Z.to_nat (end_index + 1) else None in
  if decide (quantifier = Some "*"%char) then
    try (rest, h) ← _parse_regex_part length alphabet fuel (py_from regex (end_index + 2)) h;
    Ok (star length chains rest h)
  else if decide (quantifier = Some "+"%char) then
    try (rest, h) ← _parse_regex_part length alphabet fuel (py_from regex (end_index + 2)) h;
    Ok (plus length chains rest h)
  else if decide (quantifier = Some "?"%char) then
    try (rest, h) ← _parse_regex_part length alphabet fuel (py_from regex (end_index + 2)) h;
    Ok (question chains rest h)
  else
    try (rest, h) ← _parse_regex_part length alphabet fuel (py_from regex (end_index + 1)) h;
    Ok (unquantified group chains rest h).

Lemma parse_S length alphabet fuel c r' h :
  _parse_regex_part length alphabet (S fuel) (c :: r') h =
  let regex := c :: r' in
  match scan regex 0 0 with
  | Split index =>
      try (l, h) ← _parse_regex_part length alphabet fuel (take index regex) h;
      try (r, h) ← _parse_regex_part length alphabet fuel (drop (S index) regex) h;
      Ok (l ++ r, h)
  | NoSplit paren_level =>
      if decide (paren_level ≠ 0%Z) then Raise ValueError else
      try (chains, end_index, group, h) ← read_item length alphabet fuel regex c h;
      read_rest length alphabet fuel regex chains end_index group h
  end.
Proof. reflexivity. Qed.

(** *** Slices and [find] *)

Lemma find_from_notin c s : ∀ i, c ∉ s → find_from c s i = (-1)%Z.
Proof.
  induction s as [|x s IH]; intros i Hc; [done|]. cbn [find_from].
  apply not_elem_of_cons in Hc as [Hx Hc]. rewrite decide_False by done. by apply IH.
Qed.

Lemma find_from_first c a b : ∀ i,
  c ∉ a → find_from c (a ++ c :: b) i = (i + Z.of_nat (len a))%Z.
Proof.
  induction a as [|x a IH]; intros i Hc; cbn [find_from app].
  - rewrite decide_True by done. cbn. lia.
  - apply not_elem_of_cons in Hc as [Hx Hc]. rewrite decide_False by done.
    rewrite IH by done. cbn [Datatypes.length]. lia.
Qed.

Lemma find_cons c x w rest :
  x ≠ c → c ∉ w → find c (x :: w ++ c :: rest) = Z.of_nat (S (len w)).
Proof.
  intros Hx Hw. unfold find.
  pose proof (find_from_first c (x :: w) rest 0) as Hf. cbn [app Datatypes.length] in Hf.
  rewrite Hf; [lia|]. apply not_elem_of_cons. done.
Qed.

Lemma py_slice_middle {A} (a w b : list A) :
  py_slice (a ++ w ++ b) (Z.of_nat (len a)) (Z.of_nat (len a + len w)) = w.
Proof.
  unfold py_slice. cbv zeta. rewrite !length_app.
  destruct (Z.ltb_spec (Z.of_nat (len a)) 0); [lia|].
  destruct (Z.ltb_spec (Z.of_nat (len a + len w)) 0); [lia|].
  rewrite !Z.min_l by lia. rewrite Nat2Z.id.
  replace (Z.to_nat (Z.of_nat (len a + len w) - Z.of_nat (len a))) with (len w) by lia.
  rewrite drop_app_length. by rewrite take_app_length.
Qed.

Lemma py_slice_body {A} (x : A) (w rest : list A) :
  py_slice (x :: w ++ rest) 1 (Z.of_nat (S (len w))) = w.
Proof. exact (py_slice_middle [x] w rest). Qed.

Lemma count_notin c r : c ∉ r → count c r = 0.
Proof.
  induction r as [|x r IH]; intros Hc; [done|].
  apply not_elem_of_cons in Hc as [Hx Hc]. rewrite count_cons, decide_False by done.
  by rewrite IH.
Qed.

Lemma count_pos c r : 0 < count c r → c ∈ r.
Proof.
  intros Hc. destruct (decide (c ∈ r)) as [|Hn]; [done|].
  rewrite count_notin in Hc by done. lia.
Qed.

(** *** The item read, case by case *)

Lemma read_item_letter length alphabet fuel regex c h :
  c ∈ alphabet ∨ c = "."%char →
  read_item length alphabet fuel regex c h =
  Ok ([[ISet (next h)]], 0%Z, false,
      (alloc (if decide (c ∈ alphabet) then {[c]} else alphabet) h).2).
Proof.
  intros Hc. unfold read_item, alloc. case_decide; [done|].
  destruct Hc as [?| ->]; [done|]. by rewrite decide_True.
Qed.

Lemma read_item_class length alphabet fuel w rest h :
  "["%char ∉ alphabet → "]"%char ∉ w →
  ∃ s, read_item length alphabet fuel ("["%char :: w ++ "]"%char :: rest) "[" h =
       Ok ([[ISet (next h)]], Z.of_nat (S (len w)), false, (alloc s h).2) ∧
       ((w ++ "]"%char :: rest) !! 0 = Some "^"%char →
        s = alphabet ∖ chars (py_slice ("["%char :: w ++ "]"%char :: rest) 2
                                (Z.of_nat (S (len w))))) ∧
       ((w ++ "]"%char :: rest) !! 0 ≠ Some "^"%char → s = chars w).
Proof.
  intros Ha Hw. unfold read_item. rewrite decide_False by done.
  rewrite decide_False by done. rewrite decide_True by done. cbv zeta.
  rewrite find_cons by done.
  assert (∃ c1, (w ++ "]"%char :: rest) !! 0 = Some c1) as [c1 Hc1].
  { destruct w; by eexists. }
  change (("["%char :: w ++ "]"%char :: rest) !! 1) with ((w ++ "]"%char :: rest) !! 0).
  rewrite Hc1. cbn [from_option rbind]. unfold alloc. case_decide as Hcar.
  - eexists. split; [done|]. split; [done|]. intros Hn. by subst.
  - eexists. split; [done|]. split; [intros ?; congruence|]. intros _.
    by rewrite py_slice_body.
Qed.

Lemma read_item_open length alphabet fuel c1 r' h :
  "["%char ∉ alphabet → "]"%char ∉ c1 :: r' →
  ∃ x h1, read_item length alphabet fuel ("["%char :: c1 :: r') "[" h =
          Ok (x, (-1)%Z, false, h1).
Proof.
  intros Ha Hw. unfold read_item. rewrite decide_False by done.
  rewrite decide_False by done. rewrite decide_True by done. cbv zeta.
  assert (find "]" ("["%char :: c1 :: r') = (-1)%Z) as ->.
  { apply find_from_notin. apply not_elem_of_cons. done. }
  cbn [lookup list_lookup from_option rbind]. unfold alloc.
  case_decide; by eexists _, _.
Qed.

Lemma read_item_group length alphabet fuel w rest h :
  "("%char ∉ alphabet → ")"%char ∉ w →
  read_item length alphabet fuel ("("%char :: w ++ ")"%char :: rest) "(" h =
  try (chains, h) ← _parse_regex_part length alphabet fuel w h;
  Ok (chains, Z.of_nat (S (len w)), true, h).
Proof.
  intros Ha Hw. unfold read_item. rewrite decide_False by done.
  rewrite decide_False by done. rewrite decide_False by done.
  rewrite decide_True by done. cbv zeta. rewrite find_cons by done.
  by rewrite py_slice_body.
Qed.

Lemma read_item_reference length alphabet fuel r' h :
  "\"%char ∉ alphabet →
  read_item length alphabet fuel ("\"%char :: r') "\" h =
  try c1 ← from_option IndexError (r' !! 0);
  try d ← int_of_char c1;
  Ok ([[IInt (d - 1)]], 1%Z, false, h).
Proof.
  intros Ha. unfold read_item. rewrite decide_False by done.
  rewrite decide_False by done. rewrite decide_False by done.
  rewrite decide_False by done. by rewrite decide_True.
Qed.

Lemma read_item_other length alphabet fuel regex c h :
  c ∉ alphabet → c ∉ ["."; "["; "("; "\"]%char →
  read_item length alphabet fuel regex c h = Raise ValueError.
Proof.
  intros Ha Hc. unfold read_item. rewrite decide_False by done.
  rewrite !decide_False; [done|..]; intros ->; apply Hc; set_solver.
Qed.

(** *** Classes, and the characters outside them *)

(** Reading [c] outside ([false]) or inside ([true]) a class: a ["["] that
    is no letter of the alphabet opens a class, the next ["]"] closes
    it. *)
Definition class_step (alphabet : gset ascii) (inside : bool) (c : ascii) : bool :=
  if inside then negb (bool_decide (c = "]"%char))
  else bool_decide (c = "["%char ∧ c ∉ alphabet).

(** Whether the end of [r] is inside a class. *)
Fixpoint open_class (alphabet : gset ascii) (inside : bool) (r : list ascii) : bool :=
  match r with
  | [] => inside
  | c :: r' => open_class alphabet (class_step alphabet inside c) r'
  end.

(** The characters of [r] that are outside the classes, the brackets of
    the classes left out. *)
Fixpoint outside (alphabet : gset ascii) (inside : bool) (r : list ascii) : list ascii :=
  match r with
  | [] => []
  | c :: r' =>
      let inside' := class_step alphabet inside c in
      if inside || inside' then outside alphabet inside' r'
      else c :: outside alphabet inside' r'
  end.

(** Whether every [")"] of [r] closes a ["("] before it and every ["("] is
    closed, [level] parentheses being open at the start. *)
Fixpoint nested (level : nat) (r : list ascii) : bool :=
  match r with
  | [] => bool_decide (level = 0)
  | c :: r' =>
      if decide (c = "("%char) then nested (S level) r'
      else if decide (c = ")"%char) then
        match level with 0 => false | S l => nested l r' end
      else nested level r'
  end.

(** The characters of the syntax that can stand outside a class. *)
Definition operators : list ascii := ["."; "["; "("; ")"; "|"; "*"; "+"; "?"; "\"]%char.

Definition digit (c : ascii) : Prop := 48 ≤ nat_of_ascii c ∧ nat_of_ascii c ≤ 57.

(** A character that is no letter of the alphabet, no operator and no
    digit. *)
Definition unknown (alphabet : gset ascii) (c : ascii) : Prop :=
  c ∉ alphabet ∧ c ∉ operators ∧ ¬ digit c.

#[local] Instance digit_dec c : Decision (digit c).
Proof. unfold digit. apply _. Defined.

#[local] Instance unknown_dec alphabet c : Decision (unknown alphabet c).
Proof. unfold unknown. apply _. Defined.

Lemma open_class_app alphabet a b : ∀ s,
  open_class alphabet s (a ++ b) = open_class alphabet (open_class alphabet s a) b.
Proof. induction a as [|c a IH]; intros s; [done|]. cbn. apply IH. Qed.

Lemma outside_app alphabet a b : ∀ s,
  outside alphabet s (a ++ b) =
  outside alphabet s a ++ outside alphabet (open_class alphabet s a) b.
Proof.
  induction a as [|c a IH]; intros s; [done|]. cbn [app outside open_class]. cbv zeta.
  rewrite IH. by destruct (s || class_step alphabet s c).
Qed.

Lemma outside_elem alphabet r x : ∀ s, x ∈ outside alphabet s r → x ∈ r.
Proof.
  induction r as [|c r IH]; intros s Hx; [done|]. cbn [outside] in Hx. cbv zeta in Hx.
  destruct (s || class_step alphabet s c).
  - right. by eapply IH.
  - apply elem_of_cons in Hx as [->|Hx]; [by left|right; by eapply IH].
Qed.

(** The body of a class, up to its bracket. *)
Lemma class_body alphabet w :
  "]"%char ∉ w → open_class alphabet true w = true ∧ outside alphabet true w = [].
Proof.
  induction w as [|c w IH]; intros Hw; [done|].
  apply not_elem_of_cons in Hw as [Hc Hw]. cbn [open_class outside]. cbv zeta.
  unfold class_step. rewrite bool_decide_eq_false_2 by done. cbn. by apply IH.
Qed.

Lemma class_closed alphabet w :
  "["%char ∉ alphabet → "]"%char ∉ w →
  open_class alphabet false ("["%char :: w ++ ["]"%char]) = false ∧
  outside alphabet false ("["%char :: w ++ ["]"%char]) = [].
Proof.
  intros Ha Hw. destruct (class_body alphabet w Hw) as [Ho Hout].
  cbn [open_class outside]. cbv zeta.
  assert (class_step alphabet false "[" = true) as ->.
  { unfold class_step. by rewrite bool_decide_eq_true_2. }
  rewrite open_class_app, outside_app, Ho, Hout. cbn.
  unfold class_step. by rewrite bool_decide_eq_true_2.
Qed.

Lemma nested_app a b : ∀ k l,
  nested k a = true → nested (k + l) (a ++ b) = nested l b.
Proof.
  induction a as [|c a IH]; intros k l Ha.
  { cbn in Ha. apply bool_decide_eq_true_1 in Ha. by subst. }
  cbn [nested app] in *. repeat case_decide.
  - by apply (IH (S k)).
  - destruct k as [|k]; [done|]. by apply IH.
  - by apply IH.
Qed.

Lemma nested_skip a b : ∀ l,
  "("%char ∉ a → ")"%char ∉ a → nested l (a ++ b) = nested l b.
Proof.
  induction a as [|c a IH]; intros l H1 H2; [done|].
  apply not_elem_of_cons in H1 as [? ?]. apply not_elem_of_cons in H2 as [? ?].
  cbn [nested app]. rewrite !decide_False by done. by apply IH.
Qed.

(** *** Regexes the parser gives up on *)

(** A class is left open, a character outside the classes is unknown, or
    the parentheses outside the classes are not nested. *)
Definition bad (alphabet : gset ascii) (r : list ascii) : Prop :=
  open_class alphabet false r = true ∨
  Exists (unknown alphabet) (outside alphabet false r) ∨
  nested 0 (outside alphabet false r) = false.

Lemma bad_app alphabet p r : bad alphabet (p ++ r) → bad alphabet p ∨ bad alphabet r.
Proof.
  unfold bad. rewrite open_class_app, outside_app.
  destruct (open_class alphabet false p) eqn:Ho; [by left; left|].
  intros [H|[H|H]].
  - right. by left.
  - apply Exists_app in H as [H|H]; [left|right]; right; by left.
  - destruct (nested 0 (outside alphabet false p)) eqn:Hn.
    + right. right. right. by rewrite (nested_app _ _ 0 0 Hn) in H.
    + left. right. by right.
Qed.

(** Characters that do no harm where an item or a quantifier is read. *)
Definition harmless (alphabet : gset ascii) (c : ascii) : Prop :=
  (c ∈ alphabet ∨ c ∈ operators ∨ digit c) ∧
  ¬ (c = "["%char ∧ c ∉ alphabet) ∧ c ≠ "("%char ∧ c ≠ ")"%char.

Lemma bad_cons alphabet c r :
  harmless alphabet c → bad alphabet (c :: r) → bad alphabet r.
Proof.
  intros (Hk & Hb & H1 & H2) Hbad.
  apply (bad_app alphabet [c] r) in Hbad as [Hbad|]; [|done]. exfalso.
  unfold bad in Hbad. cbn [open_class outside] in Hbad. cbv zeta in Hbad.
  unfold class_step in Hbad. rewrite bool_decide_eq_false_2 in Hbad by done.
  cbn in Hbad. rewrite !decide_False in Hbad by done. cbn in Hbad.
  destruct Hbad as [?|[H|?]]; [done| |done].
  apply Exists_cons in H as [(? & ? & ?)|H]; [tauto|by apply Exists_nil in H].
Qed.

Lemma bad_nil alphabet : ¬ bad alphabet [].
Proof. intros [?|[H|?]]; [done| |done]. by apply Exists_nil in H. Qed.

Lemma bad_class alphabet w r :
  "["%char ∉ alphabet → "]"%char ∉ w →
  bad alphabet (("["%char :: w ++ ["]"%char]) ++ r) → bad alphabet r.
Proof.
  intros Ha Hw Hbad. apply bad_app in Hbad as [Hbad|]; [|done]. exfalso.
  destruct (class_closed alphabet w Ha Hw) as [Ho Hout].
  unfold bad in Hbad. rewrite Ho, Hout in Hbad.
  destruct Hbad as [?|[H|?]]; [done| |done]. by apply Exists_nil in H.
Qed.

(** A group: a bad regex has a bad body, a parenthesis in its body, or a
    bad remainder. *)
Lemma bad_group alphabet w r :
  "("%char ∉ alphabet →
  bad alphabet ("("%char :: w ++ ")"%char :: r) →
  bad alphabet w ∨ "("%char ∈ w ∨ ")"%char ∈ w ∨ bad alphabet r.
Proof.
  intros Ha Hbad.
  destruct (decide ("("%char ∈ w)) as [|H1]; [by right; left|].
  destruct (decide (")"%char ∈ w)) as [|H2]; [by right; right; left|].
  destruct (open_class alphabet false w) eqn:Ho; [by left; left|].
  unfold bad in Hbad. cbn [open_class outside] in Hbad. cbv zeta in Hbad.
  assert (class_step alphabet false "(" = false) as Hs.
  { unfold class_step. apply bool_decide_eq_false_2. by intros [? _]. }
  rewrite Hs in Hbad. cbn [orb] in Hbad.
  rewrite open_class_app, outside_app, Ho in Hbad.
  cbn [open_class outside] in Hbad. cbv zeta in Hbad.
  assert (class_step alphabet false ")" = false) as Hs'.
  { unfold class_step. apply bool_decide_eq_false_2. by intros [? _]. }
  rewrite Hs' in Hbad. cbn [orb] in Hbad.
  destruct Hbad as [H|[H|H]].
  - right. right. right. by left.
  - apply Exists_cons in H as [(_ & H & _)|H]; [exfalso; apply H; set_solver|].
    apply Exists_app in H as [H|H]; [left; right; by left|].
    apply Exists_cons in H as [(_ & H & _)|H]; [exfalso; apply H; set_solver|].
    right. right. right. right. by left.
  - cbn [nested] in H. rewrite decide_True in H by done.
    rewrite nested_skip in H.
    2,3: intros Hin; apply outside_elem in Hin; done.
    cbn [nested] in H. rewrite decide_False, decide_True in H by done.
    right. right. right. right. by right.
Qed.

Section Raises.
Variables (length : nat) (alphabet : gset ascii).

Definition raises {A} (m : result A) : Prop := ∃ e, m = Raise e.

Lemma raises_bind {A B} (m : result A) (f : A → result B) :
  m ≠ Diverge → (∀ a, m = Ok a → raises (f a)) → raises (rbind m f).
Proof. destruct m as [a|e|]; cbn; intros Hd Hf; [by apply Hf|by exists e|done]. Qed.

Lemma raises_bind_l {A B} (m : result A) (f : A → result B) :
  raises m → raises (rbind m f).
Proof. intros [e ->]. by exists e. Qed.

(** The remainder of the regex behind the first [S e] characters: if the
    parser raises on it, and on what is behind its quantifier, the call
    raises. *)
Lemma read_rest_raises fuel consumed rest chains e group h :
  len consumed = S e →
  (∀ h, raises (_parse_regex_part length alphabet fuel rest h)) →
  (∀ q rest' h, rest = q :: rest' → q ∈ ["*"; "+"; "?"]%char →
                raises (_parse_regex_part length alphabet fuel rest' h)) →
  raises (read_rest length alphabet fuel (consumed ++ rest) chains (Z.of_nat e) group h).
Proof.
  intros Hlen Hrest Hq. unfold read_rest. cbv zeta.
  assert ((if (Z.of_nat e + 1 <? Z.of_nat (len (consumed ++ rest)))%Z
           then (consumed ++ rest) !! Z.to_nat (Z.of_nat e + 1) else None) = rest !! 0) as ->.
  { rewrite length_app. destruct rest as [|q rest'].
    - cbn [Datatypes.length]. destruct (Z.ltb_spec (Z.of_nat e + 1) (Z.of_nat (len consumed + 0)));
        [lia|done].
    - cbn [Datatypes.length].
      destruct (Z.ltb_spec (Z.of_nat e + 1) (Z.of_nat (len consumed + S (len rest')))); [|lia].
      rewrite lookup_app_r by lia.
      by replace (Z.to_nat (Z.of_nat e + 1) - len consumed) with 0 by lia. }
  rewrite !py_from_drop by lia.
  replace (Z.to_nat (Z.of_nat e + 1)) with (len consumed) by lia.
  replace (Z.to_nat (Z.of_nat e + 2)) with (len consumed + 1) by lia.
  rewrite <- drop_drop, drop_app_length.
  destruct rest as [|q rest'].
  { cbn [lookup list_lookup]. rewrite !decide_False by done. apply raises_bind_l, Hrest. }
  change ((q :: rest') !! 0) with (Some q). change (drop 1 (q :: rest')) with rest'.
  repeat case_decide; simplify_eq;
    try (apply raises_bind_l, (Hq _ _ _ eq_refl); set_solver).
  apply raises_bind_l, Hrest.
Qed.

(** What is behind a consumed prefix is bad: the parser raises on it by
    induction. *)
Lemma bad_rest fuel rest :
  (∀ r h, bad alphabet r → raises (_parse_regex_part length alphabet fuel r h)) →
  bad alphabet rest →
  (∀ h, raises (_parse_regex_part length alphabet fuel rest h)) ∧
  (∀ q rest' h, rest = q :: rest' → q ∈ ["*"; "+"; "?"]%char →
                raises (_parse_regex_part length alphabet fuel rest' h)).
Proof.
  intros IH Hbad. split; [intros h; by apply IH|].
  intros q rest' h -> Hq. apply IH. eapply bad_cons; [|exact Hbad].
  unfold harmless, operators. set_solver.
Qed.

(** The same when the parentheses of the remainder are not as many. *)
Lemma unbalanced_rest fuel rest :
  count "(" rest ≠ count ")" rest →
  (∀ h, raises (_parse_regex_part length alphabet fuel rest h)) ∧
  (∀ q rest' h, rest = q :: rest' → q ∈ ["*"; "+"; "?"]%char →
                raises (_parse_regex_part length alphabet fuel rest' h)).
Proof.
  intros Hne. split; [intros h; by apply parse_unbalanced|].
  intros q rest' h -> Hq. apply parse_unbalanced.
  rewrite !count_cons in Hne. rewrite !decide_False in Hne by set_solver. done.
Qed.

Lemma digit_harmless c d : int_of_char c = Ok d → harmless alphabet c.
Proof.
  unfold int_of_char. case_decide as Hd; [|done]. intros _.
  assert (digit c) as Hdig by done.
  split; [by right; right|].
  split; [intros [-> _]; by vm_compute in Hd; lia|].
  split; intros ->; vm_compute in Hd; lia.
Qed.

Lemma paren_letter c r :
  c = "("%char ∨ c = ")"%char → count "(" (c :: r) = count ")" (c :: r) →
  count "(" r ≠ count ")" r.
Proof.
  rewrite !count_cons. intros [-> | ->].
  - rewrite decide_True, decide_False by done. lia.
  - rewrite decide_False, decide_True by done. lia.
Qed.

Lemma letter_harmless c :
  c ∈ alphabet ∨ c = "."%char → c ≠ "("%char → c ≠ ")"%char → harmless alphabet c.
Proof.
  intros Hc H1 H2. split; [|split; [|done]].
  - destruct Hc as [?| ->]; [by left|]. right; left. unfold operators. set_solver.
  - intros [-> Hn]. by destruct Hc.
Qed.

(** The parser raises on a bad regex, whatever the depth it may recurse
    to. *)
Lemma bad_raises fuel : ∀ r h,
  bad alphabet r → raises (_parse_regex_part length alphabet fuel r h).
Proof.
  induction fuel as [|fuel IH]; intros r h Hbad; [by eexists|].
  destruct r as [|c r']; [by apply bad_nil in Hbad|].
  rewrite parse_S. cbv zeta.
  pose proof (scan_spec (c :: r') 0 0) as Hs.
  destruct (scan (c :: r') 0 0) as [index|pl].
  { destruct Hs as (k & -> & Hk). cbn [Nat.add].
    pose proof (take_drop_middle _ k _ Hk) as Hm. rewrite <- Hm in Hbad.
    apply bad_app in Hbad as [Hb|Hb]; [apply raises_bind_l; by apply IH|].
    apply bad_cons in Hb; [|unfold harmless, operators; set_solver].
    apply raises_bind; [apply parse_no_diverge|]. intros [l h1] _.
    apply raises_bind_l. by apply IH. }
  case_decide as Hpl; [by eexists|].
  assert (count "(" (c :: r') = count ")" (c :: r')) as Hcount by lia.
  clear Hs Hpl pl.
  destruct (decide (c ∈ alphabet ∨ c = "."%char)) as [Hc|Hc].
  { (* a letter or a dot *)
    rewrite read_item_letter by done. cbn [rbind].
    apply (read_rest_raises fuel [c] r' _ 0); [done|..].
    all: destruct (decide (c = "("%char ∨ c = ")"%char)) as [Hp|Hp];
      [apply unbalanced_rest; by apply (paren_letter c)|].
    all: apply bad_rest; [done|];
         (eapply bad_cons; [|exact Hbad]); apply letter_harmless; tauto. }
  assert (c ∉ alphabet) as Ha by tauto.
  destruct (decide (c = "["%char)) as [->|Hbr].
  { (* a class *)
    destruct (decide ("]"%char ∈ r')) as [Hin|Hin].
    - apply list_elem_of_split_l in Hin as (w & rest & -> & Hw).
      destruct (read_item_class length alphabet fuel w rest h Ha Hw) as (s & -> & _).
      cbn [rbind].
      assert (("["%char :: w ++ "]"%char :: rest) = ("["%char :: w ++ ["]"%char]) ++ rest)
        as Heq by (cbn; by rewrite <- app_assoc).
      rewrite Heq in Hbad |- *. apply bad_class in Hbad; [|done..].
      apply read_rest_raises; [cbn; rewrite length_app; cbn; lia|..]; by apply bad_rest.
    - destruct r' as [|c1 r''].
      { unfold read_item. rewrite decide_False by done.
        rewrite decide_False by done. rewrite decide_True by done. by eexists. }
      destruct (read_item_open length alphabet fuel c1 r'' h Ha Hin) as (x & h1 & ->).
      cbn [rbind]. unfold read_rest. cbv zeta.
      change (-1 + 1)%Z with 0%Z.
      destruct (Z.ltb_spec 0 (Z.of_nat (len ("["%char :: c1 :: r'')))) as [_|Hl];
        [|cbn in Hl; lia].
      change (("["%char :: c1 :: r'') !! Z.to_nat 0) with (Some "["%char).
      rewrite !decide_False by done. rewrite py_from_drop by lia.
      change (drop (Z.to_nat 0) ("["%char :: c1 :: r'')) with ("["%char :: c1 :: r'').
      apply raises_bind_l. by apply IH. }
  destruct (decide (c = "("%char)) as [->|Hpar].
  { (* a group *)
    assert (")"%char ∈ r') as Hin.
    { rewrite !count_cons in Hcount. rewrite decide_True in Hcount by done.
      rewrite decide_False in Hcount by done. apply count_pos. lia. }
    apply list_elem_of_split_l in Hin as (w & rest & -> & Hw).
    rewrite read_item_group by done.
    apply (bad_group alphabet w rest Ha) in Hbad as [Hb|[Hb|[Hb|Hb]]].
    - apply raises_bind_l, raises_bind_l. by apply IH.
    - apply raises_bind_l, raises_bind_l. apply parse_unbalanced.
      rewrite (count_notin ")" w) by done.
      assert (0 < count "(" w); [|lia].
      apply list_elem_of_split in Hb as (w1 & w2 & ->).
      rewrite count_app, count_cons, decide_True by done. lia.
    - done.
    - destruct (_parse_regex_part length alphabet fuel w h) as [[chains h1]| |] eqn:Hinner.
      + cbn [rbind].
        assert (("("%char :: w ++ ")"%char :: rest) = ("("%char :: w ++ [")"%char]) ++ rest)
          as -> by (cbn; by rewrite <- app_assoc).
        apply read_rest_raises; [cbn; rewrite length_app; cbn; lia|..]; by apply bad_rest.
      + by eexists.
      + by apply parse_no_diverge in Hinner. }
  destruct (decide (c = "\"%char)) as [->|Hbs].
  2: { rewrite read_item_other; [by eexists|done|set_solver]. }
  (* a reference *)
  rewrite read_item_reference by done.
  destruct r' as [|c1 rest]; [by eexists|].
  cbn [lookup list_lookup from_option rbind].
  destruct (int_of_char c1) as [d| |] eqn:Hd; [|by eexists|].
  2: { unfold int_of_char in Hd. by case_decide. }
  cbn [rbind].
  apply (read_rest_raises fuel ["\"%char; c1] rest _ 1); [done|..];
    apply bad_rest; [done| |done|].
  all: eapply bad_cons; [by eapply digit_harmless|].
  all: eapply bad_cons; [|exact Hbad].
  all: unfold harmless, operators; set_solver.
Qed.

End Raises.





End Parsing.

(** ** The NFSMs of the tests *)

Module Examples.
Import NFSM NFSMFacts Alloc Construction Copies Sequences Matching Backreferences.
Local Open Scope string_scope.

(** The calls of the test of [(DI|NS|TH|OM)*], in order: the number of
    chains built, then what each [match] returns. *)
Definition multi_or : result (nat * list bool) :=
  try (r, h) ← init "(DI|NS|TH|OM)*" 8 Regexcrossword.uppercase empty_heap;
  try (b1, h) ← match_ "DIDIDIDI" r h;
  try (b2, h) ← match_ "DINSTHOM" r h;
  try (b3, h) ← match_ "ADINSTHOZ" r h;
  try (r', h) ← constrain_slot 0 (chars (list_ascii_of_string "DZ")) r h;
  try (b4, h) ← match_ "OMTHNSDI" r' h;
  try (b5, h) ← match_ "DINSTHOM" r' h;
  Ok (len (chains r), [b1; b2; b3; b4; b5]).

(** C4, as the code runs.  [NFSM("(DI|NS|TH|OM)*", 8, A-Z)] has four
    chains, one for each alternative repeated four times: the loop of the
    star repeats one chain of the group, it does not mix them.  So
    [match("DIDIDIDI")] is true, but [match("DINSTHOM")] is false, as are
    [match("ADINSTHOZ")] and, after [constrain_slot(0, {D, Z})],
    [match("OMTHNSDI")] and [match("DINSTHOM")]. *)
Theorem multi_or_star_repeats_one_alternative :
  multi_or = Ok (4, [true; false; false; false; false]).
Proof. vm_compute. reflexivity. Qed.

(** [NFSM("(.)\1", 2, "ABC")] has a chain whose slots both hold A and B, and
    "AB" has its length; yet [match("AB")] is false: the two slots are one
    set object, which the first character leaves with A alone. *)
Lemma match_is_not_slotwise_membership :
  ∃ n h,
    init "(.)\1" 2 abc empty_heap = Ok (n, h) ∧
    len (list_ascii_of_string "AB") = length n ∧
    (∃ c, c ∈ chains n ∧
          ∀ i ch, list_ascii_of_string "AB" !! i = Some ch → ch ∈ slot_value h c i) ∧
    fst <$> match_ "AB" n h = Ok false.
Proof.
  eexists _, _. split; [vm_compute; reflexivity|].
  split; [reflexivity|]. split.
  - eexists. split; [by left|]. intros [|[|i]] ch Hi; cbn in Hi; simplify_eq.
    + apply (bool_decide_unpack _). vm_compute. exact I.
    + apply (bool_decide_unpack _). vm_compute. exact I.
  - vm_compute. reflexivity.
Qed.

(** [NFSM("[^ABC]", 1, "ABC")] is built with a chain whose slot is empty. *)
Lemma constructor_builds_empty_slot :
  ∃ n h c,
    init "[^ABC]" 1 abc empty_heap = Ok (n, h) ∧ c ∈ chains n ∧ slot_value h c 0 = ∅.
Proof.
  eexists _, _, _. split; [vm_compute; reflexivity|]. split; [by left|].
  vm_compute. reflexivity.
Qed.

(** The NFSM of [(.)\1] is well formed, and its sets are in the store. *)
Lemma backref_wf n h :
  init "(.)\1" 2 abc empty_heap = Ok (n, h) → wf n ∧ valid h n.
Proof.
  intros Hi. vm_compute in Hi. injection Hi as <- <-. split.
  - intros c Hc. cbn in Hc. apply list_elem_of_singleton in Hc as ->.
    split; [done|]. repeat constructor; by eexists.
  - intros c Hc. cbn in Hc. apply list_elem_of_singleton in Hc as ->.
    repeat constructor.
Qed.

(** C1 on [NFSM("(.)\1", 2, "ABC")] and "AA". *)
Lemma match_spec_witness :
  ∃ n h b h',
    init "(.)\1" 2 abc empty_heap = Ok (n, h) ∧
    match_ "AA" n h = Ok (b, h') ∧
    (∀ a, (a < next h)%N → get h' a = get h a) ∧
    (b = true ↔
       len (list_ascii_of_string "AA") = length n ∧
       ∃ c, c ∈ chains n ∧ accepts h c (list_ascii_of_string "AA")).
Proof.
  destruct (init "(.)\1" 2 abc empty_heap) as [[n h]| |] eqn:Hi;
    [|by vm_compute in Hi..].
  destruct (backref_wf n h Hi) as [Hwf Hv].
  destruct (match_spec "AA" n h Hwf Hv) as (b & h' & Hm).
  by exists n, h, b, h'.
Defined.

(** C2 on [NFSM("(.)\1", 2, "ABC")], slot 0 and the set {A}. *)
Lemma constrain_slot_spec_witness :
  ∃ n h n' h',
    init "(.)\1" 2 abc empty_heap = Ok (n, h) ∧
    constrain_slot 0 {["A"%char]} n h = Ok (n', h') ∧
    chains n' = filter (λ c, slot_value h c 0 ∩ {["A"%char]} ≠ ∅) (chains n) ∧
    (∀ c j, c ∈ chains n' → slot c j = slot c 0 →
            slot_value h' c j = slot_value h c 0 ∩ {["A"%char]}).
Proof.
  destruct (init "(.)\1" 2 abc empty_heap) as [[n h]| |] eqn:Hi;
    [|by vm_compute in Hi..].
  destruct (backref_wf n h Hi) as [Hwf Hv].
  assert (0 < length n) as Hl.
  { vm_compute in Hi. injection Hi as <- <-. cbn. lia. }
  destruct (constrain_slot_spec 0 {["A"%char]} n h Hwf Hl)
    as (n' & h' & Hc & Hch & _ & _ & _ & Hal & _).
  by exists n, h, n', h'.
Defined.

(** C3 on [NFSM("(.)\1", 2, "ABC")] and one call of [constrain_slot]. *)
Lemma chains_invariant_witness :
  ∃ n h n' h',
    init "(.)\1" 2 abc empty_heap = Ok (n, h) ∧
    constrain_slot 0 {["A"%char]} n h = Ok (n', h') ∧
    length n' = 2 ∧ (∀ c, c ∈ chains n' → len c = 2) ∧
    (no_empty_slot h n → no_empty_slot h' n').
Proof.
  destruct (init "(.)\1" 2 abc empty_heap) as [[n h]| |] eqn:Hi;
    [|by vm_compute in Hi..].
  destruct (backref_wf n h Hi) as [Hwf Hv].
  assert (0 < length n) as Hl.
  { vm_compute in Hi. injection Hi as <- <-. cbn. lia. }
  destruct (constrain_slot_effect 0 {["A"%char]} n h Hwf Hl) as (h' & Hc & _).
  eexists n, h, _, h'. split; [done|]. split; [exact Hc|].
  eapply (chains_invariant "(.)\1" 2 abc empty_heap n h); [exact Hi|].
  eapply constrained_step; [exact Hc|apply constrained_refl].
Defined.

(** C6 on [NFSM("(.)\1", 2, "ABC")]. *)
Lemma copy_spec_witness :
  ∃ n h n' h',
    init "(.)\1" 2 abc empty_heap = Ok (n, h) ∧
    copy n h = Ok (n', h') ∧ length n' = length n ∧
    (∀ i, peek_slot i n' h' = peek_slot i n h) ∧
    (∀ n2 h2, constrained n' h' n2 h2 → ∀ a, (a < next h)%N → get h2 a = get h a).
Proof.
  destruct (init "(.)\1" 2 abc empty_heap) as [[n h]| |] eqn:Hi;
    [|by vm_compute in Hi..].
  destruct (backref_wf n h Hi) as [Hwf Hv].
  destruct (copy_spec n h Hwf Hv) as (n' & h' & Hc & Hl & Hp & _ & _ & Hm).
  exists n, h, n', h'. split; [done|]. split; [done|]. split; [done|]. split; [done|].
  intros n2 h2 H2. exact (proj1 (Hm n2 h2 H2)).
Defined.

End Examples.

(** ** The loop of [main] *)

Module Driver.
Import NFSM NFSMFacts Alloc Construction Copies Sequences Regexcrossword.
Local Open Scope N_scope.

(** From [h] to [h'] no set object has gained a letter. *)
Definition shrinks (h h' : heap) : Prop :=
  next h ≤ next h' ∧ ∀ a, a < next h → get h' a ⊆ get h a.

Lemma shrinks_refl h : shrinks h h.
Proof. split; [lia|done]. Qed.

Lemma shrinks_trans h1 h2 h3 : shrinks h1 h2 → shrinks h2 h3 → shrinks h1 h3.
Proof.
  intros [N1 S1] [N2 S2]. split; [lia|]. intros a Ha.
  etrans; [apply S2; lia|by apply S1].
Qed.




Lemma narrow_cells_shrinks cells : ∀ i r finished h finished' h',
  narrow_cells i cells r finished h = Ok (finished', h') → shrinks h h'.
Proof.
  induction cells as [|cell cells IH]; intros i r finished h finished' h' Hn;
    cbn [narrow_cells] in Hn.
  { simplify_eq. apply shrinks_refl. }
  cbn [alloc] in Hn. set (h1 := mkHeap _ _) in Hn.
  apply rbind_ok in Hn as (candidates & _ & Hn). cbv zeta in Hn.
  eapply shrinks_trans; [|by eapply IH].
  split; [cbn; lia|]. intros a Ha. rewrite get_put.
  assert (get h1 a = get h a) as Hold.
  { apply (get_alloc_old (get h cell) h a). lia. }
  clear Hn. destruct (decide (cell = a)) as [<-|Hne].
  - rewrite Hold. set_solver.
  - by rewrite Hold.
Qed.

Lemma step2_shrinks regexes : ∀ finished h finished' h',
  step2 regexes finished h = Ok (finished', h') → shrinks h h'.
Proof.
  induction regexes as [|[[regexstr r] cells] regexes IH]; intros finished h finished' h' Hs;
    cbn [step2] in Hs.
  { simplify_eq. apply shrinks_refl. }
  apply rbind_ok in Hs as ([f1 h1] & H1 & Hs).
  eapply shrinks_trans; [by eapply narrow_cells_shrinks|by eapply IH].
Qed.



(** *** The calls of a pass return *)

(** An entry of [regexes] as [main] builds them: an NFSM of the data model,
    whose sets are in the store, and as many cells as the NFSM is long,
    in the store too. *)
Definition binding_wf (h : heap) (b : binding) : Prop :=
  wf b.1.2 ∧ valid h b.1.2 ∧ len b.2 = length b.1.2 ∧ Forall (λ a, a < next h) b.2.

Lemma binding_wf_mono h h' b : next h ≤ next h' → binding_wf h b → binding_wf h' b.
Proof.
  intros Hn (Hw & Hv & Hl & Hc). split; [done|]. split; [|split; [done|]].
  - intros c Hin. eapply Forall_impl; [by apply Hv|]. intros a. simpl. lia.
  - eapply Forall_impl; [exact Hc|]. intros a. simpl. lia.
Qed.

Lemma constrained_wf r h r' h' : constrained r h r' h' → wf r → wf r'.
Proof.
  intros Hc Hw. destruct (constrained_frame _ _ _ _ Hc) as (Hsub & Hl & _).
  intros c Hin. rewrite Hl. apply Hw. by apply Hsub.
Qed.

Lemma constrained_valid r h r' h' : constrained r h r' h' → valid h r → valid h' r'.
Proof.
  intros Hc Hv. destruct (constrained_frame _ _ _ _ Hc) as (Hsub & _ & _ & Hn & _).
  intros c Hin. rewrite Hn. apply Hv. by apply Hsub.
Qed.

Lemma constrain_cells_ok cells : ∀ i r h,
  wf r → (i + len cells ≤ length r)%nat →
  ∃ r' h', constrain_cells i cells r h = Ok (r', h') ∧ constrained r h r' h'.
Proof.
  induction cells as [|cell cells IH]; intros i r h Hw Hi.
  { exists r, h. split; [done|constructor]. }
  cbn in Hi.
  destruct (constrain_slot_effect i (get h cell) r h Hw) as (h1 & Hc & _); [lia|].
  set (r1 := mk _ _ _) in Hc.
  assert (constrained r h r1 h1) as Hc1 by (eapply constrained_step; [exact Hc|constructor]).
  destruct (IH (S i) r1 h1) as (r' & h' & Hr & Hcs).
  { by eapply constrained_wf. }
  { cbn. lia. }
  exists r', h'. cbn [constrain_cells]. rewrite Hc. cbn [rbind]. split; [done|].
  eapply constrained_step; [exact Hc|done].
Qed.

(** Step 1 returns; it keeps the cells of each entry, and drops chains. *)
Lemma step1_ok regexes : ∀ h,
  Forall (binding_wf h) regexes →
  ∃ regexes' h', step1 regexes h = Ok (regexes', h') ∧ next h' = next h ∧
    Forall (binding_wf h') regexes' ∧
    Forall2 (λ b b', b'.2 = b.2 ∧ length b'.1.2 = length b.1.2 ∧
                     ∀ c, c ∈ chains b'.1.2 → c ∈ chains b.1.2) regexes regexes'.
Proof.
  induction regexes as [|[[s r] cells] regexes IH]; intros h Hb.
  { exists [], h. by repeat split. }
  apply Forall_cons_1 in Hb as [(Hw & Hv & Hl & Hc) Hb]. cbn in Hw, Hv, Hl, Hc.
  destruct (constrain_cells_ok cells 0 r h Hw) as (r1 & h1 & Hr & Hcs); [lia|].
  destruct (constrained_frame _ _ _ _ Hcs) as (Hsub & Hl1 & _ & Hn1 & _).
  destruct (IH h1) as (regexes' & h2 & Hs & Hn2 & Hb2 & Hf2).
  { eapply Forall_impl; [exact Hb|]. intros b. apply binding_wf_mono. lia. }
  exists ((s, r1, cells) :: regexes'), h2. cbn [step1]. rewrite Hr. cbn [rbind].
  rewrite Hs. cbn [rbind]. split; [done|]. split; [congruence|]. split.
  - constructor; [|done]. apply (binding_wf_mono h1); [lia|].
    split; [by eapply constrained_wf|]. split; [by eapply constrained_valid|].
    cbn. split; [congruence|]. eapply Forall_impl; [exact Hc|]. intros a. simpl. lia.
  - constructor; [|done]. cbn. done.
Qed.

(** [peek_slot] returns on chains that have a set at the index, and what
    it returns is within any set that holds the slots. *)
Lemma peek_chains_ok cs i h : ∀ X,
  (∀ c, c ∈ cs → is_Some (slot c i)) →
  ∃ Y, peek_chains cs i h X = Ok Y ∧
       ∀ P, X ⊆ P → (∀ c, c ∈ cs → slot_value h c i ⊆ P) → Y ⊆ P.
Proof.
  induction cs as [|c cs IH]; intros X Hs.
  { exists X. split; [done|]. auto. }
  destruct (Hs c) as [a Ha]; [by left|].
  destruct (IH (X ∪ get h a)) as (Y & Hp & Hy).
  { intros d Hd. apply Hs. by right. }
  exists Y. cbn [peek_chains]. apply slot_Some in Ha as Ha'. rewrite Ha'.
  cbn [from_option rbind]. split; [done|]. intros P HX HP. apply Hy.
  - specialize (HP c ltac:(left)). unfold slot_value in HP. rewrite Ha in HP.
    clear -HX HP. set_solver.
  - intros d Hd. apply HP. by right.
Qed.

Lemma narrow_cells_ok cells : ∀ i r finished h,
  wf r → (i + len cells ≤ length r)%nat →
  ∃ finished' h', narrow_cells i cells r finished h = Ok (finished', h').
Proof.
  induction cells as [|cell cells IH]; intros i r finished h Hw Hi.
  { by eexists _, _. }
  cbn in Hi. cbn [narrow_cells alloc]. set (h1 := mkHeap _ _).
  destruct (peek_chains_ok (chains r) i h1 ∅) as (Y & Hp & _).
  { intros c Hc. eapply wf_slot; [done..|lia]. }
  unfold peek_slot. rewrite Hp. cbn [rbind]. cbv zeta.
  apply IH; [done|lia].
Qed.

Lemma narrow_cells_next cells : ∀ i r finished h finished' h',
  narrow_cells i cells r finished h = Ok (finished', h') → next h ≤ next h'.
Proof. intros * Hn. by destruct (narrow_cells_shrinks _ _ _ _ _ _ _ Hn). Qed.

Lemma step2_ok regexes : ∀ finished h,
  Forall (binding_wf h) regexes →
  ∃ finished' h', step2 regexes finished h = Ok (finished', h').
Proof.
  induction regexes as [|[[s r] cells] regexes IH]; intros finished h Hb.
  { by eexists _, _. }
  apply Forall_cons_1 in Hb as [(Hw & Hv & Hl & Hc) Hb]. cbn in Hw, Hv, Hl, Hc.
  destruct (narrow_cells_ok cells 0 r finished h Hw) as (f1 & h1 & Hn); [lia|].
  cbn [step2]. rewrite Hn. cbn [rbind]. apply IH.
  eapply Forall_impl; [exact Hb|]. intros b. apply binding_wf_mono.
  by eapply narrow_cells_next.
Qed.

(** A pass returns, and leaves entries on which the next pass returns. *)
Lemma round_ok regexes h :
  Forall (binding_wf h) regexes →
  ∃ finished regexes' h', round regexes h = Ok (finished, regexes', h') ∧
    Forall (binding_wf h') regexes' ∧ snd <$> regexes' = snd <$> regexes.
Proof.
  intros Hb. destruct (step1_ok regexes h Hb) as (regexes' & h1 & Hs1 & Hn1 & Hb1 & Hf).
  destruct (step2_ok regexes' true h1 Hb1) as (f & h2 & Hs2).
  exists f, regexes', h2. unfold round. rewrite Hs1. cbn [rbind]. rewrite Hs2. cbn [rbind].
  split; [done|]. split.
  - eapply Forall_impl; [exact Hb1|]. intros b. apply binding_wf_mono.
    by destruct (step2_shrinks _ _ _ _ _ Hs2).
  - clear -Hf. induction Hf as [|b b' l l' (H1 & _) Hf IH]; [done|].
    cbn. by rewrite H1, IH.
Qed.

(** *** The measure of the loop *)










(** *** The first pass of [main] *)



Lemma valid_mono h h' r : next h ≤ next h' → valid h r → valid h' r.
Proof.
  intros Hn Hv c Hc. eapply Forall_impl; [by apply Hv|]. intros a. simpl. lia.
Qed.





(** *** What [main] builds *)





(** {C, H} *)
Definition ch : gset ascii := chars (list_ascii_of_string "CH").


















End Driver.

(** ** More on the NFSM *)

Module Properties.
Import NFSM NFSMFacts Alloc Construction Copies Sequences Matching Backreferences
  Parsing Driver.

(** *** [match] *)

(** What [match] returns and does, for an NFSM of the data model. *)
Lemma match_effect matchstr n h :
  wf n → valid h n →
  ∃ b h', match_ matchstr n h = Ok (b, h') ∧ extends h h' ∧
    (b = true ↔
       len (list_ascii_of_string matchstr) = length n ∧
       ∃ c, c ∈ chains n ∧ accepts h c (list_ascii_of_string matchstr)).
Proof.
  intros Hwf Hv. unfold match_. cbv zeta.
  set (s := list_ascii_of_string matchstr). case_decide as Hlen.
  { exists false, h. split; [done|]. split; [apply extends_refl|].
    split; [done|]. by intros [? _]. }
  assert (len s = length n) as Hlen' by lia. clear Hlen.
  destruct (copy_effect n h Hwf Hv) as (n' & h1 & lo & Hc & Hl & Ha & E & Hlo & L & R).
  rewrite Hc. cbn [rbind].
  assert (wf n') as Hwf' by (by eapply copy_rel_wf).
  assert (separate (chains n')) as Hsep' by (by eapply layered_separate).
  assert (len s = length n') as Hlen1 by congruence.
  destruct (constrain_all_inv s h1 n' Hwf' Hsep' Hlen1 s 0 n' h1 eq_refl)
    as (n2 & h2 & Hr & Hinv & Hcs).
  { by apply inv_0. }
  rewrite Hr. cbn [rbind]. eexists _, h2. split; [done|]. split.
  { destruct (constrained_frame _ _ _ _ Hcs) as (_ & _ & _ & Hn & _).
    split; [destruct E; lia|]. by eapply copy_isolated. }
  destruct Hinv as (_ & _ & Hch & _ & _).
  rewrite bool_decide_eq_true. split.
  - intros Hne. split; [done|]. destruct (chains n2) as [|c2 cs2] eqn:E2; [done|].
    destruct (proj1 (Hch c2)) as [Hc2 Hacc]; [by left|].
    apply list_elem_of_lookup_1 in Hc2 as [k Hk].
    destruct (Forall2_lookup_r _ _ _ _ _ R Hk) as (c & Hck & Hrel).
    assert (c ∈ chains n) as Hcn by (by eapply list_elem_of_lookup_2).
    exists c. split; [done|]. destruct (Hwf c Hcn) as [Hlc Hsc].
    eapply accepts_copy; [done| |exact Hrel|done]. congruence.
  - intros [_ (c & Hcn & Hacc)].
    apply list_elem_of_lookup_1 in Hcn as [k Hk].
    destruct (Forall2_lookup_l _ _ _ _ _ R Hk) as (c' & Hck & Hrel).
    assert (c ∈ chains n) as Hcn by (by eapply list_elem_of_lookup_2).
    destruct (Hwf c Hcn) as [Hlc Hsc].
    assert (c' ∈ chains n2) as Hin.
    { apply Hch. split; [by eapply list_elem_of_lookup_2|].
      eapply accepts_copy; [exact Hsc| |exact Hrel|done]. congruence. }
    intros E2. rewrite E2 in Hin. by apply elem_of_nil in Hin.
Qed.

Lemma slot_value_extends h h' n c i :
  extends h h' → valid h n → c ∈ chains n → slot_value h' c i = slot_value h c i.
Proof.
  intros [_ E] Hv Hc. unfold slot_value. destruct (slot c i) as [a|] eqn:Ha; [|done].
  apply E. specialize (Hv c Hc). rewrite Forall_forall in Hv. by eapply Hv, slot_addr.
Qed.

Lemma accepts_extends h h' n c s :
  extends h h' → valid h n → c ∈ chains n → accepts h' c s ↔ accepts h c s.
Proof.
  intros E Hv Hc. unfold accepts.
  split; intros [A1 A2]; (split; [|done]); intros i ch Hi.
  - rewrite <- (slot_value_extends h h' n) by done. by apply A1.
  - rewrite (slot_value_extends h h' n) by done. by apply A1.
Qed.

(** X1.  A call of [match] does not change what a later call returns:
    [match(s2)] after [match(s1)] gives what [match(s2)] gives at once. *)
Theorem match_leaves_matches s1 s2 n h :
  wf n → valid h n →
  ∃ b1 h1 b2 h2 h2',
    match_ s1 n h = Ok (b1, h1) ∧ match_ s2 n h1 = Ok (b2, h2) ∧
    match_ s2 n h = Ok (b2, h2').
Proof.
  intros Hwf Hv.
  destruct (match_effect s1 n h Hwf Hv) as (b1 & h1 & Hm1 & E1 & _).
  assert (valid h1 n) as Hv1 by (eapply valid_mono; [apply E1|done]).
  destruct (match_effect s2 n h1 Hwf Hv1) as (b2 & h2 & Hm2 & _ & Hb2).
  destruct (match_effect s2 n h Hwf Hv) as (b2' & h2' & Hm2' & _ & Hb2').
  exists b1, h1, b2, h2, h2'. split; [done|]. split; [done|].
  assert (b2 = true ↔ b2' = true) as Hiff.
  { rewrite Hb2, Hb2'. split; intros [Hl (c & Hc & Ha)]; (split; [done|]);
      exists c; (split; [done|]); by eapply (accepts_extends h h1 n). }
  assert (b2' = b2) as -> by (destruct b2, b2'; intuition congruence). done.
Qed.

(** *** [peek_slot] *)

(** What [peek_slot] returns: the union of the slots. *)
Lemma peek_chains_union cs i h : ∀ X,
  (∀ c, c ∈ cs → is_Some (slot c i)) →
  peek_chains cs i h X = Ok (X ∪ ⋃ ((λ c, slot_value h c i) <$> cs)).
Proof.
  induction cs as [|c cs IH]; intros X Hs.
  { cbn. f_equal. set_solver. }
  destruct (Hs c) as [a Ha]; [by left|]. apply slot_Some in Ha as Ha'.
  cbn [peek_chains]. rewrite Ha'. cbn [from_option rbind].
  rewrite IH by (intros d Hd; apply Hs; by right).
  f_equal. cbn. unfold slot_value at 2. rewrite Ha. set_solver.
Qed.

Lemma peek_slot_union n h i :
  wf n → (i < length n)%nat →
  peek_slot i n h = Ok (⋃ ((λ c, slot_value h c i) <$> chains n)).
Proof.
  intros Hwf Hi. unfold peek_slot. rewrite peek_chains_union.
  - f_equal. set_solver.
  - intros c Hc. by eapply wf_slot.
Qed.

(** X2.  [peek_slot] misses no letter of a string that [match] accepts:
    when [match(s)] is true, [s[i]] is among the letters [peek_slot(i)]
    returns. *)
Theorem peek_slot_covers_matches matchstr n h h' i ch :
  wf n → valid h n →
  match_ matchstr n h = Ok (true, h') →
  list_ascii_of_string matchstr !! i = Some ch →
  ∃ P, peek_slot i n h = Ok P ∧ ch ∈ P.
Proof.
  intros Hwf Hv Hm Hi.
  destruct (match_effect matchstr n h Hwf Hv) as (b & h1 & Hm1 & _ & Hb).
  rewrite Hm in Hm1. simplify_eq.
  destruct (proj1 Hb eq_refl) as (Hl & c & Hc & [A1 _]).
  assert (i < length n)%nat as Hlt by (rewrite <- Hl; by eapply lookup_lt_Some).
  eexists. split; [by apply peek_slot_union|].
  apply elem_of_union_list. exists (slot_value h c i). split; [|by apply A1].
  apply list_elem_of_fmap. by exists c.
Qed.

(** X3.  After [constrain_slot(i, S)], [peek_slot(i)] returns the letters
    it returned before that are in [S]. *)
Theorem peek_after_constrain i charset n h :
  wf n → (i < length n)%nat →
  ∃ P n' h',
    peek_slot i n h = Ok P ∧ constrain_slot i charset n h = Ok (n', h') ∧
    peek_slot i n' h' = Ok (P ∩ charset).
Proof.
  intros Hwf Hi.
  destruct (constrain_slot_effect i charset n h Hwf Hi) as (h' & Hc & _ & Hg).
  eexists _, _, h'. split; [by apply peek_slot_union|]. split; [exact Hc|].
  rewrite peek_slot_union; cbn [chains length].
  - f_equal. apply set_eq. intros x.
    rewrite elem_of_intersection, !elem_of_union_list. split.
    + intros (X & HX & Hx). apply list_elem_of_fmap in HX as (c & -> & Hcs).
      apply elem_of_survivors in Hcs as [_ Hcn].
      destruct (wf_slot n c i Hwf Hcn Hi) as [a Ha].
      unfold slot_value in Hx. rewrite Ha, Hg in Hx.
      rewrite decide_True in Hx by (apply elem_of_slots_at; eauto).
      apply elem_of_intersection in Hx as [Hx HS]. split; [|done].
      exists (slot_value h c i). split; [apply list_elem_of_fmap; by exists c|].
      unfold slot_value. by rewrite Ha.
    + intros [(X & HX & Hx) HS]. apply list_elem_of_fmap in HX as (c & -> & Hcn).
      destruct (wf_slot n c i Hwf Hcn Hi) as [a Ha].
      exists (slot_value h' c i). split.
      * apply list_elem_of_fmap. exists c. split; [done|].
        apply elem_of_survivors. split; [|done]. clear -Hx HS. set_solver.
      * unfold slot_value in *. rewrite Ha in *. rewrite Hg.
        rewrite decide_True by (apply elem_of_slots_at; eauto).
        clear -Hx HS. set_solver.
  - intros c Hc'. apply elem_of_survivors in Hc' as [_ Hc']. by apply Hwf.
  - done.
Qed.

(** *** [constrain_slot] *)

Lemma survivors_empty h i cs : survivors h i ∅ cs = [].
Proof.
  unfold survivors. induction cs as [|c cs IH]; [done|].
  rewrite filter_cons, decide_False; [done|]. intros Hne. apply Hne. set_solver.
Qed.

(** X4.  [constrain_slot(i, set())] drops every chain: from then on
    [peek_slot] returns the empty set at any index and [match] is false
    for any string. *)
Theorem constrain_with_empty_set i n h :
  wf n → (i < length n)%nat →
  ∃ n' h',
    constrain_slot i ∅ n h = Ok (n', h') ∧ chains n' = [] ∧
    (∀ j, peek_slot j n' h' = Ok ∅) ∧
    (∀ matchstr, ∃ h'', match_ matchstr n' h' = Ok (false, h'')).
Proof.
  intros Hwf Hi.
  destruct (constrain_slot_effect i ∅ n h Hwf Hi) as (h' & Hc & _).
  rewrite survivors_empty in Hc. eexists _, h'. split; [exact Hc|].
  split; [done|]. split; [done|]. intros matchstr.
  destruct (match_effect matchstr (mk [] (length n) (alphabet n)) h')
    as (b & h'' & Hm & _ & Hb).
  { intros c Hc'. by apply elem_of_nil in Hc'. }
  { intros c Hc'. by apply elem_of_nil in Hc'. }
  exists h''. destruct b; [|done]. destruct (proj1 Hb eq_refl) as (_ & c & Hc' & _).
  by apply elem_of_nil in Hc'.
Qed.

(** X5.  [constrain_slot] only takes matches away: a string that [match]
    accepts after [constrain_slot(i, S)] has its character [i] in [S], and
    [match] accepted it before. *)
Theorem constrain_then_match i charset matchstr n h n' h' h'' :
  wf n → valid h n →
  constrain_slot i charset n h = Ok (n', h') →
  match_ matchstr n' h' = Ok (true, h'') →
  (chains n ≠ [] → ∃ ch, list_ascii_of_string matchstr !! i = Some ch ∧ ch ∈ charset) ∧
  ∃ h3, match_ matchstr n h = Ok (true, h3).
Proof.
  intros Hwf Hv Hc Hm.
  assert (constrained n h n' h') as Hcs by (eapply constrained_step; [exact Hc|constructor]).
  pose proof (constrained_wf _ _ _ _ Hcs Hwf) as Hwf'.
  pose proof (constrained_valid _ _ _ _ Hcs Hv) as Hv'.
  destruct (constrain_slot_ok _ _ _ _ _ _ Hc) as (Hch & Hl & _ & Hn & Hg).
  destruct (match_effect matchstr n' h' Hwf' Hv') as (b & h1 & Hm1 & _ & Hb).
  rewrite Hm in Hm1. simplify_eq.
  destruct (proj1 Hb eq_refl) as (Hlen & c & Hc' & [A1 A2]).
  rewrite Hch in Hc'. apply elem_of_survivors in Hc' as [Hne Hcn].
  destruct (Hwf c Hcn) as [Hlc Hsc].
  assert (∀ j, slot_value h' c j ⊆ slot_value h c j) as Hsub.
  { intros j. unfold slot_value. destruct (slot c j) as [a|]; [|done].
    rewrite Hg. case_decide; set_solver. }
  split.
  - intros _. destruct (slot c i) as [a|] eqn:Ha.
    + assert (i < len c)%nat as Hi.
      { apply slot_Some in Ha. by eapply lookup_lt_Some. }
      destruct (lookup_lt_is_Some_2 (list_ascii_of_string matchstr) i) as [ch Hch'];
        [lia|].
      exists ch. split; [done|]. specialize (A1 i ch Hch').
      unfold slot_value in A1. rewrite Ha, Hg in A1.
      rewrite decide_True in A1 by (apply elem_of_slots_at; eauto).
      clear -A1. set_solver.
    + exfalso. apply Hne. unfold slot_value. rewrite Ha. set_solver.
  - destruct (match_effect matchstr n h Hwf Hv) as (b & h3 & Hm3 & _ & Hb3).
    exists h3. assert (b = true) as ->; [|done]. apply Hb3. split; [congruence|].
    exists c. split; [done|]. split; [|done]. intros j ch Hj. by apply Hsub, A1.
Qed.

Lemma filter_all {A} (P : A → Prop) `{∀ x, Decision (P x)} (l : list A) :
  (∀ x, x ∈ l → P x) → filter P l = l.
Proof.
  induction l as [|x l IH]; intros Hl; [done|].
  rewrite filter_cons, decide_True by (apply Hl; by left).
  f_equal. apply IH. intros y Hy. apply Hl. by right.
Qed.

(** X6.  [constrain_slot] is idempotent: a second call with the same index
    and set keeps every chain and leaves every set as it is. *)
Theorem constrain_slot_idempotent i charset n h :
  wf n → (i < length n)%nat →
  ∃ n1 h1 n2 h2,
    constrain_slot i charset n h = Ok (n1, h1) ∧
    constrain_slot i charset n1 h1 = Ok (n2, h2) ∧
    chains n2 = chains n1 ∧ ∀ a, get h2 a = get h1 a.
Proof.
  intros Hwf Hi.
  destruct (constrain_slot_effect i charset n h Hwf Hi) as (h1 & Hc1 & _ & Hg1).
  set (n1 := mk _ _ _) in Hc1.
  assert (constrained n h n1 h1) as Hcs by (eapply constrained_step; [exact Hc1|constructor]).
  pose proof (constrained_wf _ _ _ _ Hcs Hwf) as Hwf1.
  destruct (constrain_slot_effect i charset n1 h1 Hwf1 Hi) as (h2 & Hc2 & _ & Hg2).
  eexists n1, h1, _, h2. split; [exact Hc1|]. split; [exact Hc2|].
  assert (∀ a, a ∈ slots_at (chains n1) i → get h1 a = get h a ∩ charset) as Hin.
  { intros a Ha. rewrite Hg1, decide_True; [done|].
    apply elem_of_slots_at in Ha as (c & Hc & Hs). apply elem_of_slots_at.
    exists c. split; [|done]. by apply elem_of_survivors in Hc as [_ ?]. }
  cbn [chains]. split.
  - unfold survivors at 1. apply filter_all. intros c Hc.
    pose proof Hc as Hc'. apply elem_of_survivors in Hc' as [Hne Hcn].
    destruct (wf_slot n c i Hwf Hcn Hi) as [a Ha].
    unfold slot_value in *. rewrite Ha in *.
    rewrite Hin by (apply elem_of_slots_at; eauto). clear -Hne. set_solver.
  - intros a. rewrite Hg2. case_decide as Ha; [|done].
    rewrite (Hin a Ha). set_solver.
Qed.

(** X7.  A sequence of calls of [constrain_slot] only drops chains and
    letters: the chains left are chains of before, in the same order, no
    set has gained a letter, and a set that is in no chain is as before. *)
Theorem constraints_only_narrow n h n' h' :
  constrained n h n' h' →
  chains n' `sublist_of` chains n ∧ length n' = length n ∧
  (∀ a, get h' a ⊆ get h a) ∧
  (∀ a, (∀ c, c ∈ chains n → a ∉ chain_addrs c) → get h' a = get h a).
Proof.
  intros Hc. destruct (constrained_frame _ _ _ _ Hc) as (_ & Hl & _ & _ & Hs & Hf).
  split; [|done]. clear -Hc.
  induction Hc as [n h|n h index charset n1 h1 n2 h2 Hc Hs IH]; [done|].
  destruct (constrain_slot_ok _ _ _ _ _ _ Hc) as (Hch & _).
  etrans; [exact IH|]. rewrite Hch. apply sublist_filter.
Qed.

(** *** [__init__] *)

(** X8.  The constructor only creates sets: it leaves every set that
    existed as it was, every set of the chains is new, and no two chains
    share a set. *)
Theorem init_builds_new_sets regex length alphabet h n h' :
  init regex length alphabet h = Ok (n, h') →
  (∀ a, (a < next h)%N → get h' a = get h a) ∧
  (∀ c a, c ∈ chains n → a ∈ chain_addrs c → (next h ≤ a < next h')%N) ∧
  (∀ c d a, c ∈ chains n → d ∈ chains n →
            a ∈ chain_addrs c → a ∈ chain_addrs d → c = d).
Proof.
  intros Hi. destruct (init_spec _ _ _ _ _ _ Hi) as (_ & _ & _ & [_ E] & L).
  split; [exact E|]. split.
  - intros c a Hc Ha. by eapply layered_bounds.
  - by apply (layered_separate _ _ _ L).
Qed.

(** X9.  The empty regex: [NFSM("", 0, A)] has the empty chain, and
    [match] accepts the empty string only; for any other length
    [NFSM("", L, A)] has no chain. *)
Theorem empty_regex alphabet h :
  (∃ n, init "" 0 alphabet h = Ok (n, h) ∧ chains n = [[]] ∧
        ∀ matchstr, ∃ b h', match_ matchstr n h = Ok (b, h') ∧
                            (b = true ↔ matchstr = ""%string)) ∧
  (∀ length, length ≠ 0%nat → init "" length alphabet h = Ok (mk [] length alphabet, h)).
Proof.
  split.
  - eexists. split; [reflexivity|]. split; [reflexivity|]. intros matchstr.
    destruct (match_effect matchstr (mk [[]] 0 alphabet) h) as (b & h' & Hm & _ & Hb).
    { intros c ->%list_elem_of_singleton. by split. }
    { intros c ->%list_elem_of_singleton. constructor. }
    exists b, h'. split; [exact Hm|]. rewrite Hb. cbn [length chains]. split.
    + intros [Hl _]. by destruct matchstr.
    + intros ->. split; [done|]. exists []. split; [by left|]. by split.
  - intros length Hl. unfold init. cbn. by rewrite decide_False.
Qed.

(** *** The properties on [NFSM("(.)\1", 2, "ABC")] *)

Lemma backref_length n h :
  init "(.)\1" 2 abc empty_heap = Ok (n, h) → (0 < length n)%nat.
Proof. intros Hi. vm_compute in Hi. injection Hi as <- <-. cbn. lia. Qed.

Lemma match_leaves_matches_witness :
  ∃ n h b1 h1 b2 h2 h2',
    init "(.)\1" 2 abc empty_heap = Ok (n, h) ∧
    match_ "AB" n h = Ok (b1, h1) ∧ match_ "AA" n h1 = Ok (b2, h2) ∧
    match_ "AA" n h = Ok (b2, h2').
Proof.
  destruct (init "(.)\1" 2 abc empty_heap) as [[n h]| |] eqn:Hi;
    [|by vm_compute in Hi..].
  destruct (Examples.backref_wf n h Hi) as [Hwf Hv].
  destruct (match_leaves_matches "AB" "AA" n h Hwf Hv)
    as (b1 & h1 & b2 & h2 & h2' & H1 & H2 & H3).
  by exists n, h, b1, h1, b2, h2, h2'.
Defined.

Lemma peek_slot_covers_matches_witness :
  ∃ n h P, init "(.)\1" 2 abc empty_heap = Ok (n, h) ∧
           peek_slot 0 n h = Ok P ∧ "A"%char ∈ P.
Proof.
  destruct (init "(.)\1" 2 abc empty_heap) as [[n h]| |] eqn:Hi;
    [|by vm_compute in Hi..].
  destruct (Examples.backref_wf n h Hi) as [Hwf Hv].
  assert (∃ h', match_ "AA" n h = Ok (true, h')) as [h' Hm].
  { vm_compute in Hi. injection Hi as <- <-. eexists. vm_compute. reflexivity. }
  destruct (peek_slot_covers_matches "AA" n h h' 0 "A" Hwf Hv Hm eq_refl)
    as (P & HP & Hin).
  by exists n, h, P.
Defined.

Lemma peek_after_constrain_witness :
  ∃ n h P n' h',
    init "(.)\1" 2 abc empty_heap = Ok (n, h) ∧
    peek_slot 0 n h = Ok P ∧ constrain_slot 0 {["A"%char]} n h = Ok (n', h') ∧
    peek_slot 0 n' h' = Ok (P ∩ {["A"%char]}).
Proof.
  destruct (init "(.)\1" 2 abc empty_heap) as [[n h]| |] eqn:Hi;
    [|by vm_compute in Hi..].
  destruct (Examples.backref_wf n h Hi) as [Hwf Hv].
  destruct (peek_after_constrain 0 {["A"%char]} n h Hwf (backref_length n h Hi))
    as (P & n' & h' & H1 & H2 & H3).
  by exists n, h, P, n', h'.
Defined.

Lemma constrain_with_empty_set_witness :
  ∃ n h n' h',
    init "(.)\1" 2 abc empty_heap = Ok (n, h) ∧
    constrain_slot 0 ∅ n h = Ok (n', h') ∧ chains n' = [] ∧
    (∀ j, peek_slot j n' h' = Ok ∅) ∧
    (∀ matchstr, ∃ h'', match_ matchstr n' h' = Ok (false, h'')).
Proof.
  destruct (init "(.)\1" 2 abc empty_heap) as [[n h]| |] eqn:Hi;
    [|by vm_compute in Hi..].
  destruct (Examples.backref_wf n h Hi) as [Hwf Hv].
  destruct (constrain_with_empty_set 0 n h Hwf (backref_length n h Hi))
    as (n' & h' & H1 & H2 & H3 & H4).
  by exists n, h, n', h'.
Defined.

Lemma constrain_then_match_witness :
  ∃ n h h3,
    init "(.)\1" 2 abc empty_heap = Ok (n, h) ∧
    (chains n ≠ [] → ∃ ch, list_ascii_of_string "AA" !! 0%nat = Some ch ∧
                           ch ∈ ({["A"%char]} : gset ascii)) ∧
    match_ "AA" n h = Ok (true, h3).
Proof.
  destruct (init "(.)\1" 2 abc empty_heap) as [[n h]| |] eqn:Hi;
    [|by vm_compute in Hi..].
  destruct (Examples.backref_wf n h Hi) as [Hwf Hv].
  assert (∃ n' h' h'', constrain_slot 0 {["A"%char]} n h = Ok (n', h') ∧
                       match_ "AA" n' h' = Ok (true, h'')) as (n' & h' & h'' & Hc & Hm).
  { vm_compute in Hi. injection Hi as <- <-. eexists _, _, _.
    split; [vm_compute; reflexivity|]. vm_compute. reflexivity. }
  destruct (constrain_then_match 0 {["A"%char]} "AA" n h n' h' h'' Hwf Hv Hc Hm)
    as (H1 & h3 & H3).
  by exists n, h, h3.
Defined.

Lemma constrain_slot_idempotent_witness :
  ∃ n h n1 h1 n2 h2,
    init "(.)\1" 2 abc empty_heap = Ok (n, h) ∧
    constrain_slot 0 {["A"%char]} n h = Ok (n1, h1) ∧
    constrain_slot 0 {["A"%char]} n1 h1 = Ok (n2, h2) ∧
    chains n2 = chains n1 ∧ ∀ a, get h2 a = get h1 a.
Proof.
  destruct (init "(.)\1" 2 abc empty_heap) as [[n h]| |] eqn:Hi;
    [|by vm_compute in Hi..].
  destruct (Examples.backref_wf n h Hi) as [Hwf Hv].
  destruct (constrain_slot_idempotent 0 {["A"%char]} n h Hwf (backref_length n h Hi))
    as (n1 & h1 & n2 & h2 & H1 & H2 & H3 & H4).
  by exists n, h, n1, h1, n2, h2.
Defined.

Lemma constraints_only_narrow_witness :
  ∃ n h n' h',
    init "(.)\1" 2 abc empty_heap = Ok (n, h) ∧
    constrain_slot 0 {["A"%char]} n h = Ok (n', h') ∧
    chains n' `sublist_of` chains n ∧ length n' = length n ∧
    (∀ a, get h' a ⊆ get h a) ∧
    (∀ a, (∀ c, c ∈ chains n → a ∉ chain_addrs c) → get h' a = get h a).
Proof.
  destruct (init "(.)\1" 2 abc empty_heap) as [[n h]| |] eqn:Hi;
    [|by vm_compute in Hi..].
  destruct (Examples.backref_wf n h Hi) as [Hwf Hv].
  destruct (constrain_slot_effect 0 {["A"%char]} n h Hwf (backref_length n h Hi))
    as (h' & Hc & _).
  eexists n, h, _, h'. split; [done|]. split; [exact Hc|].
  apply constraints_only_narrow.
  eapply constrained_step; [exact Hc|apply constrained_refl].
Defined.

Lemma init_builds_new_sets_witness :
  ∃ n h,
    init "(.)\1" 2 abc empty_heap = Ok (n, h) ∧
    (∀ a, (a < next empty_heap)%N → get h a = get empty_heap a) ∧
    (∀ c a, c ∈ chains n → a ∈ chain_addrs c → (next empty_heap ≤ a < next h)%N) ∧
    (∀ c d a, c ∈ chains n → d ∈ chains n →
              a ∈ chain_addrs c → a ∈ chain_addrs d → c = d).
Proof.
  destruct (init "(.)\1" 2 abc empty_heap) as [[n h]| |] eqn:Hi;
    [|by vm_compute in Hi..].
  exists n, h. split; [done|].
  exact (init_builds_new_sets "(.)\1" 2 abc empty_heap n h Hi).
Defined.

End Properties.

(** ** Copies of chains, and words *)

Module Words.
Import NFSM NFSMFacts Alloc Construction Copies Sequences Matching Backreferences
  Parsing Driver Properties.
Local Open Scope N_scope.

(** The items of [c'] are sets that hold, in [h'], what the sets of [c]
    hold in [h], item by item. *)
Definition copies (h h' : heap) (c c' : chain) : Prop :=
  Forall2 (λ x y, ∃ a b, x = ISet a ∧ y = ISet b ∧ get h' b = get h a) c c'.

Lemma copies_app h h' c1 c1' c2 c2' :
  copies h h' c1 c1' → copies h h' c2 c2' → copies h h' (c1 ++ c2) (c1' ++ c2').
Proof. apply Forall2_app. Qed.

(** [copies] when both stores grow: the old sets are below [next h1], the
    new ones below [next h1']. *)
Lemma copies_extends h0 h1 h1' h2 c c' :
  copies h1 h1' c c' → extends h0 h1 → extends h1' h2 →
  Forall (λ a, a < next h0) (chain_addrs c) →
  Forall (λ b, b < next h1') (chain_addrs c') →
  copies h0 h2 c c'.
Proof.
  intros Hc [_ E0] [_ E2]. induction Hc as [|x y c c' (a & b & -> & -> & Hg) Hc IH];
    intros Ha Hb; [constructor|].
  rewrite chain_addrs_cons in Ha, Hb. cbn in Ha, Hb.
  apply Forall_cons_1 in Ha as [Ha Ha'], Hb as [Hb Hb'].
  constructor; [|by apply IH]. exists a, b. split; [done|]. split; [done|].
  by rewrite E2, Hg, E0.
Qed.

Lemma copy_items_copies c : ∀ h c' h',
  copy_items c h = (c', h') →
  Forall is_set c → Forall (λ a, a < next h) (chain_addrs c) →
  copies h h' c c' ∧ NoDup (chain_addrs c').
Proof.
  induction c as [|x c IH]; intros h c' h' Hc Hs Hv; cbn [copy_items] in Hc.
  { simplify_eq. split; constructor. }
  apply Forall_cons_1 in Hs as [[a ->] Hs].
  rewrite chain_addrs_cons in Hv. cbn in Hv. apply Forall_cons_1 in Hv as [Ha Hv].
  rewrite deepcopy_set in Hc. set (h1 := (alloc (get h a) h).2) in Hc.
  destruct (copy_items c h1) as [ys h2] eqn:Hys. simplify_eq.
  pose proof (extends_alloc (get h a) h) as E1. fold h1 in E1.
  destruct (copy_items_spec _ _ _ _ Hys) as [E2 F2].
  destruct (IH h1 ys h' Hys Hs) as [Hcp Hnd].
  { eapply Forall_impl; [exact Hv|]. intros b. cbn. lia. }
  split.
  - constructor.
    + exists a, (next h). split; [done|]. split; [done|].
      destruct E2 as [_ E2]. rewrite E2 by (cbn; lia).
      apply (get_alloc_new (get h a) h).
    + eapply (copies_extends h h1 h' h'); [exact Hcp|exact E1|apply extends_refl|exact Hv|].
      eapply Forall_impl; [exact F2|]. intros b. cbn. lia.
  - rewrite chain_addrs_cons. cbn. constructor; [|done].
    intros Hin. unfold fresh in F2. rewrite Forall_forall in F2. apply F2 in Hin. cbn in Hin. lia.
Qed.

(** The repetitions of [_copy_chain]: each is a copy of the chain. *)
Lemma _copy_chain_repeats c repeat h c' h' :
  _copy_chain c repeat h = (c', h') →
  Forall is_set c → Forall (λ a, a < next h) (chain_addrs c) →
  len c' = (repeat * len c)%nat ∧
  copies h h' (concat (replicate repeat c)) c' ∧
  NoDup (chain_addrs c') ∧
  Forall (λ b, next h ≤ b < next h') (chain_addrs c') ∧
  (∀ a, a < next h → get h' a = get h a).
Proof.
  intros Hc Hs Hv.
  pose proof (_copy_chain_length c repeat h) as Hl. rewrite Hc in Hl.
  destruct (_copy_chain_spec _ _ _ _ _ Hc) as [[Hn E] F].
  split; [exact Hl|]. split; [|split; [|split; [exact F|exact E]]];
    clear Hl Hn E F; revert h c' h' Hc Hv;
    induction repeat as [|k IH]; intros h c' h' Hc Hv; cbn [_copy_chain] in Hc;
    try (simplify_eq; constructor).
  - destruct (copy_items c h) as [c1 h1] eqn:H1.
    destruct (_copy_chain c k h1) as [c2 h2] eqn:H2. simplify_eq.
    destruct (copy_items_copies _ _ _ _ H1 Hs Hv) as [Hcp1 _].
    destruct (copy_items_spec _ _ _ _ H1) as [E1 F1].
    destruct (_copy_chain_spec _ _ _ _ _ H2) as [E2 F2].
    cbn [replicate concat]. apply copies_app.
    + eapply (copies_extends h h h1 h'); [exact Hcp1|apply extends_refl|exact E2|exact Hv|].
      eapply Forall_impl; [exact F1|]. intros b. cbn. lia.
    + assert (Forall (λ a, a < next h1) (chain_addrs c)) as Hv1.
      { eapply Forall_impl; [exact Hv|]. intros b. cbn. destruct E1. lia. }
      eapply (copies_extends h h1 h' h'); [by eapply IH|exact E1|apply extends_refl| |].
      * clear -Hv. induction k as [|k IHk]; [constructor|].
        cbn [replicate concat]. rewrite chain_addrs_app. by apply Forall_app.
      * eapply Forall_impl; [exact F2|]. intros b. cbn. lia.
  - destruct (copy_items c h) as [c1 h1] eqn:H1.
    destruct (_copy_chain c k h1) as [c2 h2] eqn:H2. simplify_eq.
    destruct (copy_items_copies _ _ _ _ H1 Hs Hv) as [_ Hnd1].
    destruct (copy_items_spec _ _ _ _ H1) as [E1 F1].
    destruct (_copy_chain_spec _ _ _ _ _ H2) as [E2 F2].
    rewrite chain_addrs_app. apply NoDup_app. split; [exact Hnd1|]. split.
    + intros b Hb1 Hb2. unfold fresh in F1, F2. rewrite Forall_forall in F1, F2.
      apply F1 in Hb1. apply F2 in Hb2. cbn in *. lia.
    + eapply IH; [exact H2|].
      eapply Forall_impl; [exact Hv|]. intros b. cbn. destruct E1. lia.
Qed.

(** X10.  [_copy_chain(chain, repeat)] on a chain of sets returns
    [repeat] times as many items, all of them new sets, no two the same,
    that hold one repetition after the other the letters of the sets of
    [chain]; it leaves the sets that existed as they were. *)
Theorem _copy_chain_copies c repeat h c' h' :
  _copy_chain c repeat h = (c', h') →
  Forall is_set c → Forall (λ a, a < next h) (chain_addrs c) →
  len c' = (repeat * len c)%nat ∧
  copies h h' (concat (replicate repeat c)) c' ∧
  NoDup (chain_addrs c') ∧
  Forall (λ b, next h ≤ b < next h') (chain_addrs c') ∧
  (∀ a, a < next h → get h' a = get h a).
Proof. intros Hc Hs Hv. by eapply _copy_chain_repeats. Qed.

(** Two copies of the chain of one set that holds A, B and C. *)
Lemma _copy_chain_copies_witness :
  let h := (alloc abc empty_heap).2 in
  ∃ c' h', _copy_chain [ISet 0] 2 h = (c', h') ∧ len c' = 2%nat ∧
           copies h h' [ISet 0; ISet 0] c' ∧ NoDup (chain_addrs c').
Proof.
  intros h. destruct (_copy_chain [ISet 0] 2 h) as [c' h'] eqn:Hc.
  destruct (_copy_chain_copies [ISet 0] 2 h c' h' Hc) as (H1 & H2 & H3 & _).
  - repeat constructor. by eexists.
  - repeat constructor.
  - by exists c', h'.
Defined.

(** *** A regex that is a word *)

(** The chain [c] holds the word [w]: slot by slot, a set with the one
    letter. *)
Definition spells (h : heap) (c : chain) (w : list ascii) : Prop :=
  Forall2 (λ x ch, ∃ a, x = ISet a ∧ get h a = {[ch]}) c w.

Lemma copies_spells h h' c c' w : copies h h' c c' → spells h c w → spells h' c' w.
Proof.
  intros Hc. revert w. induction Hc as [|x y c c' (a & b & -> & -> & Hg) Hc IH];
    intros w Hs; inversion Hs as [|? ch ? w' (a' & Ha & Hch) Hs']; subst; [constructor|].
  constructor; [|by apply IH]. exists b. split; [done|]. simplify_eq. by rewrite Hg.
Qed.

Lemma spells_sets h c w : spells h c w → Forall is_set c.
Proof. induction 1 as [|x ch c w (a & -> & _) _ IH]; constructor; [by eexists|done]. Qed.

(** [_copy_chain(chain1) + _copy_chain(chain2)] on chains of sets: new
    sets, no two the same, that hold what the sets of the chains hold. *)
Lemma copy_concat_one c1 c2 h c h' :
  copy_concat c1 1 c2 h = (c, h') →
  Forall is_set c1 → Forall is_set c2 →
  Forall (λ a, a < next h) (chain_addrs c1) → Forall (λ a, a < next h) (chain_addrs c2) →
  copies h h' (c1 ++ c2) c ∧ NoDup (chain_addrs c).
Proof.
  unfold copy_concat. cbn [_copy_chain]. intros Hc S1 S2 V1 V2.
  destruct (copy_items c1 h) as [a h1] eqn:H1.
  destruct (copy_items c2 h1) as [b h2] eqn:H2. simplify_eq.
  rewrite !app_nil_r.
  destruct (copy_items_spec _ _ _ _ H1) as [E1 F1].
  destruct (copy_items_spec _ _ _ _ H2) as [E2 F2].
  destruct (copy_items_copies _ _ _ _ H1 S1 V1) as [C1 N1].
  assert (Forall (λ a, a < next h1) (chain_addrs c2)) as V2'.
  { eapply Forall_impl; [exact V2|]. intros x. cbn. destruct E1. lia. }
  destruct (copy_items_copies _ _ _ _ H2 S2 V2') as [C2 N2].
  split.
  - apply copies_app.
    + eapply (copies_extends h h h1 h'); [exact C1|apply extends_refl|exact E2|exact V1|].
      eapply Forall_impl; [exact F1|]. intros x. cbn. lia.
    + eapply (copies_extends h h1 h' h'); [exact C2|exact E1|apply extends_refl|exact V2|].
      eapply Forall_impl; [exact F2|]. intros x. cbn. lia.
  - rewrite chain_addrs_app. apply NoDup_app. split; [done|]. split; [|done].
    intros x Hx1 Hx2. unfold fresh in F1, F2. rewrite Forall_forall in F1, F2.
    apply F1 in Hx1. apply F2 in Hx2. cbn in *. lia.
Qed.

(** The parser yields one chain for a word: new sets, no two the same,
    that hold its letters one by one. *)
Lemma parse_word length alphabet : ∀ fuel regex h,
  (len regex < fuel)%nat → literal alphabet regex →
  ∃ c h', _parse_regex_part length alphabet fuel regex h = Ok ([c], h') ∧
          spells h' c regex ∧ NoDup (chain_addrs c) ∧
          extends h h' ∧ fresh h h' (chain_addrs c).
Proof.
  induction fuel as [|fuel IH]; intros regex h Hlen Hl; [lia|].
  destruct regex as [|ch r'].
  { exists [], h. split; [done|]. split; [constructor|]. split; [constructor|].
    split; [apply extends_refl|constructor]. }
  pose proof (literal_flat _ _ Hl) as Hf.
  apply Forall_cons_1 in Hl as [[Hc Hop] Hl'].
  rewrite parse_item by auto. cbv zeta. cbn in Hlen.
  rewrite decide_True by done. set (h1 := (alloc {[ch]} h).2).
  pose proof (extends_alloc {[ch]} h) as E1. fold h1 in E1.
  destruct (IH r' h1) as (c' & h2 & Hr & Hsp & Hnd & E2 & F2); [lia|done|].
  assert (∃ cc h3, (try (rest, hr) ← _parse_regex_part length alphabet fuel r' h1;
                    Ok (unquantified false [[ISet (next h)]] rest hr))
                   = Ok ([cc], h3) ∧ spells h3 cc (ch :: r') ∧ NoDup (chain_addrs cc) ∧
                   extends h h3 ∧ fresh h h3 (chain_addrs cc))
    as (cc & h3 & Hu & Hrest).
  { rewrite Hr. cbn [rbind]. unfold unquantified. cbn [for_each].
    destruct (copy_concat [ISet (next h)] 1 c' h2) as [cc h3] eqn:Hcc.
    exists cc, h3. split; [by cbn|].
    destruct (copy_concat_spec _ _ _ _ _ _ Hcc) as [E3 F3].
    destruct (copy_concat_one _ _ _ _ _ Hcc) as [Hcp Hnd'].
    - repeat constructor. by eexists.
    - by eapply spells_sets.
    - repeat constructor. assert (next h1 = N.succ (next h)) as Hn1 by done.
      destruct E2 as [E2 _]. lia.
    - eapply Forall_impl; [exact F2|]. intros x. cbn. lia.
    - split; [|split; [done|split]].
      + eapply copies_spells; [exact Hcp|]. constructor; [|done].
        exists (next h). split; [done|]. destruct E2 as [_ E2].
        rewrite E2 by (cbn; lia). apply (get_alloc_new {[ch]} h).
      + eapply extends_trans; [exact E1|]. by eapply extends_trans.
      + eapply fresh_mono; [| |exact F3]; [|lia].
        destruct E1 as [E1 _], E2 as [E2 _]. lia. }
  exists cc, h3. split; [|done].
  destruct r' as [|q r'']; [done|].
  apply Forall_cons_1 in Hl' as [[_ Hq] _].
  rewrite !decide_False; [done|..]; intros ->; apply Hq; set_solver.
Qed.

(** Two slots of a chain of sets that are all different hold the same
    set only if they are the same slot. *)
Lemma spells_slots h c w : ∀ i j,
  spells h c w → NoDup (chain_addrs c) → slot c i = slot c j → w !! i = w !! j.
Proof.
  intros i j Hs. revert i j.
  induction Hs as [|x ch c w (a & -> & Hg) Hs IH]; intros i j Hnd Hij; [done|].
  rewrite chain_addrs_cons in Hnd. cbn in Hnd. apply NoDup_cons in Hnd as [Hn Hnd].
  destruct i as [|i], j as [|j]; [done| | |by apply IH].
  - exfalso. apply Hn. apply (slot_addr c j). symmetry. exact Hij.
  - exfalso. apply Hn. apply (slot_addr c i). exact Hij.
Qed.

Lemma spells_accepts h c w s :
  spells h c w → NoDup (chain_addrs c) → len s = len w → accepts h c s ↔ s = w.
Proof.
  intros Hs Hnd Hlen. split.
  - intros [A1 _]. apply list_eq. intros i.
    destruct (s !! i) as [ch|] eqn:Hi.
    + destruct (lookup_lt_is_Some_2 w i) as [wi Hwi].
      { rewrite <- Hlen. by eapply lookup_lt_Some. }
      destruct (Forall2_lookup_r _ _ _ _ _ Hs Hwi) as (x & Hx & a & -> & Hg).
      specialize (A1 i ch Hi). unfold slot_value, slot in A1. rewrite Hx, Hg in A1.
      apply elem_of_singleton in A1. by subst.
    + symmetry. apply lookup_ge_None. rewrite <- Hlen. by apply lookup_ge_None.
  - intros ->. split.
    + intros i ch Hi.
      destruct (Forall2_lookup_r _ _ _ _ _ Hs Hi) as (x & Hx & a & -> & Hg).
      unfold slot_value, slot. rewrite Hx, Hg. by apply elem_of_singleton.
    + intros i j. by apply (spells_slots h c).
Qed.

(** X11.  A regex that is a word of letters of the alphabet, none of them
    an operator, gives the NFSM of the length of the word that matches
    the word and no other string. *)
Theorem word_matches_itself regex alphabet h :
  literal alphabet (list_ascii_of_string regex) →
  ∃ n h', init regex (len (list_ascii_of_string regex)) alphabet h = Ok (n, h') ∧
          ∀ matchstr, ∃ b h'', match_ matchstr n h' = Ok (b, h'') ∧
                               (b = true ↔ matchstr = regex).
Proof.
  intros Hl. unfold init. cbv zeta. set (r := list_ascii_of_string regex) in *.
  destruct (parse_word (len r) alphabet (S (len r)) r h) as (c & h' & -> & Hs & Hnd & E & F);
    [lia|done|].
  pose proof (spells_sets _ _ _ Hs) as Hsets.
  assert (len c = len r) as Hlc by (by eapply Forall2_length).
  cbn [rbind rmapM]. rewrite flatten_dereference_sets by done. cbn [rbind].
  rewrite filter_cons, decide_True by done. rewrite filter_nil.
  eexists _, h'. split; [done|]. intros matchstr.
  destruct (match_effect matchstr (mk [c] (len r) alphabet) h') as (b & h'' & Hm & _ & Hb).
  { intros d ->%list_elem_of_singleton. by split. }
  { intros d ->%list_elem_of_singleton. eapply Forall_impl; [exact F|]. intros x. cbn. lia. }
  exists b, h''. split; [exact Hm|]. rewrite Hb. cbn [length chains]. split.
  - intros (Hlen & d & ->%list_elem_of_singleton & Hacc).
    apply (spells_accepts h' c r) in Hacc; [|done..].
    rewrite <- (string_of_list_ascii_of_string matchstr), Hacc.
    apply string_of_list_ascii_of_string.
  - intros ->. split; [done|]. exists c. split; [by left|].
    by apply (spells_accepts h' c r).
Qed.

Lemma word_matches_itself_witness :
  ∃ n h', init "ABBA" 4 abc empty_heap = Ok (n, h') ∧
          ∀ matchstr, ∃ b h'', match_ matchstr n h' = Ok (b, h'') ∧
                               (b = true ↔ matchstr = "ABBA"%string).
Proof.
  apply (word_matches_itself "ABBA" abc empty_heap).
  unfold literal. apply (bool_decide_unpack _). vm_compute. exact I.
Defined.

End Words.

(** ** Classes and references *)

Module Syntax.
Import NFSM NFSMFacts Alloc Construction Copies Sequences Matching Backreferences
  Parsing Driver Properties Words.

(** *** Classes *)

(** A class with no closing bracket, in a regex with no parenthesis and
    no bar: the call reads the class up to the last character but one
    and calls itself on the whole regex. *)
Lemma open_class_recursion length alphabet c1 w : ∀ fuel h,
  "["%char ∉ alphabet → flat ("["%char :: c1 :: w) → "]"%char ∉ c1 :: w →
  _parse_regex_part length alphabet fuel ("["%char :: c1 :: w) h = Raise RecursionError.
Proof.
  intros fuel h Ha Hf Hw. revert h. induction fuel as [|fuel IH]; intros h; [done|].
  rewrite parse_S. cbv zeta. rewrite (flat_scan _ Hf).
  rewrite decide_False by (intros ?; done).
  destruct (read_item_open length alphabet fuel c1 w h Ha Hw) as (x & h1 & ->).
  cbn [rbind]. unfold read_rest. cbv zeta. change (-1 + 1)%Z with 0%Z.
  destruct (Z.ltb_spec 0 (Z.of_nat (len ("["%char :: c1 :: w)))) as [_|Hl];
    [|cbn in Hl; lia].
  change (("["%char :: c1 :: w) !! Z.to_nat 0) with (Some "["%char).
  rewrite !decide_False by done. rewrite py_from_drop by lia.
  change (drop (Z.to_nat 0) ("["%char :: c1 :: w)) with ("["%char :: c1 :: w).
  by rewrite IH.
Qed.

(** X12.  A class that is not closed never builds.  A regex in which a
    class is open at the end makes the constructor raise; if the regex is
    the bracket alone it raises [IndexError]; if it is the bracket and
    more, with no parenthesis and no bar, the parser calls itself on the
    same regex again and again, whatever the depth it may recurse to,
    and the constructor raises [RecursionError]. *)
Theorem unclosed_class_never_builds regex length alphabet h :
  let r := list_ascii_of_string regex in
  (open_class alphabet false r = true → ∃ e, init regex length alphabet h = Raise e) ∧
  ("["%char ∉ alphabet → r = ["["%char] → init regex length alphabet h = Raise IndexError) ∧
  ("["%char ∉ alphabet → "]"%char ∉ r → flat r →
   ∀ c1 w, r = "["%char :: c1 :: w →
     init regex length alphabet h = Raise RecursionError ∧
     ∀ fuel, _parse_regex_part length alphabet fuel r h = Raise RecursionError).
Proof.
  intros r. unfold init. cbv zeta. fold r. split; [|split].
  - intros Ho. destruct (bad_raises length alphabet (S (len r)) r h) as [e ->];
      [by left|by exists e].
  - intros Ha ->. cbn [Datatypes.length]. rewrite parse_S. cbv zeta.
    assert (scan ["["%char] 0 0 = NoSplit 0) as -> by (vm_compute; reflexivity).
    rewrite decide_False by (intros ?; done). unfold read_item.
    rewrite decide_False by done. rewrite decide_False by done.
    by rewrite decide_True.
  - intros Ha Hw Hf c1 w Hr. rewrite Hr in Hw, Hf |- *.
    assert (∀ fuel, _parse_regex_part length alphabet fuel ("["%char :: c1 :: w) h
                    = Raise RecursionError) as Hrec.
    { intros fuel. apply open_class_recursion; [done..|].
      by apply not_elem_of_cons in Hw as [_ ?]. }
    split; [by rewrite Hrec|done].
Qed.

Lemma unclosed_class_never_builds_witness :
  (∃ e, init "A|[B" 2 abc empty_heap = Raise e) ∧
  init "[" 1 abc empty_heap = Raise IndexError ∧
  init "[AB" 1 abc empty_heap = Raise RecursionError.
Proof.
  split; [|split].
  - apply (proj1 (unclosed_class_never_builds "A|[B" 2 abc empty_heap)).
    vm_compute. reflexivity.
  - apply (proj1 (proj2 (unclosed_class_never_builds "[" 1 abc empty_heap))).
    + apply (bool_decide_unpack _). vm_compute. exact I.
    + reflexivity.
  - apply (proj2 (proj2 (unclosed_class_never_builds "[AB" 1 abc empty_heap))
             ltac:(apply (bool_decide_unpack _); vm_compute; exact I)
             ltac:(apply (bool_decide_unpack _); vm_compute; exact I)
             ltac:(unfold flat; apply (bool_decide_unpack _); vm_compute; exact I)
             "A"%char ["B"%char] eq_refl).
Defined.

(** The letters a class stands for: those between the brackets, or, when
    the first is a caret, the letters of the alphabet that are not among
    the others. *)
Definition class_letters (alphabet : gset ascii) (w : list ascii) : gset ascii :=
  match w with
  | c :: w' => if decide (c = "^"%char) then alphabet ∖ chars w' else chars w
  | [] => ∅
  end.

(** X13.  A regex that is one class, [[w]], gives the NFSM of length 1 with
    one chain of one set, and the set holds the letters of the class as
    they are written: whether they are letters of the alphabet is not
    looked at. *)
Theorem class_takes_its_letters regex alphabet w h :
  "["%char ∉ alphabet → "]"%char ∉ w → flat w →
  list_ascii_of_string regex = "["%char :: w ++ ["]"%char] →
  ∃ a n h', init regex 1 alphabet h = Ok (n, h') ∧ chains n = [[ISet a]] ∧
            get h' a = class_letters alphabet w ∧
            (∀ b, (b < next h)%N → get h' b = get h b).
Proof.
  intros Ha Hw Hf Hr. unfold init. cbv zeta. rewrite Hr.
  assert (flat ("["%char :: w ++ ["]"%char])) as Hf'.
  { constructor; [set_solver|]. apply Forall_app. split; [done|].
    constructor; [set_solver|constructor]. }
  remember (len ("["%char :: w ++ ["]"%char])) as fuel eqn:Hfuel.
  assert (1 ≤ fuel) as Hfl by (subst fuel; cbn; lia).
  rewrite parse_S. cbv zeta. rewrite (flat_scan _ Hf').
  rewrite decide_False by (intros ?; done).
  destruct (read_item_class 1 alphabet fuel w [] h Ha Hw) as (s & Hitem & Hcar & Hno).
  assert (s = class_letters alphabet w) as ->.
  { destruct w as [|c w']; [by apply Hno|]. cbn [class_letters]. case_decide as Hc.
    - subst c. rewrite Hcar by done. f_equal. f_equal.
      apply (py_slice_middle ["["%char; "^"%char] w' ["]"%char]).
    - apply Hno. cbn. congruence. }
  unfold read_item in Hitem |- *. rewrite Hitem. cbn [rbind].
  unfold read_rest. cbv zeta.
  destruct (Z.ltb_spec (Z.of_nat (S (len w)) + 1)
              (Z.of_nat (len ("["%char :: w ++ ["]"%char])))) as [Hlt|_].
  { cbn in Hlt. rewrite length_app in Hlt. cbn in Hlt. lia. }
  rewrite !decide_False by done. rewrite py_from_drop by lia.
  rewrite drop_ge by (cbn; rewrite length_app; cbn; lia).
  destruct fuel as [|fuel']; [lia|]. cbn [_parse_regex_part rbind].
  unfold unquantified. cbn [for_each].
  set (h1 := (alloc (class_letters alphabet w) h).2).
  destruct (copy_concat [ISet (next h)] 1 [] h1) as [cc h2] eqn:Hcc.
  destruct (copy_concat_spec _ _ _ _ _ _ Hcc) as [E2 _].
  destruct (copy_concat_one _ _ _ _ _ Hcc) as [Hcp _].
  { repeat constructor. by eexists. }
  { constructor. }
  { repeat constructor. cbn. lia. }
  { constructor. }
  rewrite app_nil_r in Hcp.
  inversion Hcp as [|x y l l' (a & b & Hx & -> & Hg) Hl]; subst.
  inversion Hl; subst. simplify_eq.
  cbn [app rbind rmapM]. rewrite flatten_dereference_sets by (repeat constructor; by eexists).
  cbn [rbind]. rewrite filter_cons, decide_True by done.
  eexists b, _, h2. split; [done|]. split; [done|]. split.
  - rewrite Hg. apply (get_alloc_new (class_letters alphabet w) h).
  - intros b' Hb'. destruct E2 as [_ E2]. rewrite E2 by (cbn; lia).
    apply get_alloc_old. lia.
Qed.

Lemma class_takes_its_letters_witness :
  (∃ a n h', init "[XYZ]" 1 abc empty_heap = Ok (n, h') ∧ chains n = [[ISet a]] ∧
             get h' a = chars (list_ascii_of_string "XYZ")) ∧
  (∃ a n h', init "[^AX]" 1 abc empty_heap = Ok (n, h') ∧ chains n = [[ISet a]] ∧
             get h' a = abc ∖ chars (list_ascii_of_string "AX")).
Proof.
  split.
  - destruct (class_takes_its_letters "[XYZ]" abc (list_ascii_of_string "XYZ") empty_heap)
      as (a & n & h' & Hi & Hc & Hg & _).
    + apply (bool_decide_unpack _). vm_compute. exact I.
    + apply (bool_decide_unpack _). vm_compute. exact I.
    + unfold flat. apply (bool_decide_unpack _). vm_compute. exact I.
    + reflexivity.
    + by exists a, n, h'.
  - destruct (class_takes_its_letters "[^AX]" abc (list_ascii_of_string "^AX") empty_heap)
      as (a & n & h' & Hi & Hc & Hg & _).
    + apply (bool_decide_unpack _). vm_compute. exact I.
    + apply (bool_decide_unpack _). vm_compute. exact I.
    + unfold flat. apply (bool_decide_unpack _). vm_compute. exact I.
    + reflexivity.
    + by exists a, n, h'.
Defined.

(** *** Regexes of letters, dots and quantifiers *)

(** X21.  In a regex with no bracket, parenthesis, backslash or bar, a
    character that is no letter of the alphabet, no dot and no quantifier
    makes the constructor raise [ValueError], and no other exception. *)
Theorem stray_character_value_error regex length alphabet h :
  plain (list_ascii_of_string regex) →
  Exists (stray alphabet) (list_ascii_of_string regex) →
  init regex length alphabet h = Raise ValueError.
Proof.
  intros Hp Hs. unfold init. cbv zeta. by rewrite parse_unknown; [|lia|..].
Qed.

Lemma stray_character_value_error_witness :
  init "AB*D" 3 abc empty_heap = Raise ValueError.
Proof.
  apply (stray_character_value_error "AB*D" 3 abc empty_heap).
  - unfold plain. apply (bool_decide_unpack _). vm_compute. exact I.
  - unfold stray. apply (bool_decide_unpack _). vm_compute. exact I.
Defined.

End Syntax.

(** ** The pass that ends the loop *)

Module Stable.
Import NFSM NFSMFacts Alloc Construction Copies Sequences Matching Backreferences
  Regexcrossword Driver.
Local Open Scope N_scope.

(** The cells of a line agree with the regex of the line: the letters of
    cell [k] are among those [peek_slot(k)] returns. *)
Definition agrees (h : heap) (b : binding) : Prop :=
  ∀ (k : nat) cell, b.2 !! k = Some cell →
    ∃ P, peek_slot k b.1.2 h = Ok P ∧ get h cell ⊆ P.

Lemma peek_slot_frame i r h h2 :
  (∀ a, a < next h → get h2 a = get h a) → valid h r →
  peek_slot i r h2 = peek_slot i r h.
Proof. intros Hg Hv. unfold peek_slot. by apply peek_chains_frame. Qed.

(** Step 2 on a line leaves [finished] set only if it was set, no cell of
    the line has lost a letter, and so no set of the store has changed. *)
Lemma narrow_cells_finished cells : ∀ (i : nat) r finished h h',
  narrow_cells i cells r finished h = Ok (true, h') →
  valid h r → Forall (λ a, a < next h) cells →
  finished = true ∧ (∀ a, a < next h → get h' a = get h a) ∧
  ∀ (k : nat) cell, cells !! k = Some cell →
    ∃ P, peek_slot (i + k) r h = Ok P ∧ get h cell ⊆ P.
Proof.
  induction cells as [|cell cells IH]; intros i r finished h h' Hn Hv Hc;
    cbn [narrow_cells] in Hn.
  { simplify_eq. split; [done|]. split; [done|]. intros k cell Hk. done. }
  apply Forall_cons_1 in Hc as [Hcell Hc].
  cbn [alloc] in Hn. set (h1 := mkHeap _ _) in Hn.
  apply rbind_ok in Hn as (candidates & Hp & Hn). cbv zeta in Hn.
  set (h2 := put cell (get h1 cell ∩ candidates) h1) in Hn.
  assert (∀ a, a < next h → get h1 a = get h a) as Hold.
  { intros a Ha. apply (get_alloc_old (get h cell) h). lia. }
  assert (get h1 (next h) = get h cell) as Hnew by apply (get_alloc_new (get h cell) h).
  assert (get h2 cell = get h cell ∩ candidates) as Hcell2.
  { unfold h2. rewrite get_put_eq. by rewrite Hold. }
  assert (get h2 (next h) = get h cell) as Hold2.
  { unfold h2. rewrite get_put_ne by lia. done. }
  assert (peek_slot i r h = Ok candidates) as Hp0.
  { rewrite <- Hp. symmetry. by apply peek_slot_frame. }
  destruct (IH (S i) r _ h2 h' Hn) as (Hf & Hfr & Hsl).
  { intros c Hin. eapply Forall_impl; [by apply Hv|]. intros a. cbn. lia. }
  { eapply Forall_impl; [exact Hc|]. intros a. cbn. lia. }
  case_decide as Hne; [done|]. subst finished.
  assert (get h cell = get h cell ∩ candidates) as Heq.
  { rewrite <- Hcell2, <- Hold2. by destruct (decide (get h2 (next h) = get h2 cell)). }
  assert (∀ a, a < next h → get h2 a = get h a) as Hfr2.
  { intros a Ha. destruct (decide (a = cell)) as [->|Hac].
    - by rewrite Hcell2, <- Heq.
    - unfold h2. rewrite get_put_ne by done. by apply Hold. }
  split; [done|]. split.
  { intros a Ha. rewrite Hfr by (cbn; lia). by apply Hfr2. }
  intros [|k] cell' Hk.
  - cbn in Hk. simplify_eq. exists candidates. rewrite Nat.add_0_r.
    split; [done|]. clear -Heq. set_solver.
  - cbn in Hk. destruct (Hsl k cell' Hk) as (P & HP & Hsub).
    exists P. rewrite Nat.add_succ_r. rewrite <- (peek_slot_frame _ r h h2) by done.
    split; [done|]. rewrite <- Hfr2; [done|].
    rewrite Forall_forall in Hc. apply Hc. by eapply list_elem_of_lookup_2.
Qed.

Lemma agrees_frame h h' b :
  (∀ a, a < next h → get h' a = get h a) → binding_wf h b → agrees h b → agrees h' b.
Proof.
  intros Hfr (Hw & Hv & Hl & Hc) Hb k cell Hk. destruct (Hb k cell Hk) as (P & HP & Hsub).
  exists P. rewrite (peek_slot_frame _ _ h h') by done. split; [done|].
  rewrite Hfr; [done|]. rewrite Forall_forall in Hc. apply Hc.
  by eapply list_elem_of_lookup_2.
Qed.

Lemma step2_finished regexes : ∀ finished h h',
  step2 regexes finished h = Ok (true, h') → Forall (binding_wf h) regexes →
  finished = true ∧ (∀ a, a < next h → get h' a = get h a) ∧ Forall (agrees h) regexes.
Proof.
  induction regexes as [|[[s r] cells] regexes IH]; intros finished h h' Hs Hb;
    cbn [step2] in Hs.
  { simplify_eq. split; [done|]. split; [done|]. constructor. }
  apply Forall_cons_1 in Hb as [Hb1 Hb].
  pose proof Hb1 as (Hw & Hv & Hl & Hc). cbn in Hw, Hv, Hl, Hc.
  apply rbind_ok in Hs as ([f1 h1] & Hn & Hs).
  pose proof (narrow_cells_next _ _ _ _ _ _ _ Hn) as Hnext.
  assert (Forall (binding_wf h1) regexes) as Hb'.
  { eapply Forall_impl; [exact Hb|]. intros b. by apply binding_wf_mono. }
  destruct (IH f1 h1 h' Hs Hb') as (-> & Hfr1 & Hag).
  destruct (narrow_cells_finished _ _ _ _ _ _ Hn Hv Hc) as (-> & Hfr & Hsl).
  split; [done|]. split.
  { intros a Ha. rewrite Hfr1 by lia. by apply Hfr. }
  constructor; [exact Hsl|].
  clear -Hb Hag Hfr Hnext. induction Hag as [|b bs Hag1 _ IHb]; [constructor|].
  apply Forall_cons_1 in Hb as [Hb1 Hb]. constructor; [|by apply IHb].
  pose proof Hb1 as (Hw & Hv & Hl & Hc).
  intros k cell Hk. destruct (Hag1 k cell Hk) as (P & HP & Hsub).
  exists P. rewrite <- (peek_slot_frame _ _ h h1) by done. split; [done|].
  rewrite <- Hfr; [done|]. rewrite Forall_forall in Hc. apply Hc.
  by eapply list_elem_of_lookup_2.
Qed.

(** X14.  The pass that ends the loop changes no cell in its step 2, and
    leaves the board in agreement with every regex: each cell of each
    line holds only letters that [peek_slot] of the regex of the line
    returns for its index. *)
Theorem finished_pass_is_stable regexes h regexes' h' :
  Forall (binding_wf h) regexes →
  round regexes h = Ok (true, regexes', h') →
  Forall (agrees h') regexes' ∧
  ∃ h1, step1 regexes h = Ok (regexes', h1) ∧ ∀ a, a < next h1 → get h' a = get h1 a.
Proof.
  intros Hb Hr. unfold round in Hr.
  destruct (step1_ok regexes h Hb) as (rs & h1 & Hs1 & Hn1 & Hb1 & _).
  rewrite Hs1 in Hr. cbn [rbind] in Hr.
  apply rbind_ok in Hr as ([f h2] & Hs2 & Hr). simplify_eq.
  destruct (step2_finished _ _ _ _ Hs2 Hb1) as (_ & Hfr & Hag).
  split; [|by exists h1].
  clear -Hb1 Hag Hfr. induction Hag as [|b bs Hag1 _ IHb]; [constructor|].
  apply Forall_cons_1 in Hb1 as [Hb1 Hb]. constructor; [|by apply IHb].
  by apply (agrees_frame h1).
Qed.

(** The line of one cell that holds A and B, and the regex [A]. *)
Lemma finished_pass_is_stable_witness :
  let h0 := (alloc {["A"%char; "B"%char]} empty_heap).2 in
  ∃ n h regexes1 h1 regexes2 h2,
    init "A" 1 abc h0 = Ok (n, h) ∧
    round [("A"%string, n, [0])] h = Ok (false, regexes1, h1) ∧
    round regexes1 h1 = Ok (true, regexes2, h2) ∧
    Forall (agrees h2) regexes2 ∧ get h2 0 = {["A"%char]}.
Proof.
  intros h0.
  destruct (init "A" 1 abc h0) as [[n h]| |] eqn:Hi; [|by vm_compute in Hi..].
  assert (Forall (binding_wf h) [("A"%string, n, [0])]) as Hb.
  { vm_compute in Hi. injection Hi as <- <-. constructor; [|constructor].
    split; [|split; [|split]]; cbn.
    - intros c ->%list_elem_of_singleton. split; [done|]. repeat constructor. by eexists.
    - intros c ->%list_elem_of_singleton. repeat constructor.
    - done.
    - repeat constructor. }
  destruct (round_ok _ _ Hb) as (f1 & regexes1 & h1 & Hr1 & Hb1 & _).
  destruct (round_ok _ _ Hb1) as (f2 & regexes2 & h2 & Hr2 & _).
  assert (f1 = false ∧ f2 = true ∧ get h2 0 = {["A"%char]}) as (-> & -> & Hg).
  { clear Hb Hb1. vm_compute in Hi. injection Hi as <- <-.
    vm_compute in Hr1. injection Hr1 as <- <- <-.
    vm_compute in Hr2. injection Hr2 as <- <- <-. by vm_compute. }
  exists n, h, regexes1, h1, regexes2, h2.
  split; [done|]. split; [done|]. split; [done|]. split; [|done].
  exact (proj1 (finished_pass_is_stable regexes1 h1 regexes2 h2 Hb1 Hr2)).
Defined.

End Stable.

(** ** The dereference loop *)

Module References.
Import NFSM NFSMFacts Alloc Construction Copies Sequences Matching Backreferences
  Parsing.

(** An item the second loop of [__init__] can handle: a reference is an
    index of [groups], negative ones counting from the end. *)
Definition resolvable (groups : list chain) (x : item) : Prop :=
  match x with
  | IInt k => (- Z.of_nat (len groups) ≤ k < Z.of_nat (len groups))%Z
  | _ => True
  end.

#[local] Instance resolvable_dec groups x : Decision (resolvable groups x).
Proof. destruct x; apply _. Defined.

Lemma py_index_range {A} (l : list A) (k : Z) :
  ((- Z.of_nat (len l) ≤ k < Z.of_nat (len l))%Z → ∃ x, py_index l k = Ok x) ∧
  (¬ (- Z.of_nat (len l) ≤ k < Z.of_nat (len l))%Z → py_index l k = Raise IndexError).
Proof.
  unfold py_index. cbv zeta. split; intros Hk.
  - destruct (Z.ltb_spec k 0).
    + destruct (Z.ltb_spec (k + Z.of_nat (len l)) 0); [lia|].
      destruct (lookup_lt_is_Some_2 l (Z.to_nat (k + Z.of_nat (len l)))) as [x ->]; [lia|].
      by exists x.
    + destruct (lookup_lt_is_Some_2 l (Z.to_nat k)) as [x ->]; [lia|]. by exists x.
  - destruct (Z.ltb_spec k 0).
    + destruct (Z.ltb_spec (k + Z.of_nat (len l)) 0); [done|]. lia.
    + rewrite (proj2 (lookup_ge_None l (Z.to_nat k))); [done|]. lia.
Qed.

(** X15.  The dereference loop returns if every reference of the chain is
    an index of [groups], and raises [IndexError] if one is not. *)
Theorem dereference_needs_its_groups groups flattened :
  (Forall (resolvable groups) flattened → ∃ d, dereference groups flattened = Ok d) ∧
  (¬ Forall (resolvable groups) flattened →
   dereference groups flattened = Raise IndexError).
Proof.
  induction flattened as [|x r [IH1 IH2]]; [split; [by eexists|intros H; by destruct H]|].
  split.
  - intros [Hx Hr]%Forall_cons_1. destruct (IH1 Hr) as [d Hd].
    destruct x as [a|k|l]; cbn [dereference]; rewrite Hd; cbn [rbind]; [by eexists| |by eexists].
    destruct (proj1 (py_index_range groups k) Hx) as [g ->]. by eexists.
  - intros Hn. destruct (decide (Forall (resolvable groups) r)) as [Hr|Hr].
    + destruct x as [a|k|l]; try (exfalso; apply Hn; constructor; [exact I|done]).
      cbn [dereference]. rewrite (proj2 (py_index_range groups k)); [done|].
      intros Hk. apply Hn. by constructor.
    + specialize (IH2 Hr).
      destruct x as [a|k|l]; cbn [dereference]; rewrite IH2; [done| |done].
      destruct (decide (- Z.of_nat (len groups) ≤ k < Z.of_nat (len groups))%Z) as [Hk|Hk].
      * by destruct (proj1 (py_index_range groups k) Hk) as [g ->].
      * by rewrite (proj2 (py_index_range groups k) Hk).
Qed.

(** The chains of the parser for [(A)\0], whose reference is the index -1,
    the last group, and for [(A)\2], whose reference is the index 1. *)
Lemma dereference_needs_its_groups_witness :
  (∃ d, dereference [[ISet 0]] [ISet 0; IInt (-1)] = Ok d) ∧
  dereference [[ISet 0]] [ISet 0; IInt 1] = Raise IndexError.
Proof.
  split.
  - apply (proj1 (dereference_needs_its_groups [[ISet 0%N]] [ISet 0%N; IInt (-1)])).
    apply (bool_decide_unpack _). vm_compute. exact I.
  - apply (proj2 (dereference_needs_its_groups [[ISet 0%N]] [ISet 0%N; IInt 1])).
    apply (bool_decide_unpack _). vm_compute. exact I.
Defined.

(** X16.  A regex that is one reference and nothing else has no group to
    refer to: the constructor raises [IndexError], whatever the digit. *)
Theorem reference_without_group c1 length alphabet h :
  "\"%char ∉ alphabet → digit c1 →
  init (String "\" (String c1 EmptyString)) length alphabet h = Raise IndexError.
Proof.
  intros Ha Hd. unfold init. cbv zeta.
  change (list_ascii_of_string (String "\" (String c1 EmptyString))) with ["\"%char; c1].
  change (S (len ["\"%char; c1])) with 3.
  assert (c1 ∉ ["("; ")"; "|"]%char) as Hc1.
  { intros Hin. destruct Hd as [H1 H2].
    repeat (apply elem_of_cons in Hin as [->|Hin]; [vm_compute in H1, H2; lia|]).
    by apply elem_of_nil in Hin. }
  rewrite parse_S. cbv zeta. rewrite flat_scan.
  2: { repeat constructor; [set_solver|done]. }
  rewrite decide_False by (intros ?; done).
  rewrite read_item_reference by done. cbn [lookup list_lookup from_option rbind].
  unfold int_of_char. rewrite decide_True by exact Hd. cbn [rbind].
  unfold read_rest. cbv zeta.
  destruct (Z.ltb_spec (1 + 1) (Z.of_nat (len ["\"%char; c1]))) as [Hl|_];
    [cbn in Hl; lia|].
  rewrite !decide_False by done. rewrite py_from_drop by lia.
  change (drop (Z.to_nat (1 + 1)) ["\"%char; c1]) with (@nil ascii).
  cbn [_parse_regex_part rbind]. unfold unquantified, copy_concat. cbn.
  unfold flatten_dereference. cbn [flatten dereference].
  by rewrite (proj2 (py_index_range [] _)) by (cbn; lia).
Qed.

Lemma reference_without_group_witness :
  init "\1" 1 abc empty_heap = Raise IndexError.
Proof.
  apply (reference_without_group "1" 1 abc empty_heap).
  - apply (bool_decide_unpack _). vm_compute. exact I.
  - apply (bool_decide_unpack _). vm_compute. exact I.
Defined.



End References.

(** ** The size of a grid *)

Module GridSize.
Import HexGrid.

Section Size.
Context {G V : Type} (gen : G → V * G).

(** The grid [g'] has [n] cells more than [g], and [l], [u] and [r] more
    entries in its three lists of edges. *)
Definition grown (g g' : @t G V) (n l u r : nat) : Prop :=
  length (cells g') = length (cells g) + n ∧
  length (leftedges g') = length (leftedges g) + l ∧
  length (uredges g') = length (uredges g) + u ∧
  length (lredges g') = length (lredges g) + r.

Lemma grown_refl g : grown g g 0 0 0 0.
Proof. unfold grown. lia. Qed.

Lemma grown_trans g1 g2 g3 n l u r n' l' u' r' :
  grown g1 g2 n l u r → grown g2 g3 n' l' u' r' →
  grown g1 g3 (n + n') (l + l') (u + u') (r + r').
Proof. unfold grown. lia. Qed.

Lemma grown_eq g g' n l u r n' l' u' r' :
  grown g g' n l u r → n = n' → l = l' → u = u' → r = r' → grown g g' n' l' u' r'.
Proof. by intros ? <- <- <- <-. Qed.

Lemma set_left_grown c v (g : @t G V) : grown g (set_left c v g) 0 0 0 0.
Proof. unfold grown, set_left, with_cells. cbn. rewrite length_alter. lia. Qed.
Lemma set_ul_grown c v (g : @t G V) : grown g (set_ul c v g) 0 0 0 0.
Proof. unfold grown, set_ul, with_cells. cbn. rewrite length_alter. lia. Qed.
Lemma set_ur_grown c v (g : @t G V) : grown g (set_ur c v g) 0 0 0 0.
Proof. unfold grown, set_ur, with_cells. cbn. rewrite length_alter. lia. Qed.
Lemma set_right_grown c v (g : @t G V) : grown g (set_right c v g) 0 0 0 0.
Proof. unfold grown, set_right, with_cells. cbn. rewrite length_alter. lia. Qed.
Lemma set_lr_grown c v (g : @t G V) : grown g (set_lr c v g) 0 0 0 0.
Proof. unfold grown, set_lr, with_cells. cbn. rewrite length_alter. lia. Qed.
Lemma set_ll_grown c v (g : @t G V) : grown g (set_ll c v g) 0 0 0 0.
Proof. unfold grown, set_ll, with_cells. cbn. rewrite length_alter. lia. Qed.

Lemma new_cell_grown g : grown g (new_cell gen g).2 1 0 0 0.
Proof. unfold grown, new_cell. cbn. rewrite length_app. cbn. lia. Qed.

Lemma top_row_grown n : ∀ row lastcell g,
  length (top_row gen n row lastcell g).1 = length row + n ∧
  grown g (top_row gen n row lastcell g).2 n 0 0 0.
Proof.
  induction n as [|n IH]; intros row lastcell g; cbn [top_row].
  { cbn. split; [lia|apply grown_refl]. }
  pose proof (new_cell_grown g) as H1.
  destruct (new_cell gen g) as [newcell g1]. cbn [snd] in H1.
  set (g2 := match lastcell with
             | Some l => set_left newcell l (set_right l newcell g1)
             | None => g1 end).
  assert (grown g g2 1 0 0 0) as H2.
  { unfold g2. destruct lastcell as [l|]; [|done].
    pose proof (set_right_grown l newcell g1).
    pose proof (set_left_grown newcell l (set_right l newcell g1)).
    unfold grown in *. lia. }
  destruct (IH (row ++ [newcell]) (Some newcell) g2) as [Hl Hg].
  split; [rewrite Hl, length_app; cbn; lia|]. unfold grown in *. lia.
Qed.

Lemma inner_nodes_grown ps : ∀ newrow g,
  length (inner_nodes gen ps newrow g).1 = length newrow + length ps ∧
  grown g (inner_nodes gen ps newrow g).2 (length ps) 0 0 0.
Proof.
  induction ps as [|[ulneighbor urneighbor] ps IH]; intros newrow g; cbn [inner_nodes].
  { cbn. split; [lia|apply grown_refl]. }
  pose proof (new_cell_grown g) as H1.
  destruct (new_cell gen g) as [newcell g1]. cbn [snd] in H1. cbv zeta.
  set (g2 := set_ll _ _ _).
  assert (grown g g2 1 0 0 0) as H2.
  { unfold g2.
    pose proof (set_ul_grown newcell ulneighbor g1).
    pose proof (set_lr_grown ulneighbor newcell (set_ul newcell ulneighbor g1)).
    pose proof (set_ur_grown newcell urneighbor
                  (set_lr ulneighbor newcell (set_ul newcell ulneighbor g1))).
    pose proof (set_ll_grown urneighbor newcell
                  (set_ur newcell urneighbor
                     (set_lr ulneighbor newcell (set_ul newcell ulneighbor g1)))).
    unfold grown in *. lia. }
  destruct (IH (newrow ++ [newcell]) g2) as [Hl Hg].
  split; [rewrite Hl, length_app; cbn; lia|]. unfold grown in *. cbn. lia.
Qed.

Lemma link_row_grown newrow (g : @t G V) : grown g (link_row newrow g) 0 0 0 0.
Proof.
  unfold link_row. generalize (adjacent newrow). intros ps. revert g.
  induction ps as [|[l r] ps IH]; intros g; [apply grown_refl|]. cbn [foldl].
  pose proof (set_right_grown l r g).
  pose proof (set_left_grown r l (set_right l r g)).
  pose proof (IH (set_left r l (set_right l r g))).
  unfold grown in *. lia.
Qed.

Lemma adjacent_length {A} (l : list A) : length (adjacent l) = length l - 1.
Proof.
  unfold adjacent, but_last. rewrite length_zip, length_take, length_tl. lia.
Qed.

(** A row one longer: as many new cells, one more left edge and one more
    upper right edge. *)
Lemma _newrow_expand_grown lastrow g :
  0 < length lastrow →
  ∃ newrow g', _newrow_expand gen lastrow g = Ok (newrow, g') ∧
    length newrow = length lastrow + 1 ∧ grown g g' (length lastrow + 1) 1 1 0.
Proof.
  intros Hl. unfold _newrow_expand.
  pose proof (new_cell_grown g) as H1.
  destruct (new_cell gen g) as [first g1]. cbn [snd] in H1.
  destruct lastrow as [|c0 lastrow']; [cbn in Hl; lia|].
  cbn [head from_option rbind]. cbv zeta.
  set (g2 := set_ur first c0 (set_ll c0 first g1)).
  assert (grown g g2 1 0 0 0) as H2.
  { unfold g2. pose proof (set_ll_grown c0 first g1).
    pose proof (set_ur_grown first c0 (set_ll c0 first g1)). unfold grown in *. lia. }
  destruct (inner_nodes_grown (adjacent (c0 :: lastrow')) [first] g2) as [Hl3 H3].
  destruct (inner_nodes gen (adjacent (c0 :: lastrow')) [first] g2) as [newrow g3].
  cbn [fst snd] in Hl3, H3. rewrite adjacent_length in Hl3, H3.
  pose proof (new_cell_grown g3) as H4.
  destruct (new_cell gen g3) as [final g4]. cbn [snd] in H4.
  destruct (last (c0 :: lastrow')) as [c1|] eqn:Hlast.
  2: { apply last_None in Hlast. done. }
  cbn [from_option rbind].
  set (g5 := set_ul final c1 (set_lr c1 final g4)).
  assert (grown g4 g5 0 0 0 0) as H5.
  { unfold g5. pose proof (set_lr_grown c1 final g4).
    pose proof (set_ul_grown final c1 (set_lr c1 final g4)). unfold grown in *. lia. }
  pose proof (link_row_grown (newrow ++ [final]) g5) as H6.
  eexists _, _. split; [done|]. split.
  - rewrite length_app. cbn in *. lia.
  - unfold grown in *. cbn in *. rewrite !length_app. cbn. lia.
Qed.

(** A row one shorter: as many new cells, one more left edge and one
    more lower right edge. *)
Lemma _newrow_contract_grown lastrow g :
  1 < length lastrow →
  ∃ newrow g', _newrow_contract gen lastrow g = Ok (newrow, g') ∧
    length newrow = length lastrow - 1 ∧ grown g g' (length lastrow - 1) 1 0 1.
Proof.
  intros Hl. unfold _newrow_contract.
  destruct (inner_nodes_grown (adjacent lastrow) [] g) as [Hl1 H1].
  destruct (inner_nodes gen (adjacent lastrow) [] g) as [newrow g1].
  cbn [fst snd] in Hl1, H1. rewrite adjacent_length in Hl1, H1. cbn in Hl1.
  pose proof (link_row_grown newrow g1) as H2.
  destruct newrow as [|c0 newrow']; [cbn in Hl1; lia|].
  cbn [head from_option rbind].
  destruct (last (c0 :: newrow')) as [c1|] eqn:Hlast.
  2: { apply last_None in Hlast. done. }
  cbn [from_option rbind].
  eexists _, _. split; [done|]. split; [done|].
  unfold grown in *. cbn in *. rewrite !length_app. cbn. lia.
Qed.

Lemma expand_rows m : ∀ row g,
  0 < length row →
  ∃ row' g', repeat_rows (_newrow_expand gen) m row g = Ok (row', g') ∧
    length row' = length row + m ∧
    length (leftedges g') = length (leftedges g) + m ∧
    length (uredges g') = length (uredges g) + m ∧
    length (lredges g') = length (lredges g) ∧
    2 * length (cells g') = 2 * length (cells g) + 2 * m * length row + m * (m + 1).
Proof.
  induction m as [|m IH]; intros row g Hl; cbn [repeat_rows].
  { eexists _, _. split; [done|]. lia. }
  destruct (_newrow_expand_grown row g Hl) as (row1 & g1 & -> & Hl1 & H1).
  cbn [rbind]. destruct (IH row1 g1) as (row' & g' & -> & Hl' & H2 & H3 & H4 & H5); [lia|].
  eexists _, _. split; [done|]. unfold grown in H1. rewrite Hl1 in *. nia.
Qed.

Lemma contract_rows m : ∀ row g,
  m < length row →
  ∃ row' g', repeat_rows (_newrow_contract gen) m row g = Ok (row', g') ∧
    length row' = length row - m ∧
    length (leftedges g') = length (leftedges g) + m ∧
    length (uredges g') = length (uredges g) ∧
    length (lredges g') = length (lredges g) + m ∧
    2 * length (cells g') + m * (m + 1) = 2 * length (cells g) + 2 * m * length row.
Proof.
  induction m as [|m IH]; intros row g Hl; cbn [repeat_rows].
  { eexists _, _. split; [done|]. lia. }
  destruct (_newrow_contract_grown row g) as (row1 & g1 & -> & Hl1 & H1); [lia|].
  cbn [rbind]. destruct (IH row1 g1) as (row' & g' & -> & Hl' & H2 & H3 & H4 & H5); [lia|].
  eexists _, _. split; [done|]. unfold grown in H1. rewrite Hl1 in *.
  assert (length row = S (length row - 1)) as Hr by lia. nia.
Qed.

(** X18.  [HexGrid(n, f)] for a side [n] of at least 1 is built, with
    [3n(n-1)+1] cells and [2n-1] entries in each of its three lists of
    edges; [HexGrid(0, f)] raises [IndexError]. *)
Theorem grid_size sidelen s :
  (0 < sidelen →
   ∃ g, init gen sidelen s = Ok g ∧
        length (cells g) = 3 * sidelen * (sidelen - 1) + 1 ∧
        length (leftedges g) = 2 * sidelen - 1 ∧
        length (uredges g) = 2 * sidelen - 1 ∧
        length (lredges g) = 2 * sidelen - 1) ∧
  (sidelen = 0 → init gen sidelen s = Raise IndexError).
Proof.
  split; [|by intros ->].
  intros Hn. unfold init.
  destruct (top_row_grown sidelen [] None (mk sidelen s [] [] [] [])) as [Hl0 H0].
  destruct (top_row gen sidelen [] None (mk sidelen s [] [] [] [])) as [row g0].
  cbn [fst snd] in Hl0, H0. cbn in Hl0. unfold grown in H0. cbn in H0.
  destruct H0 as (Hc0 & Hle0 & Hu0 & Hr0). cbv zeta.
  destruct row as [|c0 row']; [cbn in Hl0; lia|].
  cbn [head from_option rbind].
  set (g1 := mk sidelen _ _ _ _ _).
  destruct (expand_rows (sidelen - 1) (c0 :: row') g1) as (row2 & g2 & -> & Hl2 & E1 & E2 & E3 & E4);
    [cbn; lia|].
  cbn [rbind]. destruct (last row2) as [c1|] eqn:Hlast.
  2: { apply last_None in Hlast. subst row2. cbn in Hl2. lia. }
  cbn [from_option rbind].
  set (g3 := mk sidelen _ _ _ _ _).
  destruct (contract_rows (sidelen - 1) row2 g3) as (row4 & g4 & -> & Hl4 & C1 & C2 & C3 & C4);
    [lia|].
  cbn [rbind]. eexists. split; [done|]. cbn [cells leftedges uredges lredges].
  rewrite length_reverse, length_app, length_reverse. unfold but_last. rewrite length_take.
  subst g1 g3. cbn [cells leftedges uredges lredges] in *.
  rewrite !length_app in *. cbn [Datatypes.length] in *.
  assert (sidelen = S (sidelen - 1)) as Hs by lia.
  split; [nia|]. lia.
Qed.

End Size.

(** The grid of the puzzle, of side 7. *)
Lemma grid_size_witness :
  ∃ g, init HexGridFacts.fresh_list 7 0 = Ok g ∧
       length (cells g) = 127 ∧ length (leftedges g) = 13 ∧
       length (uredges g) = 13 ∧ length (lredges g) = 13.
Proof.
  destruct (proj1 (grid_size HexGridFacts.fresh_list 7 0)) as (g & Hi & H1 & H2 & H3 & H4);
    [lia|].
  exists g. by repeat split.
Defined.

End GridSize.

(** ** The regex [.*] *)

Module DotStar.
Import NFSM NFSMFacts Alloc Construction Copies Sequences Matching Backreferences
  Parsing Driver Properties Words.
Local Open Scope N_scope.

(** A chain of [k] sets of the store, no two the same, that all hold
    the letters [s]. *)
Definition filled (h : heap) (s : gset ascii) (k : nat) (c : chain) : Prop :=
  len c = k ∧ NoDup (chain_addrs c) ∧
  Forall (λ x, ∃ b, x = ISet b ∧ b < next h ∧ get h b = s) c.

Lemma filled_extends h h' s k c : extends h h' → filled h s k c → filled h' s k c.
Proof.
  intros [Hn E] (Hl & Hnd & Hc). split; [done|]. split; [done|].
  eapply Forall_impl; [exact Hc|]. intros x (b & -> & Hb & Hg).
  exists b. split; [done|]. split; [lia|]. by rewrite E.
Qed.

Lemma filled_sets h s k c : filled h s k c → Forall is_set c.
Proof.
  intros (_ & _ & Hc). eapply Forall_impl; [exact Hc|]. intros x (b & -> & _). by eexists.
Qed.

(** [_copy_chain([x], repeat)] for a set [x]. *)
Lemma _copy_chain_filled a k : ∀ h c h',
  _copy_chain [ISet a] k h = (c, h') → a < next h →
  filled h' (get h a) k c ∧ extends h h' ∧ fresh h h' (chain_addrs c).
Proof.
  induction k as [|k IH]; intros h c h' Hc Ha; cbn [_copy_chain copy_items] in Hc.
  { simplify_eq. split; [|split; [apply extends_refl|constructor]].
    split; [done|]. split; constructor. }
  rewrite deepcopy_set in Hc. set (h1 := (alloc (get h a) h).2) in Hc.
  destruct (_copy_chain [ISet a] k h1) as [c2 h2] eqn:H2. simplify_eq.
  pose proof (extends_alloc (get h a) h) as E1. fold h1 in E1.
  assert (next h1 = N.succ (next h)) as Hn1 by done.
  destruct (IH h1 c2 h' H2) as ((Hl & Hnd & Hc2) & E2 & F2); [lia|].
  assert (get h1 a = get h a) as Hga by (apply E1; lia).
  rewrite Hga in Hc2.
  split; [|split].
  - split; [cbn; by rewrite Hl|]. split.
    + cbn [app]. rewrite chain_addrs_cons. cbn. constructor; [|done].
      intros Hin. unfold fresh in F2. rewrite Forall_forall in F2. apply F2 in Hin. lia.
    + cbn [app]. constructor; [|done]. exists (next h). split; [done|].
      destruct E2 as [Hn2 E2]. split; [lia|]. rewrite E2 by lia.
      apply (get_alloc_new (get h a) h).
  - by eapply extends_trans.
  - cbn [app]. rewrite chain_addrs_cons. cbn. constructor.
    + destruct E2. lia.
    + eapply fresh_mono; [| |exact F2]; lia.
Qed.

(** The loop of the star over the numbers of repetitions, for the item
    [[x]] and the empty remainder: one chain for each number. *)
Lemma star_loop a s n : ∀ lo h cs h',
  for_each (seq lo n) (λ repeatnum,
    for_each [[ISet a]] (λ chain1 h,
      let '(c, h) := copy_concat chain1 repeatnum [] h in ([c], h))) h = (cs, h') →
  a < next h → get h a = s →
  extends h h' ∧ Forall2 (filled h' s) (seq lo n) cs.
Proof.
  induction n as [|n IH]; intros lo h cs h' Hf Ha Hs; cbn [seq for_each] in Hf.
  { simplify_eq. split; [apply extends_refl|constructor]. }
  unfold copy_concat in Hf at 1. cbn [_copy_chain copy_items] in Hf.
  destruct (_copy_chain [ISet a] lo h) as [c h1] eqn:H1.
  destruct (_copy_chain_filled _ _ _ _ _ H1 Ha) as (Hc & E1 & _).
  match type of Hf with context [for_each (seq ?l n) ?b h1] =>
    destruct (for_each (seq l n) b h1) as [zs h2] eqn:H2 end.
  simplify_eq. rewrite !app_nil_r. cbn [app].
  destruct (IH _ _ _ _ H2) as [E2 Hzs]; [destruct E1; lia|apply E1; lia|].
  split; [by eapply extends_trans|]. constructor; [|done].
  eapply filled_extends; [exact E2|exact Hc].
Qed.

(** Of chains of the lengths [lo], [lo + 1], ... one has a given length. *)
Lemma filter_above (P : nat → chain → Prop) n : ∀ lo cs (k : nat),
  Forall2 P (seq lo n) cs → (∀ j c, P j c → len c = j) → (k < lo)%nat →
  filter (λ c, len c = k) cs = [].
Proof.
  induction n as [|n IH]; intros lo cs k Hcs HP Hk; cbn [seq] in Hcs.
  { by inversion Hcs. }
  inversion Hcs as [|? c ? cs' Hc Hcs']; subst.
  rewrite filter_cons, decide_False by (rewrite (HP _ _ Hc); lia).
  apply (IH (S lo)); [done..|lia].
Qed.

Lemma filter_length (P : nat → chain → Prop) n : ∀ lo cs (k : nat),
  Forall2 P (seq lo n) cs → (∀ j c, P j c → len c = j) → (lo ≤ k < lo + n)%nat →
  ∃ c, filter (λ c, len c = k) cs = [c] ∧ P k c.
Proof.
  induction n as [|n IH]; intros lo cs k Hcs HP Hk; [lia|].
  cbn [seq] in Hcs. inversion Hcs as [|? c ? cs' Hc Hcs']; subst.
  rewrite filter_cons. destruct (decide (lo = k)) as [->|Hne].
  - rewrite decide_True by (by apply HP). exists c. split; [|done]. f_equal.
    apply (filter_above P n (S k)); [done..|lia].
  - rewrite decide_False by (intros Hl; apply Hne; by rewrite <- (HP _ _ Hc)).
    apply (IH (S lo)); [done..|lia].
Qed.

(** Two slots of a chain of sets that are all different hold the same
    set only if they are the same slot, or are both past the end. *)
Lemma nodup_slots c : ∀ i j : nat,
  Forall is_set c → NoDup (chain_addrs c) → slot c i = slot c j →
  i = j ∨ (len c ≤ i ∧ len c ≤ j)%nat.
Proof.
  induction c as [|x c IH]; intros i j Hs Hnd Hij; [right; cbn; lia|].
  apply Forall_cons_1 in Hs as [[a ->] Hs].
  rewrite chain_addrs_cons in Hnd. cbn in Hnd. apply NoDup_cons in Hnd as [Hn Hnd].
  destruct i as [|i], j as [|j]; [by left| | |].
  - exfalso. apply Hn. apply (slot_addr c j). symmetry. exact Hij.
  - exfalso. apply Hn. apply (slot_addr c i). exact Hij.
  - destruct (IH i j Hs Hnd Hij) as [->|[? ?]]; [by left|right; cbn; lia].
Qed.

Lemma filled_accepts h s c w :
  filled h s (len w) c → accepts h c w ↔ Forall (λ ch, ch ∈ s) w.
Proof.
  intros (Hl & Hnd & Hc). split.
  - intros [A1 _]. apply Forall_lookup. intros i ch Hi.
    specialize (A1 i ch Hi).
    destruct (lookup_lt_is_Some_2 c i) as [x Hx].
    { rewrite Hl. by eapply lookup_lt_Some. }
    destruct (proj1 (Forall_lookup _ _) Hc i x Hx) as (b & -> & _ & Hg).
    unfold slot_value, slot in A1. by rewrite Hx, Hg in A1.
  - intros Hw. split.
    + intros i ch Hi.
      destruct (lookup_lt_is_Some_2 c i) as [x Hx].
      { rewrite Hl. by eapply lookup_lt_Some. }
      destruct (proj1 (Forall_lookup _ _) Hc i x Hx) as (b & -> & _ & Hg).
      unfold slot_value, slot. rewrite Hx, Hg.
      by apply (proj1 (Forall_lookup _ _) Hw i).
    + intros i j Hij.
      destruct (nodup_slots c i j) as [->|[H1 H2]]; [|done..|].
      * eapply Forall_impl; [exact Hc|]. intros x (b & -> & _). by eexists.
      * rewrite !(proj2 (lookup_ge_None _ _)); [done|lia..].
Qed.

(** X19.  [NFSM(".*", length, alphabet)], for an alphabet without the dot,
    accepts the strings of that length over the alphabet and no other:
    it has one chain, of [length] sets that each hold the alphabet. *)
Theorem dot_star_accepts_all length alphabet h :
  "."%char ∉ alphabet →
  ∃ n h', init ".*" length alphabet h = Ok (n, h') ∧
    (∃ c, chains n = [c] ∧ filled h' alphabet length c) ∧
    ∀ matchstr, ∃ b h'', match_ matchstr n h' = Ok (b, h'') ∧
      (b = true ↔ len (list_ascii_of_string matchstr) = length ∧
                  Forall (λ ch, ch ∈ alphabet) (list_ascii_of_string matchstr)).
Proof.
  intros Hdot. unfold init. cbv zeta.
  change (list_ascii_of_string ".*") with ["."; "*"]%char.
  change (S (len ["."; "*"]%char)) with 3%nat.
  rewrite parse_item; [|repeat constructor; set_solver|by right]. cbv zeta.
  rewrite decide_True by done. rewrite decide_False by done.
  set (h1 := (alloc alphabet h).2). cbn [_parse_regex_part rbind].
  unfold star. cbn [for_each].
  match goal with |- context [for_each (seq 0 ?n) ?b h1] =>
    destruct (for_each (seq 0 n) b h1) as [cs h2] eqn:Hcs end.
  destruct (star_loop _ alphabet _ _ _ _ _ Hcs) as [E2 Hf].
  { cbn. lia. }
  { apply (get_alloc_new alphabet h). }
  rewrite app_nil_r. cbn [rbind].
  rewrite rmapM_id.
  2: { clear -Hf. induction Hf as [|k c ks cs Hc _ IH]; constructor; [|done].
       apply flatten_dereference_sets. by eapply filled_sets. }
  cbn [rbind].
  destruct (filter_length (filled h2 alphabet) (length + 1) 0 cs length Hf)
    as (c & Hfilter & Hc); [by intros j d (? & _)|lia|].
  rewrite Hfilter. eexists _, h2. split; [done|]. split; [by exists c|].
  intros matchstr.
  destruct (match_effect matchstr (mk [c] length alphabet) h2) as (b & h'' & Hm & _ & Hb).
  { intros d ->%list_elem_of_singleton. split; [by destruct Hc|by eapply filled_sets]. }
  { intros d ->%list_elem_of_singleton. destruct Hc as (_ & _ & Hc).
    clear -Hc. induction Hc as [|x c (b & -> & Hb & _) _ IH]; [constructor|].
    rewrite chain_addrs_cons. by constructor. }
  exists b, h''. split; [exact Hm|]. rewrite Hb. cbn [NFSM.length chains]. split.
  - intros (Hlen & d & ->%list_elem_of_singleton & Hacc). split; [done|].
    apply (filled_accepts h2 alphabet c); [by rewrite Hlen|done].
  - intros [Hlen Hall]. split; [done|]. exists c. split; [by left|].
    apply (filled_accepts h2 alphabet c); [by rewrite Hlen|done].
Qed.

Lemma dot_star_accepts_all_witness :
  ∃ n h', init ".*" 3 abc empty_heap = Ok (n, h') ∧
    ∀ matchstr, ∃ b h'', match_ matchstr n h' = Ok (b, h'') ∧
      (b = true ↔ len (list_ascii_of_string matchstr) = 3%nat ∧
                  Forall (λ ch, ch ∈ abc) (list_ascii_of_string matchstr)).
Proof.
  destruct (dot_star_accepts_all 3 abc empty_heap) as (n & h' & Hi & _ & Hm).
  - apply (bool_decide_unpack _). vm_compute. exact I.
  - by exists n, h'.
Defined.

End DotStar.

(** ** The loops of the star *)

Module Star.
Import NFSM NFSMFacts Alloc Construction Copies Sequences Matching Backreferences
  Parsing Driver Properties Words.
Local Open Scope N_scope.









End Star.
